(** * dupe-d: a shallow embedding of [main.go] and its specification

    The program walks a directory tree, hashes every file whose extension
    passes a filter and writes a CSV report.  Go strings are byte
    sequences, so a string is a [list byte]; the functions of the Go
    standard library that [main.go] calls ([strings], [unicode/utf8],
    [unicode], [path/filepath], [crypto/sha256], [bufio], [encoding/csv],
    [strconv]) are modelled from their documented behaviour in modules of
    their own, and the functions of [main.go] keep their names. *)

From Stdlib Require Import Strings.String Strings.Byte.
From Stdlib Require Import List ZArith Lia Bool Arith.
Import ListNotations.

Local Open Scope Z_scope.

(** ** Go strings *)

Definition gostring := list byte.

(** A string literal of the source. *)
Definition lit (s : String.string) : gostring := String.list_byte_of_string s.
Arguments lit s%_string_scope.

(** The numeric value of a byte. *)
Definition b2z (b : byte) : Z := Z.of_N (Byte.to_N b).

Fixpoint gostring_eqb (a b : gostring) : bool :=
  match a, b with
  | [], [] => true
  | x :: a', y :: b' => Byte.eqb x y && gostring_eqb a' b'
  | _, _ => false
  end.

(** ** unicode/utf8 *)
Module Utf8.

Definition RuneError : Z := 65533.   (* U+FFFD *)
Definition RuneSelf : Z := 128.
Definition UTFMax : nat := 4.

(** The [first] table: information about the first byte of an encoding.
    [0xF0] is ASCII, [0xF1] is invalid, otherwise the low three bits are
    the size and the high four bits index [acceptRanges]. *)
Definition as_ : Z := 240.
Definition xx : Z := 241.

Definition first (c : Z) : Z :=
  if c <? 128 then as_
  else if c <? 194 then xx            (* 0x80-0xBF, 0xC0, 0xC1 *)
  else if c <? 224 then 2             (* s1: 0xC2-0xDF *)
  else if c =? 224 then 19            (* s2: 0xE0 *)
  else if c <? 237 then 3             (* s3: 0xE1-0xEC *)
  else if c =? 237 then 35            (* s4: 0xED *)
  else if c <? 240 then 3             (* s3: 0xEE-0xEF *)
  else if c =? 240 then 52            (* s5: 0xF0 *)
  else if c <? 244 then 4             (* s6: 0xF1-0xF3 *)
  else if c =? 244 then 68            (* s7: 0xF4 *)
  else xx.

Definition locb : Z := 128.
Definition hicb : Z := 191.

Definition acceptRanges (i : Z) : Z * Z :=
  if i =? 0 then (locb, hicb)
  else if i =? 1 then (160, hicb)
  else if i =? 2 then (locb, 159)
  else if i =? 3 then (144, hicb)
  else if i =? 4 then (locb, 143)
  else (0, 0).

Definition outside (c lo hi : Z) : bool := (c <? lo) || (hi <? c).

(** [utf8.DecodeRuneInString]: the first rune of [s] and its width in
    bytes; [(RuneError, 0)] on the empty string and [(RuneError, 1)] on
    an invalid encoding. *)
Definition DecodeRuneInString (s : gostring) : Z * nat :=
  match s with
  | [] => (RuneError, 0%nat)
  | b0 :: t0 =>
    let s0 := b2z b0 in
    let x := first s0 in
    if as_ <=? x then ((if x =? xx then RuneError else s0), 1%nat)
    else
      let sz := Z.to_nat (Z.land x 7) in
      let '(lo, hi) := acceptRanges (Z.shiftr x 4) in
      if (length s <? sz)%nat then (RuneError, 1%nat)
      else
        match t0 with
        | [] => (RuneError, 1%nat)
        | b1 :: t1 =>
          let s1 := b2z b1 in
          if outside s1 lo hi then (RuneError, 1%nat)
          else if (sz <=? 2)%nat then
            (Z.lor (Z.shiftl (Z.land s0 31) 6) (Z.land s1 63), 2%nat)
          else
            match t1 with
            | [] => (RuneError, 1%nat)
            | b2 :: t2 =>
              let s2 := b2z b2 in
              if outside s2 locb hicb then (RuneError, 1%nat)
              else if (sz <=? 3)%nat then
                (Z.lor (Z.lor (Z.shiftl (Z.land s0 15) 12)
                              (Z.shiftl (Z.land s1 63) 6))
                       (Z.land s2 63), 3%nat)
              else
                match t2 with
                | [] => (RuneError, 1%nat)
                | b3 :: _ =>
                  let s3 := b2z b3 in
                  if outside s3 locb hicb then (RuneError, 1%nat)
                  else
                    (Z.lor (Z.lor (Z.lor (Z.shiftl (Z.land s0 7) 18)
                                         (Z.shiftl (Z.land s1 63) 12))
                                  (Z.shiftl (Z.land s2 63) 6))
                           (Z.land s3 63), 4%nat)
                end
            end
        end
  end.

(** [utf8.RuneStart]: the byte is not a continuation byte. *)
Definition RuneStart (b : byte) : bool :=
  negb (Z.land (b2z b) 192 =? 128).

(** The backward scan of [DecodeLastRuneInString]: how many bytes before
    the last one belong to the segment that is decoded.  [before] lists
    the bytes that precede the last one, nearest first.  The scan stops
    at the first rune start, looks at no more than [UTFMax - 1] bytes,
    and when it finds none it takes everything down to the limit (one
    byte past it when the string is longer). *)
Definition backtrack (before : gostring) : nat :=
  match before with
  | [] => 0
  | b1 :: r1 =>
    if RuneStart b1 then 1
    else match r1 with
         | [] => 1
         | b2 :: r2 =>
           if RuneStart b2 then 2
           else match r2 with
                | [] => 2
                | b3 :: r3 =>
                  if RuneStart b3 then 3
                  else match r3 with
                       | [] => 3
                       | _ :: _ => 4
                       end
                end
         end
  end%nat.

(** The body of [DecodeLastRuneInString] on the string read from its
    end: [b0] is the last byte. *)
Definition decodeLastOfRev (r : gostring) : Z * nat :=
  match r with
  | [] => (RuneError, 0%nat)
  | b0 :: before =>
    if b2z b0 <? RuneSelf then (b2z b0, 1%nat)
    else
      let seg := rev (b0 :: firstn (backtrack before) before) in
      let '(r, size) := DecodeRuneInString seg in
      if (size =? length seg)%nat then (r, size) else (RuneError, 1%nat)
  end.

(** [utf8.DecodeLastRuneInString]: the last rune of [s] and its width. *)
Definition DecodeLastRuneInString (s : gostring) : Z * nat :=
  decodeLastOfRev (rev s).

End Utf8.

(** ** unicode *)
Module Unicode.

Definition MaxLatin1 : Z := 255.

(** The [White_Space] range table, restricted to what lies above
    Latin-1 (the part [isExcludingLatin] searches). *)
Definition White_Space_above_Latin1 : list (Z * Z) :=
  [ (5760, 5760);      (* U+1680 *)
    (8192, 8202);      (* U+2000 - U+200A *)
    (8232, 8233);      (* U+2028 - U+2029 *)
    (8239, 8239);      (* U+202F *)
    (8287, 8287);      (* U+205F *)
    (12288, 12288) ].  (* U+3000 *)

Definition in_ranges (tab : list (Z * Z)) (r : Z) : bool :=
  existsb (fun '(lo, hi) => (lo <=? r) && (r <=? hi)) tab.

(** [unicode.IsSpace]. *)
Definition IsSpace (r : Z) : bool :=
  if (0 <=? r) && (r <=? MaxLatin1) then
    (r =? 9) || (r =? 10) || (r =? 11) || (r =? 12) || (r =? 13)
    || (r =? 32) || (r =? 133) || (r =? 160)
  else in_ranges White_Space_above_Latin1 r.

End Unicode.

(** ** strings *)
Module Strings.

(** [strings.HasPrefix]. *)
Fixpoint HasPrefix (s prefix : gostring) {struct prefix} : bool :=
  match prefix, s with
  | [], _ => true
  | p :: prefix', c :: s' => Byte.eqb c p && HasPrefix s' prefix'
  | _ :: _, [] => false
  end.

(** [strings.Split] for a separator of one byte: the substrings between
    the separators; a string without separator (the empty one too) is
    returned as the only element. *)
Fixpoint Split (s : gostring) (sep : byte) : list gostring :=
  match s with
  | [] => [[]]
  | c :: s' =>
    if Byte.eqb c sep then [] :: Split s' sep
    else match Split s' sep with
         | [] => [[c]]
         | h :: t => (c :: h) :: t
         end
  end.

(** [strings.TrimLeftFunc]: drop leading runes while [f] holds.  Every
    iteration drops at least one byte, so the length of the string is
    enough fuel. *)
Fixpoint trimLeftLoop (fuel : nat) (f : Z -> bool) (s : gostring) : gostring :=
  match fuel with
  | O => s
  | S fuel' =>
    match s with
    | [] => []
    | _ :: _ =>
      let '(r, size) := Utf8.DecodeRuneInString s in
      if f r then trimLeftLoop fuel' f (skipn size s) else s
    end
  end.

Definition TrimLeftFunc (s : gostring) (f : Z -> bool) : gostring :=
  trimLeftLoop (length s) f s.

(** [strings.TrimRightFunc]: drop trailing runes while [f] holds. *)
Fixpoint trimRightLoop (fuel : nat) (f : Z -> bool) (s : gostring) : gostring :=
  match fuel with
  | O => s
  | S fuel' =>
    match s with
    | [] => []
    | _ :: _ =>
      let '(r, size) := Utf8.DecodeLastRuneInString s in
      if f r then trimRightLoop fuel' f (firstn (length s - size) s) else s
    end
  end.

Definition TrimRightFunc (s : gostring) (f : Z -> bool) : gostring :=
  trimRightLoop (length s) f s.

(** [strings.TrimSpace]: all leading and trailing white space removed,
    as defined by Unicode. *)
Definition TrimSpace (s : gostring) : gostring :=
  TrimRightFunc (TrimLeftFunc s Unicode.IsSpace) Unicode.IsSpace.

(** [strings.Join]. *)
Fixpoint Join (elems : list gostring) (sep : gostring) : gostring :=
  match elems with
  | [] => []
  | [e] => e
  | e :: rest => e ++ sep ++ Join rest sep
  end.

End Strings.

(** ** path/filepath *)
Module Filepath.

Definition Separator : byte := "/"%byte.

Definition IsPathSeparator (c : byte) : bool := Byte.eqb c Separator.

(** The loop of [filepath.Ext], which runs from the last byte towards
    the first: [rpath] is the part of the path not yet visited, last
    byte first, and [suffix] the part already visited.  It stops at a
    separator with the empty extension and at a dot with the suffix
    that starts there. *)
Fixpoint ext_scan (rpath : gostring) (suffix : gostring) : gostring :=
  match rpath with
  | [] => []
  | c :: rpath' =>
    if IsPathSeparator c then []
    else if Byte.eqb c "."%byte then c :: suffix
    else ext_scan rpath' (c :: suffix)
  end.

(** [filepath.Ext]. *)
Definition Ext (path : gostring) : gostring := ext_scan (rev path) [].

End Filepath.

(** ** Bytes and numbers *)

(** The byte with the value [z mod 256]. *)
Definition z2b (z : Z) : byte :=
  match Byte.of_N (Z.to_N (z mod 256)) with
  | Some b => b
  | None => x00
  end.

Definition newline : gostring := [x0a].

(** The first [n] elements of a list, with the count in binary: buffer
    sizes are large. *)
Fixpoint take {A} (n : N) (l : list A) : list A :=
  match l with
  | [] => []
  | x :: l' => if (n =? 0)%N then [] else x :: take (N.pred n) l'
  end.

Fixpoint drop {A} (n : N) (l : list A) : list A :=
  match l with
  | [] => []
  | x :: l' => if (n =? 0)%N then l else drop (N.pred n) l'
  end.

(** ** crypto/sha256 *)
Module Sha256.

Definition chunk : nat := 64.

Definition wrap32 (x : Z) : Z := x mod 4294967296.
Definition wrap64 (x : Z) : Z := x mod 18446744073709551616.
Definition add32 (x y : Z) : Z := wrap32 (x + y).
Definition rotr (n x : Z) : Z :=
  Z.lor (Z.shiftr x n) (wrap32 (Z.shiftl x (32 - n))).
Definition not32 (x : Z) : Z := 4294967295 - x.

Definition Ch (x y z : Z) : Z := Z.lxor (Z.land x y) (Z.land (not32 x) z).
Definition Maj (x y z : Z) : Z :=
  Z.lxor (Z.lxor (Z.land x y) (Z.land x z)) (Z.land y z).
Definition Sigma0 (x : Z) : Z :=
  Z.lxor (Z.lxor (rotr 2 x) (rotr 13 x)) (rotr 22 x).
Definition Sigma1 (x : Z) : Z :=
  Z.lxor (Z.lxor (rotr 6 x) (rotr 11 x)) (rotr 25 x).
Definition sigma0 (x : Z) : Z :=
  Z.lxor (Z.lxor (rotr 7 x) (rotr 18 x)) (Z.shiftr x 3).
Definition sigma1 (x : Z) : Z :=
  Z.lxor (Z.lxor (rotr 17 x) (rotr 19 x)) (Z.shiftr x 10).

(** The round constants: the first 32 bits of the fractional parts of
    the cube roots of the first 64 primes. *)
Definition K : list Z :=
  [ 1116352408; 1899447441; 3049323471; 3921009573;
    961987163; 1508970993; 2453635748; 2870763221;
    3624381080; 310598401; 607225278; 1426881987;
    1925078388; 2162078206; 2614888103; 3248222580;
    3835390401; 4022224774; 264347078; 604807628;
    770255983; 1249150122; 1555081692; 1996064986;
    2554220882; 2821834349; 2952996808; 3210313671;
    3336571891; 3584528711; 113926993; 338241895;
    666307205; 773529912; 1294757372; 1396182291;
    1695183700; 1986661051; 2177026350; 2456956037;
    2730485921; 2820302411; 3259730800; 3345764771;
    3516065817; 3600352804; 4094571909; 275423344;
    430227734; 506948616; 659060556; 883997877;
    958139571; 1322822218; 1537002063; 1747873779;
    1955562222; 2024104815; 2227730452; 2361852424;
    2428436474; 2756734187; 3204031479; 3329325298 ].

(** The initial state: the first 32 bits of the fractional parts of the
    square roots of the first 8 primes. *)
Definition init : list Z :=
  [ 1779033703; 3144134277; 1013904242; 2773480762;
    1359893119; 2600822924; 528734635; 1541459225 ].

(** The [n] low bytes of a number, most significant first. *)
Fixpoint be_bytes (n : nat) (x : Z) : list byte :=
  match n with
  | O => []
  | S n' => z2b (Z.shiftr x (8 * Z.of_nat n')) :: be_bytes n' x
  end.

Definition be_word (bs : list byte) : Z :=
  fold_left (fun acc b => acc * 256 + b2z b) bs 0.

(** The words of a block. *)
Fixpoint words (n : nat) (bs : list byte) : list Z :=
  match n with
  | O => []
  | S n' => be_word (firstn 4 bs) :: words n' (skipn 4 bs)
  end.

(** The message schedule, newest word first. *)
Fixpoint schedule (n : nat) (w : list Z) : list Z :=
  match n with
  | O => w
  | S n' =>
    let x := add32 (add32 (sigma1 (nth 1 w 0)) (nth 6 w 0))
                   (add32 (sigma0 (nth 14 w 0)) (nth 15 w 0)) in
    schedule n' (x :: w)
  end.

Definition round (st : list Z) (kw : Z * Z) : list Z :=
  match st with
  | [a; b; c; d; e; f; g; h] =>
    let t1 := add32 (add32 (add32 (add32 h (Sigma1 e)) (Ch e f g)) (fst kw))
                    (snd kw) in
    let t2 := add32 (Sigma0 a) (Maj a b c) in
    [add32 t1 t2; a; b; c; add32 d t1; e; f; g]
  | _ => st
  end.

(** One block of 64 bytes is folded into the state. *)
Definition block1 (st : list Z) (bs : list byte) : list Z :=
  let w := rev (schedule 48 (rev (words 16 bs))) in
  let st' := fold_left round (combine K w) st in
  map (fun p => add32 (fst p) (snd p)) (combine st st').

(** [block]: the first [n] blocks of [bs] are folded into the state. *)
Fixpoint blocks (n : nat) (st : list Z) (bs : list byte) : list Z :=
  match n with
  | O => st
  | S n' => blocks n' (block1 st (firstn chunk bs)) (skipn chunk bs)
  end.

(** The padding of a message of [len] bytes: a one bit, zeros up to 56
    modulo 64, and the length in bits on eight bytes. *)
Definition padding (len : Z) : list byte :=
  x80 :: repeat x00 (Z.to_nat ((55 - len) mod 64))
      ++ be_bytes 8 (wrap64 (8 * len)).

(** [sha256.Sum256] as FIPS 180-4 defines it: the digest of a whole
    message. *)
Definition Sum256 (msg : list byte) : list byte :=
  let p := msg ++ padding (Z.of_nat (length msg)) in
  flat_map (be_bytes 4) (blocks (length p / chunk) init p).

(** The streaming [digest] behind [sha256.New()]: the state [h], the
    bytes [x] of an incomplete block and the number [len] of bytes
    written, a [uint64]. *)
Record digest := mkDigest { h : list Z; x : list byte; len : Z }.

Definition New : digest := {| h := init; x := []; len := 0 |}.

(** The three steps of [digest.Write].  First the pending block is
    completed from [p], and folded in when it is whole. *)
Definition fill (h : list Z) (x p : list byte) : list Z * list byte * list byte :=
  if (0 <? length x)%nat then
    let n := Nat.min (chunk - length x) (length p) in
    let x' := x ++ firstn n p in
    if (length x' =? chunk)%nat
    then (block1 h x', [], skipn n p)
    else (h, x', skipn n p)
  else (h, x, p).

(** Then the whole blocks of what is left are folded in. *)
Definition bulk (h : list Z) (p : list byte) : list Z * list byte :=
  if (chunk <=? length p)%nat then
    let n := (length p / chunk * chunk)%nat in
    (blocks (length p / chunk) h (firstn n p), skipn n p)
  else (h, p).

(** At last the rest, if any, becomes the pending block. *)
Definition stash (x p : list byte) : list byte :=
  if (0 <? length p)%nat then p else x.

(** [digest.Write]. *)
Definition Write (d : digest) (p : list byte) : digest :=
  let len' := wrap64 (len d + Z.of_nat (length p)) in
  let '(h1, x1, p1) := fill (h d) (x d) p in
  let '(h2, p2) := bulk h1 p1 in
  {| h := h2; x := stash x1 p2; len := len' |}.

(** [digest.Sum(nil)]: pad a copy of the digest and read the state. *)
Definition Sum (d : digest) : list byte :=
  let d' := Write d (padding (len d)) in
  flat_map (be_bytes 4) (h d').

End Sha256.

(** ** fmt: the [%x] verb on a byte slice *)

Definition hexdigit (n : Z) : byte :=
  nth (Z.to_nat n) (lit "0123456789abcdef") x00.

Definition Sprintf_x (bs : list byte) : gostring :=
  flat_map (fun b => [hexdigit (b2z b / 16); hexdigit (b2z b mod 16)]) bs.


(** ** strconv and fmt: numbers as text *)

Definition digit (n : Z) : byte := z2b (48 + n).

(** The decimal digits of [n] in front of [acc], most significant
    first. *)
Fixpoint digits_loop (fuel : nat) (n : Z) (acc : gostring) : gostring :=
  match fuel with
  | O => acc
  | S fuel' =>
    let acc' := digit (n mod 10) :: acc in
    if n <? 10 then acc' else digits_loop fuel' (n / 10) acc'
  end.

(** [strconv.Itoa] on a number that is not negative.  A number has no
    more decimal digits than binary ones. *)
Definition decimal (n : Z) : gostring :=
  digits_loop (S (Z.to_nat (Z.log2 n))) n [].

(** [appendInt] of package time: at least [width] digits, zero-padded,
    with a sign in front of a negative number. *)
Definition appendInt (x : Z) (width : nat) : gostring :=
  let ds := decimal (Z.abs x) in
  (if x <? 0 then lit "-" else [])
    ++ repeat "0"%byte (width - length ds) ++ ds.

(** A finite [float64] as the exact dyadic rational [num / 2^scale].
    Only the three operations of [writeToCsv] are modelled, each of them
    without rounding error except the conversion of a large integer. *)
Module Float64.

Record t : Type := mk { num : Z; scale : Z }.

(** [p / q] rounded to the nearest integer, ties to even; [0 <= p] and
    [0 < q]. *)
Definition round_half_even (p q : Z) : Z :=
  let d := p / q in
  let r := p mod q in
  if (q <? 2 * r) || ((q =? 2 * r) && Z.odd d) then d + 1 else d.

(** The conversion [float64(n)] of an [int64]: exact up to 53 bits,
    beyond that rounded to 53 significant bits, ties to even. *)
Definition of_int64 (n : Z) : t :=
  let a := Z.abs n in
  let e := Z.log2 a - 52 in
  if e <=? 0 then {| num := n; scale := 0 |}
  else {| num := Z.sgn n * (round_half_even a (2 ^ e) * 2 ^ e); scale := 0 |}.

(** The division by [1048576.0], a power of two: only the exponent
    changes, and no quotient of an [int64] underflows. *)
Definition div_1048576 (x : t) : t :=
  {| num := num x; scale := scale x + 20 |}.

(** The value in hundredths, rounded as [strconv] rounds a decimal
    expansion: to the nearest, an exact tie to even. *)
Definition hundredths (x : t) : Z :=
  round_half_even (Z.abs (num x) * 100) (2 ^ scale x).

(** [fmt.Sprintf("%.2f", x)]. *)
Definition Sprintf_2f (x : t) : gostring :=
  let h := hundredths x in
  (if num x <? 0 then lit "-" else [])
    ++ decimal (h / 100) ++ lit "."
    ++ [digit (h / 10 mod 10); digit (h mod 10)].

End Float64.


(** ** Errors *)

(** An error value: the two sentinels that [filepath.WalkDir] compares
    with, and any other error by its message. *)
Inductive GoError : Type :=
| SkipDir
| SkipAll
| Err (msg : gostring).

(** [err.Error()]. *)
Definition Error (e : GoError) : gostring :=
  match e with
  | SkipDir => lit "skip this directory"
  | SkipAll => lit "skip everything and stop the walk"
  | Err msg => msg
  end.

(** [err == fs.SkipDir]. *)
Definition is_SkipDir (e : GoError) : bool :=
  match e with SkipDir => true | _ => false end.

Definition is_SkipAll (e : GoError) : bool :=
  match e with SkipAll => true | _ => false end.

(** [fmt.Errorf(prefix + "%w", err)]: a new error that wraps [err]. *)
Definition Errorf_w (prefix : gostring) (e : GoError) : GoError :=
  Err (prefix ++ Error e).

(** ** The operating system *)

(** What a reader of an opened file delivers: the bytes that can be read,
    and then the end of the file or a read error. *)
Record Stream : Type := mkStream {
  bytes : list byte;
  failure : option gostring
}.

(** [fs.FileInfo], what [os.Stat] returns. *)
Record FileInfo : Type := mkFileInfo {
  fi_Name : gostring;
  fi_Size : Z;
  fi_IsDir : bool
}.

(** A directory tree as [filepath.WalkDir] sees it.  Every entry carries
    the path under which the walk presents it; a directory has the error
    of [os.ReadDir], if any, and the entries that [os.ReadDir] returned,
    in its order. *)
#[warnings="-register-all"] Inductive Entry : Type :=
| NonDir (path : gostring)
| Dir (path : gostring) (readdir_err : option gostring) (entries : list Entry).

(** What [os.Lstat] finds at the root of a walk. *)
Inductive Root : Type :=
| RootError (msg : gostring)
| RootEntry (e : Entry).

(** A date and time of the local clock. *)
Record Time : Type := mkTime {
  year : Z; month : Z; day : Z; hour : Z; minute : Z; second : Z
}.

(** The answers of the operating system to the calls of the program.  An
    error is given by its message. *)
Record Env : Type := mkEnv {
  Getwd : gostring + gostring;               (* error or directory *)
  Stat : gostring -> gostring + FileInfo;    (* error or info *)
  Lstat_tree : gostring -> Root;             (* the tree under a walk root *)
  Open : gostring -> gostring + Stream;      (* error or reader *)
  Now : Time;
  Create_err : gostring -> option gostring;  (* os.Create fails on a name *)
  capacity : option nat;     (* bytes the output file accepts; none: no limit *)
  write_err : gostring;      (* the error of a write beyond the capacity *)
  Abs : gostring -> gostring + gostring      (* error or absolute path *)
}.

(** The part of the world that the program changes: the two standard
    streams and the files it creates, the newest binding of a name
    first. *)
Record State : Type := mkState {
  stdout : gostring;
  stderr : gostring;
  files : list (gostring * list byte)
}.

Definition printToStdOut (s : gostring) (st : State) : State :=
  {| stdout := stdout st ++ s; stderr := stderr st; files := files st |}.

Definition printToStdErr (err : GoError) (st : State) : State :=
  {| stdout := stdout st;
     stderr := stderr st ++ lit "Error: " ++ Error err ++ newline;
     files := files st |}.

(** [time.Now().Format("20060102_150405")]. *)
Definition Time_Format (t : Time) : gostring :=
  appendInt (year t) 4 ++ appendInt (month t) 2 ++ appendInt (day t) 2
    ++ lit "_"
    ++ appendInt (hour t) 2 ++ appendInt (minute t) 2 ++ appendInt (second t) 2.

(** [os.Create]: the file is created or truncated; it is the newest
    binding of [files] for as long as it is written. *)
Definition os_Create (env : Env) (name : gostring) (st : State)
  : State * option GoError :=
  match Create_err env name with
  | Some msg => (st, Some (Err msg))
  | None =>
    ({| stdout := stdout st; stderr := stderr st;
        files := (name, []) :: files st |}, None)
  end.

(** [file.Write] on the file that was created last: the bytes are
    appended as far as the capacity of the device allows, and a write
    that does not fit fails after the part that does. *)
Definition File_Write (env : Env) (b : list byte) (st : State)
  : State * nat * option GoError :=
  match files st with
  | [] => (st, 0%nat, Some (Err (lit "file already closed")))
  | (name, content) :: older =>
    let room :=
      match capacity env with
      | None => length b
      | Some cap => (cap - length content)%nat
      end in
    if (length b <=? room)%nat then
      ({| stdout := stdout st; stderr := stderr st;
          files := (name, content ++ b) :: older |}, length b, None)
    else
      ({| stdout := stdout st; stderr := stderr st;
          files := (name, content ++ firstn room b) :: older |},
       room, Some (Err (write_err env)))
  end.

(** ** bufio *)
Module Bufio.

Definition defaultBufSize : nat := 4096.

(** A [bufio.Writer] on the output file: the buffered bytes and the
    sticky error. *)
Record Writer : Type := mkWriter { buf : list byte; err : option GoError }.

Definition NewWriter : Writer := {| buf := []; err := None |}.

Definition Available (b : Writer) : nat := (defaultBufSize - length (buf b))%nat.
Definition Buffered (b : Writer) : nat := length (buf b).

(** [Flush]. *)
Definition Flush (env : Env) (s : Writer * State)
  : (Writer * State) * option GoError :=
  let '(b, st) := s in
  match err b with
  | Some e => (s, Some e)
  | None =>
    if (length (buf b) =? 0)%nat then (s, None)
    else
      let '(st', n, e) := File_Write env (buf b) st in
      match e with
      | Some e => (({| buf := skipn n (buf b); err := Some e |}, st'), Some e)
      | None => (({| buf := []; err := None |}, st'), None)
      end
  end.

(** [WriteByte]. *)
Definition WriteByte (env : Env) (c : byte) (s : Writer * State)
  : (Writer * State) * option GoError :=
  let '(b, st) := s in
  match err b with
  | Some e => (s, Some e)
  | None =>
    let '((b1, st1), e) :=
      if (Available b <=? 0)%nat then Flush env s else (s, None) in
    match e with
    | Some e => ((b1, st1), err b1)
    | None => (({| buf := buf b1 ++ [c]; err := err b1 |}, st1), None)
    end
  end.

Definition isNone {A} (o : option A) : bool :=
  match o with None => true | Some _ => false end.

(** The loop of [WriteString]: while the string does not fit and no
    error is pending, either hand it to the file as it is (the buffer
    is empty and the file can write strings) or fill the buffer and
    flush it. *)
Fixpoint writeStringLoop (fuel : nat) (env : Env) (s : gostring)
         (bs : Writer * State) : gostring * (Writer * State) :=
  match fuel with
  | O => (s, bs)
  | S fuel' =>
    let '(b, st) := bs in
    if (Available b <? length s)%nat && isNone (err b) then
      if (Buffered b =? 0)%nat then
        let '(st', n, e) := File_Write env s st in
        writeStringLoop fuel' env (skipn n s)
                        ({| buf := buf b; err := e |}, st')
      else
        let n := Available b in
        let b' := {| buf := buf b ++ firstn n s; err := err b |} in
        let '(bs', _) := Flush env (b', st) in
        writeStringLoop fuel' env (skipn n s) bs'
    else (s, bs)
  end.

(** [WriteString].  The loop runs twice at most: a flush empties the
    buffer, and the direct write that may follow takes all the rest. *)
Definition WriteString (env : Env) (s : gostring) (bs : Writer * State)
  : (Writer * State) * option GoError :=
  let '(s', (b, st)) := writeStringLoop 2 env s bs in
  match err b with
  | Some e => ((b, st), Some e)
  | None =>
    let n := Nat.min (Available b) (length s') in
    (({| buf := buf b ++ firstn n s'; err := None |}, st), None)
  end.

(** A call of one of the two writing methods. *)
Inductive Call : Type :=
| CallWriteByte (c : byte)
| CallWriteString (s : gostring).

Definition call (env : Env) (c : Call) : Writer * State -> (Writer * State) * option GoError :=
  match c with
  | CallWriteByte c => WriteByte env c
  | CallWriteString s => WriteString env s
  end.

(** The bytes that a call hands over. *)
Definition payload (c : Call) : list byte :=
  match c with
  | CallWriteByte c => [c]
  | CallWriteString s => s
  end.

(** Calls in sequence, up to the first one that returns an error. *)
Fixpoint calls (env : Env) (cs : list Call) (bs : Writer * State)
  : (Writer * State) * option GoError :=
  match cs with
  | [] => (bs, None)
  | c :: cs' =>
    let '(bs1, e) := call env c bs in
    match e with
    | Some e => (bs1, Some e)
    | None => calls env cs' bs1
    end
  end.

End Bufio.

(** ** encoding/csv *)
Module Csv.

Definition Comma : byte := ","%byte.

Definition is_special (c : byte) : bool :=
  Byte.eqb c x0a || Byte.eqb c x0d || Byte.eqb c x22.

(** [fieldNeedsQuotes]. *)
Definition fieldNeedsQuotes (field : gostring) : bool :=
  match field with
  | [] => false
  | _ :: _ =>
    if gostring_eqb field (lit "\.") then true
    else if existsb (fun c => is_special c || Byte.eqb c Comma) field then true
    else Unicode.IsSpace (fst (Utf8.DecodeRuneInString field))
  end.

(** The index of the first quote, carriage return or line feed of a
    field, or its length. *)
Fixpoint index_special (field : gostring) : nat :=
  match field with
  | [] => 0
  | c :: field' => if is_special c then 0 else S (index_special field')
  end.

(** The loop that writes a quoted field: the stretch before the next
    special byte as it is, then the special byte, a quote doubled. *)
Fixpoint quoted_loop (fuel : nat) (field : gostring) : list Bufio.Call :=
  match fuel with
  | O => []
  | S fuel' =>
    match field with
    | [] => []
    | _ :: _ =>
      let i := index_special field in
      Bufio.CallWriteString (firstn i field)
        :: match skipn i field with
           | [] => []
           | c :: rest =>
             (if Byte.eqb c x22
              then Bufio.CallWriteString [c; c]
              else Bufio.CallWriteByte c)
               :: quoted_loop fuel' rest
           end
    end
  end.

Definition field_calls (field : gostring) : list Bufio.Call :=
  if negb (fieldNeedsQuotes field) then [Bufio.CallWriteString field]
  else Bufio.CallWriteByte x22
         :: quoted_loop (length field) field
         ++ [Bufio.CallWriteByte x22].

(** The calls of [Writer.Write] on a record: the fields with a comma
    in front of each but the first, and a line feed. *)
Fixpoint fields_calls (n : nat) (record : list gostring) : list Bufio.Call :=
  match record with
  | [] => []
  | field :: record' =>
    (if (0 <? n)%nat then [Bufio.CallWriteByte Comma] else [])
      ++ field_calls field ++ fields_calls (S n) record'
  end.

Definition record_calls (record : list gostring) : list Bufio.Call :=
  fields_calls 0 record ++ [Bufio.CallWriteByte x0a].

(** [Writer.Write]. *)
Definition Write (env : Env) (record : list gostring)
  : Bufio.Writer * State -> (Bufio.Writer * State) * option GoError :=
  Bufio.calls env (record_calls record).

(** The text of a record in the file. *)
Definition encode (record : list gostring) : list byte :=
  flat_map Bufio.payload (record_calls record).

End Csv.


(** ** io *)
Module Io.

(** The result of one [Read]. *)
Inductive ReadErr : Type := ReadOk | EOF | ReadFail (msg : gostring).

(** [Read] on a file of which [rest] is still unread, into a buffer of
    [n] bytes: as many bytes as fit while there are any, then the end
    of the file or the read error. *)
Definition Read (failure : option gostring) (rest : list byte) (n : N)
  : list byte * ReadErr :=
  match rest with
  | _ :: _ => (take n rest, ReadOk)
  | [] => ([], match failure with
               | None => EOF
               | Some msg => ReadFail msg
               end)
  end.

(** The loop of [io.CopyBuffer] from a file into a SHA-256 digest,
    whose [Write] never fails and never writes short.  [None] when the
    fuel runs out. *)
Fixpoint copyLoop (fuel : nat) (buflen : N) (failure : option gostring)
         (rest : list byte) (dst : Sha256.digest) (written : Z)
  : option (Sha256.digest * Z * option GoError) :=
  match fuel with
  | O => None
  | S fuel' =>
    let '(buf, er) := Read failure rest buflen in
    let nr := length buf in
    let '(dst1, written1) :=
      if (0 <? nr)%nat
      then (Sha256.Write dst buf, written + Z.of_nat nr)
      else (dst, written) in
    match er with
    | ReadOk => copyLoop fuel' buflen failure (skipn nr rest) dst1 written1
    | EOF => Some (dst1, written1, None)
    | ReadFail msg => Some (dst1, written1, Some (Err msg))
    end
  end.

(** [io.CopyBuffer(dst, src, buf)].  A read of a non-empty file returns
    at least one byte, so one more iteration than there are bytes is
    enough. *)
Definition CopyBuffer (dst : Sha256.digest) (src : Stream) (buflen : N)
  : Sha256.digest * Z * option GoError :=
  match copyLoop (S (length (bytes src))) buflen (failure src)
                 (bytes src) dst 0 with
  | Some r => r
  | None => (dst, 0, Some (Err (lit "io: copy did not terminate")))
  end.

End Io.

(** ** path/filepath: WalkDir *)
Section WalkDir.

Context {S : Type}.

(** The [fs.WalkDirFunc]: the path, whether the entry is a directory,
    the error of the walk if any, and the state that the closure
    captures. *)
Variable fn : gostring -> bool -> option GoError -> S -> S * option GoError.

(** [SkipDir] from a directory only skips it. *)
Definition skip_dir (err : GoError) : option GoError :=
  if is_SkipDir err then None else Some err.

(** [filepath.walkDir]. *)
Fixpoint walkDir (e : Entry) (st : S) {struct e} : S * option GoError :=
  match e with
  | NonDir path => fn path false None st
  | Dir path readdir_err entries =>
    let '(st1, err) := fn path true None st in
    match err with
    | Some err => (st1, skip_dir err)
    | None =>
      let '(st2, err) :=
        match readdir_err with
        | Some msg => fn path true (Some (Err msg)) st1
        | None => (st1, None)
        end in
      match err with
      | Some err => (st2, skip_dir err)
      | None =>
        (fix walkEntries (dirs : list Entry) (st : S) {struct dirs}
           : S * option GoError :=
           match dirs with
           | [] => (st, None)
           | d1 :: dirs' =>
             let '(st', err) := walkDir d1 st in
             match err with
             | Some err => (st', skip_dir err)
             | None => walkEntries dirs' st'
             end
           end) entries st2
      end
    end
  end.

(** The loop of [walkDir] over the entries of a directory, by its own
    name. *)
Fixpoint walkEntries (dirs : list Entry) (st : S) {struct dirs}
  : S * option GoError :=
  match dirs with
  | [] => (st, None)
  | d1 :: dirs' =>
    let '(st', err) := walkDir d1 st in
    match err with
    | Some err => (st', skip_dir err)
    | None => walkEntries dirs' st'
    end
  end.

(** [filepath.WalkDir]. *)
Definition WalkDir (env : Env) (root : gostring) (st : S) : S * option GoError :=
  let '(st', err) :=
    match Lstat_tree env root with
    | RootError msg => fn root false (Some (Err msg)) st
    | RootEntry e => walkDir e st
    end in
  match err with
  | Some err => (st', if is_SkipDir err || is_SkipAll err then None else Some err)
  | None => (st', None)
  end.

End WalkDir.

(** ** main.go: the extension filter *)

Definition isEmpty (s : gostring) : bool :=
  match s with [] => true | _ :: _ => false end.

(** The body of the inner loop of [formatExtensions]. *)
Definition formatExtensions_step (formattedExts : list gostring) (splitExt : gostring)
  : list gostring :=
  let splitExt := Strings.TrimSpace splitExt in
  if isEmpty splitExt then formattedExts
  else
    let splitExt :=
      if negb (Strings.HasPrefix splitExt (lit "."))
      then lit "." ++ splitExt else splitExt in
    formattedExts ++ [splitExt].

Definition formatExtensions (rawExts : list gostring) : list gostring :=
  fold_left
    (fun formattedExts ext =>
       fold_left formatExtensions_step (Strings.Split ext ","%byte) formattedExts)
    rawExts [].

Definition matchesExtension (path : gostring) (exts : list gostring) : bool :=
  match exts with
  | [] => true
  | _ :: _ =>
    let ext := Filepath.Ext path in
    existsb (fun e => gostring_eqb ext e) exts
  end.

(** ** main.go: hashing and scanning *)

Record HashedFileInfo : Type := mkHashedFileInfo {
  Name : gostring;
  Path : gostring;
  Size : Z;
  Hash : gostring
}.

Definition hashFile (env : Env) (path : gostring) : gostring * option GoError :=
  match Open env path with
  | inl msg => ([], Some (Err msg))
  | inr file =>
    let hash := Sha256.New in
    let buflen := (1024 * 1024)%N in
    let '(hash, _, err) := Io.CopyBuffer hash file buflen in
    match err with
    | Some err => ([], Some err)
    | None => (Sprintf_x (Sha256.Sum hash), None)
    end
  end.

(** The closure that [processFiles] hands to [filepath.WalkDir]; it
    captures [exts] and the slice [files], and it prints. *)
Definition processFiles_visit (env : Env) (exts : list gostring)
           (path : gostring) (d_IsDir : bool) (err : option GoError)
           (s : State * list HashedFileInfo)
  : (State * list HashedFileInfo) * option GoError :=
  let '(st, files) := s in
  match err with
  | Some err => (s, Some err)
  | None =>
    if d_IsDir then (s, None)
    else if matchesExtension path exts then
      let st := printToStdOut (lit "Processing: " ++ path ++ newline) st in
      let '(hash, err) := hashFile env path in
      match err with
      | Some err =>
        ((st, files),
         Some (Errorf_w (lit "failed to hash file " ++ path ++ lit ": ") err))
      | None =>
        match Stat env path with
        | inl msg =>
          ((st, files),
           Some (Errorf_w (lit "failed to get file stats for " ++ path ++ lit ": ")
                          (Err msg)))
        | inr info =>
          let fileInfo := {| Name := fi_Name info;
                             Size := fi_Size info;
                             Hash := hash;
                             Path := path |} in
          ((st, files ++ [fileInfo]), None)
        end
      end
    else (s, None)
  end.

Definition processFiles (env : Env) (folderPath : gostring) (exts : list gostring)
           (st : State) : State * (list HashedFileInfo * option GoError) :=
  let st := printToStdOut (lit "Scanning folder: " ++ folderPath ++ newline) st in
  let st :=
    match exts with
    | _ :: _ =>
      printToStdOut (lit "Filtering by extensions: "
                         ++ Strings.Join exts (lit ", ") ++ newline) st
    | [] => printToStdOut (lit "Processing all file types" ++ newline) st
    end in
  let '((st, files), err) :=
    WalkDir (processFiles_visit env exts) env folderPath (st, []) in
  match err with
  | Some err => (st, ([], Some err))
  | None => (st, (files, None))
  end.


(** ** main.go: the report *)

Definition csv_header : list gostring :=
  [lit "Name"; lit "Path"; lit "Size (MB)"; lit "Hash"].

(** The record that the loop of [writeToCsv] writes for one file. *)
Definition csv_row (hashedFileInfo : HashedFileInfo) : list gostring :=
  let sizeInMB := Float64.div_1048576 (Float64.of_int64 (Size hashedFileInfo)) in
  [ Name hashedFileInfo;
    Path hashedFileInfo;
    Float64.Sprintf_2f sizeInMB;
    Hash hashedFileInfo ].

(** The loop over the records, left at the first write that fails. *)
Fixpoint writeToCsv_rows (env : Env) (hashedFilesInfo : list HashedFileInfo)
         (ws : Bufio.Writer * State) : (Bufio.Writer * State) * option GoError :=
  match hashedFilesInfo with
  | [] => (ws, None)
  | hashedFileInfo :: rest =>
    let '(ws, err) := Csv.Write env (csv_row hashedFileInfo) ws in
    match err with
    | Some err =>
      (ws, Some (Errorf_w (lit "failed to write content to CSV: ") err))
    | None => writeToCsv_rows env rest ws
    end
  end.

Definition outputFilename (env : Env) : gostring :=
  let timestamp := Time_Format (Now env) in
  lit "hash_results_" ++ timestamp ++ lit ".csv".

(** The two deferred calls, [writer.Flush()] and [file.Close()]: they run
    on every return after their [defer], and what [Flush] returns is not
    looked at.  The writer that is left is returned with the state, for
    the properties to speak of [writer.Error()]. *)
Definition writeToCsv_deferred (env : Env) (ws : Bufio.Writer * State)
  : Bufio.Writer * State :=
  fst (Bufio.Flush env ws).

(** [writeToCsv], with the writer it leaves behind. *)
Definition writeToCsv_writer (env : Env) (hashedFilesInfo : list HashedFileInfo)
           (st : State) : (Bufio.Writer * State) * option GoError :=
  let '(st, err) := os_Create env (outputFilename env) st in
  match err with
  | Some err =>
    ((Bufio.NewWriter, st),
     Some (Errorf_w (lit "failed to create CSV file: ") err))
  | None =>
    let writer := Bufio.NewWriter in
    let '(ws, err) := Csv.Write env csv_header (writer, st) in
    match err with
    | Some err =>
      (writeToCsv_deferred env ws,
       Some (Errorf_w (lit "failed to write header to CSV: ") err))
    | None =>
      let '(ws, err) := writeToCsv_rows env hashedFilesInfo ws in
      match err with
      | Some err => (writeToCsv_deferred env ws, Some err)
      | None =>
        let absPath :=
          match Abs env (outputFilename env) with
          | inl _ => outputFilename env
          | inr absPath => absPath
          end in
        let '(writer, st) := ws in
        let st := printToStdOut (lit "Output written to: " ++ absPath ++ newline) st in
        (writeToCsv_deferred env (writer, st), None)
      end
    end
  end.

Definition writeToCsv (env : Env) (hashedFilesInfo : list HashedFileInfo)
           (st : State) : State * option GoError :=
  let '((_, st), err) := writeToCsv_writer env hashedFilesInfo st in
  (st, err).

(** ** main.go: the command *)

Definition validateDirectory (env : Env) (path : gostring)
  : gostring * option GoError :=
  match Stat env path with
  | inl msg => ([], Some (Errorf_w (lit "directory not accessible: ") (Err msg)))
  | inr info =>
    if negb (fi_IsDir info)
    then ([], Some (Err (lit "path is not a directory: " ++ path)))
    else (path, None)
  end.

Definition getFolderPath (env : Env) (args : list gostring)
  : gostring * option GoError :=
  match args with
  | arg0 :: _ => validateDirectory env arg0
  | [] =>
    match Getwd env with
    | inl msg => ([], Some (Err msg))
    | inr currentDir => (currentDir, None)
    end
  end.

(** The [RunE] of [rootCmd]; [extensions] is the package variable that
    the flag [--ext] fills. *)
Definition RunE (env : Env) (extensions : list gostring) (args : list gostring)
           (st : State) : State * option GoError :=
  let '(folderPath, err) := getFolderPath env args in
  match err with
  | Some err => (st, Some err)
  | None =>
    let formattedExtensions := formatExtensions extensions in
    let '(st, (hashedFilesInfo, err)) :=
      processFiles env folderPath formattedExtensions st in
    match err with
    | Some err => (st, Some err)
    | None =>
      let '(st, err) := writeToCsv env hashedFilesInfo st in
      match err with
      | Some err => (st, Some err)
      | None => (st, None)
      end
    end
  end.

(** [cobra.MaximumNArgs(1)]. *)
Definition MaximumNArgs (n : nat) (args : list gostring) : option GoError :=
  if (n <? length args)%nat then
    Some (Err (lit "accepts at most " ++ decimal (Z.of_nat n)
                   ++ lit " arg(s), received "
                   ++ decimal (Z.of_nat (length args))))
  else None.

(** [rootCmd.Execute()] on the positional arguments and the flag values
    that cobra parsed: the arguments are validated, [RunE] runs, and
    cobra itself reports an error and the usage text on standard error
    before it returns the error. *)
Definition Execute (usage : gostring) (env : Env) (extensions args : list gostring)
           (st : State) : State * option GoError :=
  let '(st, err) :=
    match MaximumNArgs 1 args with
    | Some err => (st, Some err)
    | None => RunE env extensions args st
    end in
  match err with
  | Some err =>
    ({| stdout := stdout st;
        stderr := stderr st ++ lit "Error: " ++ Error err ++ newline
                         ++ usage ++ newline;
        files := files st |}, Some err)
  | None => (st, None)
  end.

(** [main]: the state it leaves and the exit status of the process.
    [main] calls [os.Exit] nowhere and returns on every path, so the
    status is that of a program whose [main] returns. *)
Definition main (usage : gostring) (env : Env) (extensions args : list gostring)
           (st : State) : State * Z :=
  let '(st, err) := Execute usage env extensions args st in
  let st :=
    match err with
    | Some err => printToStdErr err st
    | None => st
    end in
  (st, 0).


(** ** The specification's wording of the extension filter *)

(** "prepend [.] if not already present". *)
Definition add_dot (t : gostring) : gostring :=
  if Strings.HasPrefix t (lit ".") then t else lit "." ++ t.

(** The Extension Normalizer as section 4.1 words it: every token is
    split on commas, every sub-token is trimmed, the empty ones are
    skipped and the others get their dot; order and duplicates are kept. *)
Definition normalize_spec (raw : list gostring) : list gostring :=
  map add_dot
      (filter (fun t => negb (isEmpty t))
              (map Strings.TrimSpace
                   (flat_map (fun tok => Strings.Split tok ","%byte) raw))).

(** What one sub-token contributes to the result. *)
Definition normalize1 (splitExt : gostring) : list gostring :=
  let t := Strings.TrimSpace splitExt in
  if isEmpty t then [] else [add_dot t].

(** A canonical extension: a dot followed by anything, without comma and
    without white space at either end.  [formatExtensions] leaves a list
    of such strings as it is, and returns only such strings. *)
Definition canonical (e : gostring) : Prop :=
  (exists t, e = "."%byte :: t)
  /\ ~ In ","%byte e
  /\ Unicode.IsSpace (fst (Utf8.DecodeLastRuneInString e)) = false.

(** The index of the last byte of [s] that satisfies [p]. *)
Fixpoint last_index (p : byte -> bool) (s : gostring) : option nat :=
  match s with
  | [] => None
  | c :: s' =>
    match last_index p s' with
    | Some i => Some (S i)
    | None => if p c then Some 0%nat else None
    end
  end.

(** The final element of a path: what follows its last separator. *)
Definition base_name (path : gostring) : gostring :=
  match last_index Filepath.IsPathSeparator path with
  | Some i => skipn (S i) path
  | None => path
  end.

Definition is_dot (c : byte) : bool := Byte.eqb c "."%byte.

(** The extension as section 4.3 words it: "the substring from the last
    [.] in the base name to the end, or empty if none". *)
Definition extension_spec (path : gostring) : gostring :=
  let base := base_name path in
  match last_index is_dot base with
  | Some i => skipn i base
  | None => []
  end.

(** What a digest has absorbed: [data] is a number of whole blocks, which
    are folded into [h], followed by the pending bytes [x]. *)
Definition absorbed (d : Sha256.digest) (data : list byte) : Prop :=
  exists (full : list byte) (k : nat),
    data = full ++ Sha256.x d
    /\ length full = (k * Sha256.chunk)%nat
    /\ (length (Sha256.x d) < Sha256.chunk)%nat
    /\ Sha256.h d = Sha256.blocks k Sha256.init full
    /\ Sha256.len d = Sha256.wrap64 (Z.of_nat (length data)).

(** A lowercase hexadecimal digit. *)
Definition is_lower_hex (c : byte) : bool :=
  existsb (Byte.eqb c) (lit "0123456789abcdef").

(** The file at [path] cannot be opened, or reading it fails. *)
Definition cannot_hash (env : Env) (path : gostring) : bool :=
  match Open env path with
  | inl _ => true
  | inr file => match failure file with Some _ => true | None => false end
  end.

Definition cannot_stat (env : Env) (path : gostring) : bool :=
  match Stat env path with inl _ => true | inr _ => false end.

(** An error occurs somewhere in a tree: a directory cannot be read, or a
    file that passes the filter cannot be opened, read to its end or
    statted. *)
Fixpoint has_failure (env : Env) (exts : list gostring) (e : Entry) : bool :=
  match e with
  | NonDir path =>
    matchesExtension path exts && (cannot_hash env path || cannot_stat env path)
  | Dir _ (Some _) _ => true
  | Dir _ None entries => existsb (has_failure env exts) entries
  end.

Definition walk_fails (env : Env) (exts : list gostring) (root : gostring) : bool :=
  match Lstat_tree env root with
  | RootError _ => true
  | RootEntry e => has_failure env exts e
  end.

(** The entries of a directory up to the first one with a failure. *)
Definition prune_entries (env : Env) (exts : list gostring)
           (prune : Entry -> Entry) : list Entry -> list Entry :=
  fix prune_entries (dirs : list Entry) : list Entry :=
    match dirs with
    | [] => []
    | d1 :: dirs' =>
      if has_failure env exts d1 then [prune d1]
      else d1 :: prune_entries dirs'
    end.

(** A tree up to its first failure: what follows the first entry with a
    failure is cut off. *)
Fixpoint prune (env : Env) (exts : list gostring) (e : Entry) : Entry :=
  match e with
  | NonDir path => NonDir path
  | Dir path (Some msg) _ => Dir path (Some msg) []
  | Dir path None entries =>
    Dir path None (prune_entries env exts (prune env exts) entries)
  end.


(** The device has room for a file of these bytes. *)
Definition fits (env : Env) (content : list byte) : Prop :=
  match capacity env with
  | None => True
  | Some cap => (length content <= cap)%nat
  end.

(** A writer without pending error on the open file [name], such that
    the bytes in the file followed by those in the buffer are
    [logical]. *)
Definition writing (bs : Bufio.Writer * State) (name : gostring)
           (older : list (gostring * list byte)) (logical : list byte) : Prop :=
  Bufio.err (fst bs) = None
  /\ (length (Bufio.buf (fst bs)) <= Bufio.defaultBufSize)%nat
  /\ exists content,
      files (snd bs) = (name, content) :: older
      /\ content ++ Bufio.buf (fst bs) = logical.

(** [st'] differs from [st] in the content of the open file at most. *)
Definition same_but_content (st st' : State) : Prop :=
  stdout st' = stdout st /\ stderr st' = stderr st
  /\ match files st with
     | [] => files st' = []
     | (name, _) :: older => exists content', files st' = (name, content') :: older
     end.

(** The text of a whole report. *)
Definition report (hashedFilesInfo : list HashedFileInfo) : list byte :=
  Csv.encode csv_header ++ flat_map (fun r => Csv.encode (csv_row r)) hashedFilesInfo.


(** ** Reading decimal text *)

Definition is_digit (c : byte) : bool := (48 <=? b2z c) && (b2z c <=? 57).

(** The number that a string of decimal digits denotes. *)
Definition dec_value (ds : gostring) : Z :=
  fold_left (fun a c => a * 10 + (b2z c - 48)) ds 0.


(** What the device takes of the bytes of a file. *)
Definition accepted (env : Env) (content : list byte) : list byte :=
  match capacity env with
  | None => content
  | Some cap => firstn cap content
  end.

(** How a failed run leaves the files, by the step that failed.  The
    files are as they were when the arguments are refused, when the
    directory does not resolve, when the scan fails or when [os.Create]
    fails.  Otherwise the scan has given its records, the report was
    created and a write of the rows has failed on the full device: then
    the new file is there, and it holds the bytes of the report that the
    device took. *)
Definition failure_outcome (env : Env) (extensions args : list gostring)
           (st st' : State) (err : GoError) : Prop :=
  (files st' = files st
   /\ (MaximumNArgs 1 args = Some err
       \/ (MaximumNArgs 1 args = None
           /\ exists folderPath, getFolderPath env args = (folderPath, Some err))
       \/ (exists folderPath st1 recs,
              MaximumNArgs 1 args = None
              /\ getFolderPath env args = (folderPath, None)
              /\ processFiles env folderPath (formatExtensions extensions) st
                 = (st1, (recs, Some err)))
       \/ (exists folderPath st1 recs msg,
              MaximumNArgs 1 args = None
              /\ getFolderPath env args = (folderPath, None)
              /\ processFiles env folderPath (formatExtensions extensions) st
                 = (st1, (recs, None))
              /\ Create_err env (outputFilename env) = Some msg
              /\ err = Errorf_w (lit "failed to create CSV file: ") (Err msg))))
  \/ (exists folderPath st1 recs,
         MaximumNArgs 1 args = None
         /\ getFolderPath env args = (folderPath, None)
         /\ processFiles env folderPath (formatExtensions extensions) st
            = (st1, (recs, None))
         /\ Create_err env (outputFilename env) = None
         /\ err = Errorf_w (lit "failed to write content to CSV: ")
                           (Err (write_err env))
         /\ ~ fits env (report recs)
         /\ files st' = (outputFilename env, accepted env (report recs)) :: files st).


(** ** Notions for further properties of the code *)

(** The paths that the walk of a tree hands to the hasher: the entries
    that are no directories and pass the filter, in the order of the
    walk; a directory that cannot be read contributes none. *)
Fixpoint matching_paths (exts : list gostring) (e : Entry) : list gostring :=
  match e with
  | NonDir path => if matchesExtension path exts then [path] else []
  | Dir _ (Some _) _ => []
  | Dir _ None entries => flat_map (matching_paths exts) entries
  end.

(** The record of a file that can be read and statted. *)
Definition record_of (env : Env) (path : gostring) : HashedFileInfo :=
  {| Name := match Stat env path with inr info => fi_Name info | inl _ => [] end;
     Path := path;
     Size := match Stat env path with inr info => fi_Size info | inl _ => 0 end;
     Hash := match Open env path with
             | inr file => Sprintf_x (Sha256.Sum256 (bytes file))
             | inl _ => []
             end |}.

(** The two lines that [processFiles] prints first. *)
Definition banner (folderPath : gostring) (exts : list gostring) : gostring :=
  lit "Scanning folder: " ++ folderPath ++ newline
    ++ match exts with
       | [] => lit "Processing all file types" ++ newline
       | _ :: _ => lit "Filtering by extensions: "
                       ++ Strings.Join exts (lit ", ") ++ newline
       end.

Definition progress (paths : list gostring) : gostring :=
  flat_map (fun path => lit "Processing: " ++ path ++ newline) paths.

(** The message of the error with which the walk of a tree ends: that of
    the first failure in the order of the walk. *)
Definition file_error (env : Env) (path : gostring) : option gostring :=
  match Open env path with
  | inl msg => Some ((lit "failed to hash file " ++ path ++ lit ": ") ++ msg)
  | inr file =>
    match failure file with
    | Some msg => Some ((lit "failed to hash file " ++ path ++ lit ": ") ++ msg)
    | None =>
      match Stat env path with
      | inl msg => Some ((lit "failed to get file stats for " ++ path ++ lit ": ") ++ msg)
      | inr _ => None
      end
    end
  end.

Fixpoint first_error (env : Env) (exts : list gostring) (e : Entry) : option gostring :=
  match e with
  | NonDir path => if matchesExtension path exts then file_error env path else None
  | Dir _ (Some msg) _ => Some msg
  | Dir _ None entries =>
    (fix first (dirs : list Entry) : option gostring :=
       match dirs with
       | [] => None
       | d1 :: dirs' =>
         match first_error env exts d1 with
         | Some msg => Some msg
         | None => first dirs'
         end
       end) entries
  end.

(** Reading hexadecimal text back, as [hex.DecodeString] does on text
    of even length. *)
Definition unhex (c : byte) : Z :=
  if (97 <=? b2z c) then b2z c - 87 else b2z c - 48.

Fixpoint hex_decode (s : gostring) : list byte :=
  match s with
  | c1 :: c2 :: s' => z2b (16 * unhex c1 + unhex c2) :: hex_decode s'
  | _ => []
  end.

(** A time that a clock shows. *)
Definition clock_time (t : Time) : Prop :=
  0 <= year t <= 9999 /\ 1 <= month t <= 12 /\ 1 <= day t <= 31
  /\ 0 <= hour t <= 23 /\ 0 <= minute t <= 59 /\ 0 <= second t <= 59.

(** The [n] bytes of [s] from the index [i]. *)
Definition segment (i n : nat) (s : gostring) : gostring := firstn n (skipn i s).

(** The time that the name of a report shows. *)
Definition time_of_name (name : gostring) : Time :=
  {| year := dec_value (segment 13 4 name);
     month := dec_value (segment 17 2 name);
     day := dec_value (segment 19 2 name);
     hour := dec_value (segment 22 2 name);
     minute := dec_value (segment 24 2 name);
     second := dec_value (segment 26 2 name) |}.

(** What the writer and the output file hold once [logical] has been
    handed to the writer.  Without pending error the file and the buffer
    together are [logical], and the file fits on the device; a pending
    error is that of a write to the full device, and the file is the
    part of [logical] that the device took. *)
Definition on_device (env : Env) (bs : Bufio.Writer * State) (name : gostring)
           (older : list (gostring * list byte)) (logical : list byte) : Prop :=
  exists content,
    files (snd bs) = (name, content) :: older
    /\ match Bufio.err (fst bs) with
       | None =>
         content ++ Bufio.buf (fst bs) = logical
         /\ (length (Bufio.buf (fst bs)) <= Bufio.defaultBufSize)%nat
         /\ fits env content
       | Some e =>
         e = Err (write_err env)
         /\ capacity env = Some (length content)
         /\ exists rest, rest <> [] /\ content ++ rest = logical
       end.

(** Nothing has reached the file yet: all of [logical] is in the
    buffer. *)
Definition buffered (bs : Bufio.Writer * State) (name : gostring)
           (older : list (gostring * list byte)) (logical : list byte) : Prop :=
  Bufio.err (fst bs) = None
  /\ files (snd bs) = (name, []) :: older
  /\ Bufio.buf (fst bs) = logical
  /\ (length logical <= Bufio.defaultBufSize)%nat.

(** A byte of a quoted field: a quote is written twice. *)
Definition csv_double (c : byte) : gostring :=
  if Byte.eqb c x22 then [c; c] else [c].

(** The text of a field in the file: as it is, or between quotes with
    its quotes doubled. *)
Definition csv_field (field : gostring) : gostring :=
  if Csv.fieldNeedsQuotes field
  then x22 :: flat_map csv_double field ++ [x22]
  else field.

(** Reading a field back: the text between the quotes, with every
    doubled quote halved. *)
Fixpoint csv_halve (s : gostring) : gostring :=
  match s with
  | [] => []
  | c :: s' =>
    c :: match s' with
         | [] => []
         | c' :: s'' =>
           if Byte.eqb c x22 && Byte.eqb c' x22 then csv_halve s'' else csv_halve s'
         end
  end.

Definition csv_unquote (s : gostring) : gostring :=
  match s with
  | c :: s' => if Byte.eqb c x22 then csv_halve (removelast s') else s
  | [] => []
  end.

(** A byte of a number or of a digest as text. *)
Definition is_sober (c : byte) : bool :=
  is_digit c || is_lower_hex c || Byte.eqb c "."%byte || Byte.eqb c "-"%byte.

(** The line that reports an error. *)
Definition error_line (err : GoError) : gostring :=
  lit "Error: " ++ Error err ++ newline.


(** ** Sample worlds *)

(** A directory [/d] with two text files, a picture and a file without
    extension. *)
Definition sample_tree : Entry :=
  Dir (lit "/d") None
      [ NonDir (lit "/d/a.txt");
        Dir (lit "/d/sub") None
            [ NonDir (lit "/d/sub/Makefile"); NonDir (lit "/d/sub/b.txt") ];
        NonDir (lit "/d/z.jpg") ].

(** A world around a tree: every file holds [abc] and has a size of one
    mebibyte, but for the paths in [unreadable], which cannot be opened;
    the output device accepts [cap] bytes. *)
Definition sample_env (tree : Entry) (unreadable : list gostring)
           (cap : option nat) : Env :=
  {| Getwd := inr (lit "/d");
     Stat := fun p =>
       if gostring_eqb p (lit "/d")
       then inr (mkFileInfo (lit "d") 4096 true)
       else inr (mkFileInfo (base_name p) 1048576 false);
     Lstat_tree := fun _ => RootEntry tree;
     Open := fun p =>
       if existsb (gostring_eqb p) unreadable
       then inl (lit "open " ++ p ++ lit ": permission denied")
       else inr (mkStream (lit "abc") None);
     Now := mkTime 2025 1 1 12 5 30;
     Create_err := fun _ => None;
     capacity := cap;
     write_err := lit "write: no space left on device";
     Abs := fun p => inr (lit "/d/" ++ p) |}.

Definition empty_state : State := {| stdout := []; stderr := []; files := [] |}.

(** Two records of a report. *)
Definition sample_records : list HashedFileInfo :=
  [ {| Name := lit "a.txt"; Path := lit "/d/a.txt"; Size := 1048576;
       Hash := Sprintf_x (Sha256.Sum256 (lit "abc")) |};
    {| Name := lit "b, c.txt"; Path := lit "/d/sub/b, c.txt"; Size := 5243;
       Hash := Sprintf_x (Sha256.Sum256 (lit "abc")) |} ].


(** A directory with twelve files of long names, for a report that does
    not fit into the buffer of the writer.  The names end in the numbers
    0 to 11, and the entries stand in the order of [os.ReadDir], sorted
    by name: 10 and 11 come before 2. *)
Definition large_tree : Entry :=
  Dir (lit "/d") None
      (map (fun i => NonDir (lit "/d/" ++ repeat "x"%byte 150
                                 ++ decimal i ++ lit ".txt"))
           [0; 1; 10; 11; 2; 3; 4; 5; 6; 7; 8; 9]).


(** A world without the directory that the user names. *)
Definition missing_env : Env :=
  {| Getwd := inl (lit "getwd: no such file or directory");
     Stat := fun p => inl (lit "stat " ++ p ++ lit ": no such file or directory");
     Lstat_tree := fun p => RootError (lit "lstat " ++ p ++ lit ": no such file or directory");
     Open := fun p => inl (lit "open " ++ p ++ lit ": no such file or directory");
     Now := mkTime 2025 1 1 12 5 30;
     Create_err := fun _ => None;
     capacity := None;
     write_err := lit "write: no space left on device";
     Abs := fun p => inr (lit "/d/" ++ p) |}.


(** * Properties *)

(** ** Strings as byte lists *)

Lemma gostring_eqb_eq (a b : gostring) : gostring_eqb a b = true <-> a = b.
Proof.
  revert b; induction a as [|x a IH]; intros [|y b]; simpl; split;
    try congruence; try reflexivity.
  - intros H. apply andb_true_iff in H as [Hx Hab].
    apply Byte.byte_dec_bl in Hx. apply IH in Hab. congruence.
  - intros H. injection H as -> ->. apply andb_true_iff. split.
    + now apply Byte.byte_dec_lb.
    + now apply IH.
Qed.

Lemma gostring_eqb_refl (a : gostring) : gostring_eqb a a = true.
Proof. now apply gostring_eqb_eq. Qed.

Lemma byte_eqb_refl (c : byte) : Byte.eqb c c = true.
Proof. now apply Byte.byte_dec_lb. Qed.

Lemma byte_eqb_neq (c d : byte) : c <> d -> Byte.eqb c d = false.
Proof.
  intros H. destruct (Byte.eqb c d) eqn:E; [|reflexivity].
  apply Byte.byte_dec_bl in E. contradiction.
Qed.

Lemma in_skipn_in {A} (n : nat) (l : list A) (x : A) :
  In x (skipn n l) -> In x l.
Proof.
  revert l; induction n as [|n IH]; intros [|y l]; simpl; auto.
Qed.

Lemma in_firstn_in {A} (n : nat) (l : list A) (x : A) :
  In x (firstn n l) -> In x l.
Proof.
  revert l; induction n as [|n IH]; intros [|y l]; simpl; try tauto.
  intros [H|H]; auto.
Qed.

(** ** UTF-8 decoding *)

Lemma decode_ascii (b : byte) (t : gostring) :
  (b2z b <? 128) = true -> Utf8.DecodeRuneInString (b :: t) = (b2z b, 1%nat).
Proof. destruct b; intros H; try discriminate H; reflexivity. Qed.

Lemma decode_continuation (b : byte) (t : gostring) :
  Utf8.RuneStart b = false ->
  Utf8.DecodeRuneInString (b :: t) = (Utf8.RuneError, 1%nat).
Proof. destruct b; intros H; try discriminate H; reflexivity. Qed.

Lemma decode_single_high (b : byte) :
  (b2z b <? 128) = false ->
  Utf8.DecodeRuneInString [b] = (Utf8.RuneError, 1%nat).
Proof. destruct b; intros H; try discriminate H; reflexivity. Qed.

Lemma decode_size_pos (b : byte) (t : gostring) :
  (1 <= snd (Utf8.DecodeRuneInString (b :: t)))%nat.
Proof.
  unfold Utf8.DecodeRuneInString.
  destruct (Utf8.as_ <=? _); [simpl; lia|].
  destruct (Utf8.acceptRanges _) as [lo hi].
  destruct (_ <? _)%nat; [simpl; lia|].
  destruct t as [|b1 t1]; [simpl; lia|].
  destruct (Utf8.outside _ _ _); [simpl; lia|].
  destruct (_ <=? 2)%nat; [simpl; lia|].
  destruct t1 as [|b2 t2]; [simpl; lia|].
  destruct (Utf8.outside _ _ _); [simpl; lia|].
  destruct (_ <=? 3)%nat; [simpl; lia|].
  destruct t2 as [|b3 t3]; [simpl; lia|].
  destruct (Utf8.outside _ _ _); simpl; lia.
Qed.

Ltac decode_bad :=
  let H := fresh in
  let Hr := fresh in
  intros H Hr; exfalso; inversion H; congruence.

(** A rune other than [RuneError] is decoded from the bytes of its own
    encoding only: what follows them does not matter. *)
Lemma decode_app (u w : gostring) (r : Z) (size : nat) :
  Utf8.DecodeRuneInString u = (r, size) ->
  r <> Utf8.RuneError ->
  Utf8.DecodeRuneInString (u ++ w) = (r, size).
Proof.
  destruct u as [|a t]; [decode_bad|].
  cbn [app]. unfold Utf8.DecodeRuneInString.
  set (x := Utf8.first (b2z a)). cbv zeta.
  destruct (Utf8.as_ <=? x); [auto|].
  destruct (Utf8.acceptRanges _) as [lo hi].
  set (sz := Z.to_nat _).
  destruct (length (a :: t) <? sz)%nat eqn:E1; [decode_bad|].
  assert (E2 : (length (a :: t ++ w) <? sz)%nat = false).
  { apply Nat.ltb_ge in E1. apply Nat.ltb_ge.
    cbn [length] in *. rewrite length_app. lia. }
  rewrite E2.
  destruct t as [|b1 t1]; [decode_bad|]. cbn [app].
  destruct (Utf8.outside _ _ _); [auto|].
  destruct (sz <=? 2)%nat; [auto|].
  destruct t1 as [|b2 t2]; [decode_bad|]. cbn [app].
  destruct (Utf8.outside _ _ _); [auto|].
  destruct (sz <=? 3)%nat; [auto|].
  destruct t2 as [|b3 t3]; [decode_bad|]. cbn [app].
  auto.
Qed.

Lemma decodeLastOfRev_size_pos (b : byte) (before : gostring) :
  (1 <= snd (Utf8.decodeLastOfRev (b :: before)))%nat.
Proof.
  unfold Utf8.decodeLastOfRev.
  destruct (b2z b <? Utf8.RuneSelf); [simpl; lia|].
  cbv zeta. destruct (Utf8.DecodeRuneInString _) as [r size].
  destruct (size =? _)%nat eqn:E; [|simpl; lia].
  apply Nat.eqb_eq in E. rewrite E, length_rev. simpl. lia.
Qed.

Lemma decodeLast_size_pos (b : byte) (t : gostring) :
  (1 <= snd (Utf8.DecodeLastRuneInString (b :: t)))%nat.
Proof.
  unfold Utf8.DecodeLastRuneInString.
  destruct (rev (b :: t)) as [|b0 before] eqn:E.
  - apply (f_equal (@length byte)) in E. rewrite length_rev in E. discriminate E.
  - apply decodeLastOfRev_size_pos.
Qed.

Lemma IsSpace_RuneError : Unicode.IsSpace Utf8.RuneError = false.
Proof. reflexivity. Qed.

Lemma IsSpace_dot : Unicode.IsSpace (b2z "."%byte) = false.
Proof. reflexivity. Qed.

(** Prepending a dot to a non-empty string leaves the white-space status
    of its last rune as it is: either the backward scan sees the same
    bytes, or it reaches the dot and the segment is no valid encoding. *)
Lemma decodeLast_cons_dot (u : gostring) :
  u <> [] ->
  Unicode.IsSpace (fst (Utf8.DecodeLastRuneInString u)) = false ->
  Unicode.IsSpace (fst (Utf8.DecodeLastRuneInString ("."%byte :: u))) = false.
Proof.
  intros Hu. unfold Utf8.DecodeLastRuneInString. cbn [rev].
  destruct (rev u) as [|b0 before] eqn:E.
  { apply (f_equal (@rev byte)) in E. rewrite rev_involutive in E. contradiction. }
  cbn [app]. unfold Utf8.decodeLastOfRev.
  destruct (b2z b0 <? Utf8.RuneSelf); [auto|]. cbv zeta.
  assert (dotted : forall seg : gostring, seg <> [] ->
            Unicode.IsSpace
              (fst (let '(r, size) := Utf8.DecodeRuneInString ("."%byte :: seg) in
                    if (size =? length ("."%byte :: seg))%nat
                    then (r, size) else (Utf8.RuneError, 1%nat))) = false).
  { intros [|c seg] Hs; [contradiction|]. reflexivity. }
  assert (start_dot : Utf8.RuneStart "."%byte = true) by reflexivity.
  destruct before as [|b1 [|b2 [|b3 [|b4 rest]]]]; cbn [app Utf8.backtrack].
  - intros _. rewrite start_dot. cbn [firstn rev app]. apply dotted. discriminate.
  - destruct (Utf8.RuneStart b1); [auto|]. intros _.
    rewrite start_dot. cbn [firstn rev app]. apply dotted. discriminate.
  - destruct (Utf8.RuneStart b1); [auto|].
    destruct (Utf8.RuneStart b2); [auto|]. intros _.
    rewrite start_dot. cbn [firstn rev app]. apply dotted. discriminate.
  - destruct (Utf8.RuneStart b1); [auto|].
    destruct (Utf8.RuneStart b2); [auto|].
    destruct (Utf8.RuneStart b3); [auto|]. intros _.
    cbn [firstn rev app]. apply dotted. discriminate.
  - destruct (Utf8.RuneStart b1); [auto|].
    destruct (Utf8.RuneStart b2); [auto|].
    destruct (Utf8.RuneStart b3); auto.
Qed.

(** ** Trimming *)

Section Trim.

Variable f : Z -> bool.

(** The left loop stops on the empty string or in front of a rune that
    [f] rejects, and what it returns is a suffix of its argument. *)
Lemma trimLeftLoop_spec (fuel : nat) (s : gostring) :
  (length s <= fuel)%nat ->
  let t := Strings.trimLeftLoop fuel f s in
  (t = [] \/ f (fst (Utf8.DecodeRuneInString t)) = false)
  /\ exists k, t = skipn k s.
Proof.
  revert s; induction fuel as [|fuel IH]; intros s Hlen.
  - destruct s; [|simpl in Hlen; lia]. simpl. split; [now left | now exists 0%nat].
  - destruct s as [|b s']; [simpl; split; [now left | now exists 0%nat]|].
    cbn [Strings.trimLeftLoop].
    pose proof (decode_size_pos b s') as Hpos.
    destruct (Utf8.DecodeRuneInString (b :: s')) as [r size] eqn:E.
    cbn [snd] in Hpos.
    destruct (f r) eqn:Ef.
    + destruct (IH (skipn size (b :: s'))) as [H1 [k Hk]].
      { rewrite length_skipn. cbn [length] in *. lia. }
      split; [exact H1|]. exists (k + size)%nat.
      rewrite Hk. apply skipn_skipn.
    + split; [right; rewrite E; exact Ef | now exists 0%nat].
Qed.

Lemma trimRightLoop_spec (fuel : nat) (s : gostring) :
  (length s <= fuel)%nat ->
  let t := Strings.trimRightLoop fuel f s in
  (t = [] \/ f (fst (Utf8.DecodeLastRuneInString t)) = false)
  /\ exists k, t = firstn k s.
Proof.
  revert s; induction fuel as [|fuel IH]; intros s Hlen.
  - destruct s; [|simpl in Hlen; lia]. simpl. split; [now left | now exists 0%nat].
  - destruct s as [|b s']; [simpl; split; [now left | now exists 0%nat]|].
    cbn [Strings.trimRightLoop].
    pose proof (decodeLast_size_pos b s') as Hpos.
    destruct (Utf8.DecodeLastRuneInString (b :: s')) as [r size] eqn:E.
    cbn [snd] in Hpos.
    destruct (f r) eqn:Ef.
    + destruct (IH (firstn (length (b :: s') - size) (b :: s'))) as [H1 [k Hk]].
      { rewrite length_firstn. cbn [length] in *. lia. }
      split; [exact H1|].
      exists (Nat.min k (length (b :: s') - size)).
      rewrite Hk. apply firstn_firstn.
    + split; [right; rewrite E; exact Ef | exists (length (b :: s'))].
      symmetry. apply firstn_all.
Qed.

(** A string on which [f] rejects the first rune is left alone by the
    left loop, and likewise on the right. *)
Lemma trimLeftLoop_fixed (s : gostring) :
  f (fst (Utf8.DecodeRuneInString s)) = false ->
  Strings.TrimLeftFunc s f = s.
Proof.
  unfold Strings.TrimLeftFunc. destruct s as [|b s']; [reflexivity|].
  cbn [length Strings.trimLeftLoop].
  destruct (Utf8.DecodeRuneInString (b :: s')) as [r size].
  cbn [fst]. now intros ->.
Qed.

Lemma trimRightLoop_fixed (s : gostring) :
  f (fst (Utf8.DecodeLastRuneInString s)) = false ->
  Strings.TrimRightFunc s f = s.
Proof.
  unfold Strings.TrimRightFunc. destruct s as [|b s']; [reflexivity|].
  cbn [length Strings.trimRightLoop].
  destruct (Utf8.DecodeLastRuneInString (b :: s')) as [r size].
  cbn [fst]. now intros ->.
Qed.

End Trim.

(** What [TrimSpace] returns is empty or has no white space at either
    end, and it is a segment of the argument. *)
Lemma TrimSpace_spec (s : gostring) :
  let u := Strings.TrimSpace s in
  (u = [] \/
   (Unicode.IsSpace (fst (Utf8.DecodeRuneInString u)) = false /\
    Unicode.IsSpace (fst (Utf8.DecodeLastRuneInString u)) = false))
  /\ exists i j, u = firstn j (skipn i s).
Proof.
  unfold Strings.TrimSpace, Strings.TrimLeftFunc, Strings.TrimRightFunc.
  destruct (trimLeftLoop_spec Unicode.IsSpace (length s) s (le_n _)) as [HL [i Hi]].
  set (t := Strings.trimLeftLoop (length s) Unicode.IsSpace s) in *.
  destruct (trimRightLoop_spec Unicode.IsSpace (length t) t (le_n _)) as [HR [j Hj]].
  set (u := Strings.trimRightLoop (length t) Unicode.IsSpace t) in *.
  cbv zeta. split.
  - destruct HR as [HR|HR]; [now left|].
    destruct u as [|c u'] eqn:Eu; [now left|]. right. split; [|exact HR].
    destruct HL as [HL|HL].
    { rewrite HL in Hj. rewrite firstn_nil in Hj. discriminate Hj. }
    destruct (Unicode.IsSpace (fst (Utf8.DecodeRuneInString (c :: u')))) eqn:Es;
      [|reflexivity].
    destruct (Utf8.DecodeRuneInString (c :: u')) as [r size] eqn:Ed.
    cbn [fst] in Es.
    assert (Hr : r <> Utf8.RuneError).
    { intros ->. rewrite IsSpace_RuneError in Es. discriminate Es. }
    pose proof (decode_app (c :: u') (skipn j t) r size Ed Hr) as Happ.
    rewrite Hj, firstn_skipn in Happ. rewrite Happ in HL. cbn [fst] in HL.
    congruence.
  - exists i, j. rewrite Hj, Hi. reflexivity.
Qed.

Lemma TrimSpace_in (s : gostring) (c : byte) :
  In c (Strings.TrimSpace s) -> In c s.
Proof.
  destruct (TrimSpace_spec s) as [_ [i [j H]]]. cbv zeta in H. rewrite H.
  intros Hin. apply in_firstn_in in Hin. now apply in_skipn_in in Hin.
Qed.

Lemma TrimSpace_fixed (u : gostring) :
  Unicode.IsSpace (fst (Utf8.DecodeRuneInString u)) = false ->
  Unicode.IsSpace (fst (Utf8.DecodeLastRuneInString u)) = false ->
  Strings.TrimSpace u = u.
Proof.
  intros H1 H2. unfold Strings.TrimSpace.
  rewrite trimLeftLoop_fixed by exact H1.
  now apply trimRightLoop_fixed.
Qed.

(** [TrimSpace] is idempotent. *)
Lemma TrimSpace_idem (s : gostring) :
  Strings.TrimSpace (Strings.TrimSpace s) = Strings.TrimSpace s.
Proof.
  destruct (TrimSpace_spec s) as [[H|[H1 H2]] _]; cbv zeta in *.
  - rewrite H. reflexivity.
  - now apply TrimSpace_fixed.
Qed.

(** ** Splitting *)

Lemma Split_no_sep (s : gostring) (sep : byte) :
  ~ In sep s -> Strings.Split s sep = [s].
Proof.
  induction s as [|c s IH]; intros H; [reflexivity|].
  cbn [Strings.Split]. rewrite byte_eqb_neq.
  - rewrite IH; [reflexivity|]. intros Hin. apply H. now right.
  - intros ->. apply H. now left.
Qed.

Lemma Split_pieces_no_sep (s : gostring) (sep : byte) (p : gostring) :
  In p (Strings.Split s sep) -> ~ In sep p.
Proof.
  revert p; induction s as [|c s IH]; intros p.
  - simpl. intros [<-|[]] [].
  - cbn [Strings.Split]. destruct (Byte.eqb c sep) eqn:E.
    + intros [<-|H]; [intros []|now apply IH].
    + destruct (Strings.Split s sep) as [|h t] eqn:Es.
      * intros [<-|[]] [->|[]]. rewrite byte_eqb_refl in E. discriminate E.
      * intros [<-|H].
        -- intros [->|Hin]; [rewrite byte_eqb_refl in E; discriminate E|].
           apply (IH h); [now left | exact Hin].
        -- apply IH. now right.
Qed.

(** ** formatExtensions *)

Lemma formatExtensions_step_eq (acc : list gostring) (splitExt : gostring) :
  formatExtensions_step acc splitExt = acc ++ normalize1 splitExt.
Proof.
  unfold formatExtensions_step, normalize1, add_dot.
  destruct (isEmpty (Strings.TrimSpace splitExt)); [now rewrite app_nil_r|].
  destruct (Strings.HasPrefix _ _); reflexivity.
Qed.

Lemma fold_step_flat_map (subs : list gostring) (acc : list gostring) :
  fold_left formatExtensions_step subs acc = acc ++ flat_map normalize1 subs.
Proof.
  revert acc; induction subs as [|x subs IH]; intros acc; simpl.
  - now rewrite app_nil_r.
  - rewrite IH, formatExtensions_step_eq. now rewrite <- app_assoc.
Qed.

Lemma formatExtensions_flat_map (rawExts : list gostring) :
  formatExtensions rawExts =
  flat_map (fun ext => flat_map normalize1 (Strings.Split ext ","%byte)) rawExts.
Proof.
  unfold formatExtensions.
  enough (G : forall acc,
             fold_left (fun formattedExts ext =>
                          fold_left formatExtensions_step
                                    (Strings.Split ext ","%byte) formattedExts)
                       rawExts acc
             = acc ++ flat_map (fun ext => flat_map normalize1
                                             (Strings.Split ext ","%byte)) rawExts)
    by apply (G []).
  induction rawExts as [|ext rawExts IH]; intros acc; simpl.
  - now rewrite app_nil_r.
  - rewrite IH, fold_step_flat_map. now rewrite <- app_assoc.
Qed.

Lemma formatExtensions_app (a b : list gostring) :
  formatExtensions (a ++ b) = formatExtensions a ++ formatExtensions b.
Proof. rewrite !formatExtensions_flat_map. apply flat_map_app. Qed.

Lemma flat_map_normalize1 (subs : list gostring) :
  flat_map normalize1 subs =
  map add_dot (filter (fun t => negb (isEmpty t)) (map Strings.TrimSpace subs)).
Proof.
  induction subs as [|x subs IH]; [reflexivity|].
  cbn [flat_map map filter]. unfold normalize1 at 1.
  destruct (isEmpty (Strings.TrimSpace x)); cbn [negb]; simpl; now rewrite IH.
Qed.

Lemma formatExtensions_normalize_spec (rawExts : list gostring) :
  formatExtensions rawExts = normalize_spec rawExts.
Proof.
  rewrite formatExtensions_flat_map. unfold normalize_spec.
  induction rawExts as [|ext rawExts IH]; [reflexivity|].
  cbn [flat_map]. rewrite IH, flat_map_normalize1.
  now rewrite map_app, filter_app, map_app.
Qed.

Lemma canonical_normalize1 (e : gostring) : canonical e -> normalize1 e = [e].
Proof.
  intros [[t ->] [Hc Hl]]. unfold normalize1.
  rewrite TrimSpace_fixed; [|reflexivity|exact Hl].
  cbn [isEmpty]. unfold add_dot. cbn. reflexivity.
Qed.

Lemma add_dot_cases (t : gostring) :
  (exists t', t = "."%byte :: t' /\ add_dot t = t)
  \/ (Strings.HasPrefix t (lit ".") = false /\ add_dot t = "."%byte :: t).
Proof.
  unfold add_dot. destruct t as [|c t']; [right; split; reflexivity|].
  cbn. destruct (Byte.eqb c "."%byte) eqn:E.
  - apply Byte.byte_dec_bl in E. subst c. left. now exists t'.
  - right. split; reflexivity.
Qed.

Lemma normalize1_canonical (sub e : gostring) :
  ~ In ","%byte sub -> In e (normalize1 sub) -> canonical e.
Proof.
  intros Hsub. unfold normalize1.
  destruct (TrimSpace_spec sub) as [Hends _]. cbv zeta in Hends.
  pose proof (TrimSpace_in sub ","%byte) as Hin.
  destruct (Strings.TrimSpace sub) as [|c t] eqn:Et; [intros []|].
  cbn [isEmpty]. intros [<-|[]].
  destruct Hends as [Hends|[_ Hlast]]; [discriminate Hends|].
  destruct (add_dot_cases (c :: t)) as [[t' [Heq ->]]|[_ ->]].
  - repeat split; [now exists t' | tauto | exact Hlast].
  - repeat split.
    + now exists (c :: t).
    + intros [H|H]; [discriminate H | tauto].
    + apply decodeLast_cons_dot; [discriminate | exact Hlast].
Qed.

Lemma formatExtensions_canonical (rawExts : list gostring) (e : gostring) :
  In e (formatExtensions rawExts) -> canonical e.
Proof.
  rewrite formatExtensions_flat_map. intros H.
  apply in_flat_map in H as [ext [_ H]].
  apply in_flat_map in H as [sub [Hsub H]].
  apply (normalize1_canonical sub); [|exact H].
  now apply (Split_pieces_no_sep ext).
Qed.

Lemma formatExtensions_fixed (exts : list gostring) :
  (forall e, In e exts -> canonical e) -> formatExtensions exts = exts.
Proof.
  rewrite formatExtensions_flat_map.
  induction exts as [|e exts IH]; intros H; [reflexivity|].
  cbn [flat_map]. rewrite IH by (intros; apply H; now right).
  assert (He : canonical e) by (apply H; now left).
  rewrite Split_no_sep by apply He. cbn [flat_map].
  rewrite canonical_normalize1 by exact He. reflexivity.
Qed.

(** ** The extension of a path *)

Lemma last_index_none (p : byte -> bool) (s : gostring) :
  (forall x, In x s -> p x = false) -> last_index p s = None.
Proof.
  induction s as [|c s IH]; intros H; [reflexivity|].
  cbn [last_index]. rewrite IH by (intros; apply H; now right).
  rewrite (H c) by now left. reflexivity.
Qed.

Lemma last_index_none_inv (p : byte -> bool) (s : gostring) (x : byte) :
  last_index p s = None -> In x s -> p x = false.
Proof.
  induction s as [|c s IH]; [intros _ []|].
  cbn [last_index]. destruct (last_index p s); [discriminate|].
  destruct (p c) eqn:E; [discriminate|].
  intros _ [<-|H]; auto.
Qed.

Lemma last_index_app_none (p : byte -> bool) (a t : gostring) :
  (forall x, In x t -> p x = false) ->
  last_index p (a ++ t) = last_index p a.
Proof.
  intros H. induction a as [|c a IH]; cbn [app last_index].
  - now apply last_index_none.
  - now rewrite IH.
Qed.

Lemma last_index_app_hit (p : byte -> bool) (a t : gostring) (c : byte) :
  p c = true -> (forall x, In x t -> p x = false) ->
  last_index p (a ++ c :: t) = Some (length a).
Proof.
  intros Hc Ht. induction a as [|d a IH]; cbn [app last_index length].
  - rewrite last_index_none by exact Ht. now rewrite Hc.
  - now rewrite IH.
Qed.

Lemma last_index_lt (p : byte -> bool) (s : gostring) (i : nat) :
  last_index p s = Some i -> (i < length s)%nat.
Proof.
  revert i; induction s as [|c s IH]; intros i; [discriminate|].
  cbn [last_index length]. destruct (last_index p s) as [j|].
  - intros [= <-]. specialize (IH j eq_refl). lia.
  - destruct (p c); [intros [= <-]; lia | discriminate].
Qed.

Lemma skipn_length_app {A} (a t : list A) : skipn (length a) (a ++ t) = t.
Proof. induction a; simpl; auto. Qed.

Lemma base_name_app (a t : gostring) :
  (forall x, In x t -> Filepath.IsPathSeparator x = false) ->
  base_name (a ++ t) = base_name a ++ t.
Proof.
  intros H. unfold base_name. rewrite last_index_app_none by exact H.
  destruct (last_index Filepath.IsPathSeparator a) as [i|] eqn:E; [|reflexivity].
  apply last_index_lt in E. rewrite skipn_app.
  replace (S i - length a)%nat with 0%nat by lia. reflexivity.
Qed.

Lemma base_name_after_sep (a t : gostring) (c : byte) :
  Filepath.IsPathSeparator c = true ->
  (forall x, In x t -> Filepath.IsPathSeparator x = false) ->
  base_name (a ++ c :: t) = t.
Proof.
  intros Hc Ht. unfold base_name.
  rewrite last_index_app_hit by assumption.
  change (a ++ c :: t) with (a ++ [c] ++ t). rewrite app_assoc.
  replace (S (length a)) with (length (a ++ [c])) by (rewrite length_app; simpl; lia).
  apply skipn_length_app.
Qed.

(** The backward loop of [filepath.Ext] computes the extension of the
    specification. *)
Lemma ext_scan_spec (rpath suffix : gostring) :
  (forall x, In x suffix -> Filepath.IsPathSeparator x = false) ->
  (forall x, In x suffix -> is_dot x = false) ->
  Filepath.ext_scan rpath suffix = extension_spec (rev rpath ++ suffix).
Proof.
  revert suffix; induction rpath as [|c rpath IH]; intros suffix Hsep Hdot.
  - cbn [Filepath.ext_scan rev app]. unfold extension_spec, base_name.
    rewrite (last_index_none _ suffix Hsep). cbv zeta.
    now rewrite (last_index_none _ suffix Hdot).
  - cbn [Filepath.ext_scan rev]. rewrite <- app_assoc. cbn [app].
    destruct (Filepath.IsPathSeparator c) eqn:Es.
    + unfold extension_spec. rewrite base_name_after_sep by assumption.
      cbv zeta. now rewrite (last_index_none _ suffix Hdot).
    + assert (Hsep' : forall x, In x (c :: suffix) ->
                                Filepath.IsPathSeparator x = false).
      { intros x [<-|Hx]; auto. }
      fold (is_dot c). destruct (is_dot c) eqn:Ed.
      * unfold extension_spec. rewrite base_name_app by exact Hsep'.
        cbv zeta. rewrite last_index_app_hit by assumption.
        now rewrite skipn_length_app.
      * apply IH; [exact Hsep'|]. intros x [<-|Hx]; auto.
Qed.

Lemma Ext_extension_spec (path : gostring) :
  Filepath.Ext path = extension_spec path.
Proof.
  unfold Filepath.Ext. rewrite ext_scan_spec by (intros x []).
  now rewrite app_nil_r, rev_involutive.
Qed.

Lemma existsb_gostring_eqb (x : gostring) (l : list gostring) :
  existsb (fun e => gostring_eqb x e) l = true <-> In x l.
Proof.
  rewrite existsb_exists. split.
  - intros [e [He Heq]]. apply gostring_eqb_eq in Heq. now subst.
  - intros H. exists x. split; [exact H | apply gostring_eqb_refl].
Qed.

Lemma matchesExtension_iff (path : gostring) (exts : list gostring) :
  matchesExtension path exts = true <-> exts = [] \/ In (Filepath.Ext path) exts.
Proof.
  unfold matchesExtension. destruct exts as [|e exts].
  - split; [now left | reflexivity].
  - rewrite existsb_gostring_eqb. split; [now right|].
    intros [H|H]; [discriminate H | exact H].
Qed.

(** A base name without dot has the empty extension. *)
Lemma Ext_no_dot (path : gostring) :
  ~ In "."%byte (base_name path) -> Filepath.Ext path = [].
Proof.
  intros H. rewrite Ext_extension_spec. unfold extension_spec.
  rewrite last_index_none; [reflexivity|].
  intros x Hx. unfold is_dot. apply byte_eqb_neq. intros ->. contradiction.
Qed.

(** ** SHA-256: the streaming digest computes the digest of the whole *)

Lemma blocks_app (n m : nat) (st : list Z) (a b : list byte) :
  length a = (n * Sha256.chunk)%nat ->
  Sha256.blocks (n + m) st (a ++ b) = Sha256.blocks m (Sha256.blocks n st a) b.
Proof.
  revert st a; induction n as [|n IH]; intros st a Ha.
  - destruct a; [reflexivity | discriminate Ha].
  - rewrite Nat.mul_succ_l in Ha. cbn [Nat.add Sha256.blocks].
    rewrite firstn_app, skipn_app.
    replace (Sha256.chunk - length a)%nat with 0%nat by lia.
    cbn [firstn skipn]. rewrite app_nil_r.
    apply IH. rewrite length_skipn, Ha. lia.
Qed.

Lemma blocks_prefix (n : nat) (st : list Z) (a b : list byte) :
  length a = (n * Sha256.chunk)%nat ->
  Sha256.blocks n st (a ++ b) = Sha256.blocks n st a.
Proof.
  intros Ha. pose proof (blocks_app n 0 st a b Ha) as H.
  rewrite Nat.add_0_r in H. exact H.
Qed.

Lemma blocks_one (st : list Z) (b : list byte) :
  length b = Sha256.chunk -> Sha256.blocks 1 st b = Sha256.block1 st b.
Proof.
  intros Hb. cbn [Sha256.blocks]. rewrite <- Hb, firstn_all. reflexivity.
Qed.

Lemma absorbed_New : absorbed Sha256.New [].
Proof. exists [], 0%nat. repeat split. unfold Sha256.chunk. simpl. lia. Qed.

Lemma fill_spec (full : list byte) (k : nat) (h : list Z) (x p : list byte) :
  length full = (k * Sha256.chunk)%nat ->
  (length x < Sha256.chunk)%nat ->
  h = Sha256.blocks k Sha256.init full ->
  exists full1 k1 h1 x1 p1,
    Sha256.fill h x p = (h1, x1, p1)
    /\ full ++ x ++ p = full1 ++ x1 ++ p1
    /\ length full1 = (k1 * Sha256.chunk)%nat
    /\ (length x1 < Sha256.chunk)%nat
    /\ h1 = Sha256.blocks k1 Sha256.init full1
    /\ (x1 = [] \/ p1 = []).
Proof.
  intros Hfull Hx Hh. unfold Sha256.fill.
  destruct (0 <? length x)%nat eqn:E0.
  - set (n := Nat.min (Sha256.chunk - length x) (length p)).
    destruct (length (x ++ firstn n p) =? Sha256.chunk)%nat eqn:E1.
    + apply Nat.eqb_eq in E1.
      exists (full ++ x ++ firstn n p), (S k), (Sha256.block1 h (x ++ firstn n p)),
             [], (skipn n p).
      repeat split.
      * cbn [app]. rewrite <- !app_assoc. now rewrite firstn_skipn.
      * rewrite length_app, E1, Hfull, Nat.mul_succ_l. lia.
      * unfold Sha256.chunk. cbn [length]. lia.
      * replace (S k) with (k + 1)%nat by lia.
        rewrite (blocks_app k 1 _ full) by exact Hfull.
        rewrite blocks_one by exact E1. now rewrite Hh.
      * now left.
    + apply Nat.eqb_neq in E1. rewrite length_app, length_firstn in E1.
      assert (Hn : n = length p) by (unfold n in *; lia).
      exists full, k, h, (x ++ firstn n p), (skipn n p).
      rewrite Hn, firstn_all, skipn_all in *.
      repeat split; auto.
      * now rewrite app_nil_r.
      * rewrite length_app. unfold n in *. lia.
  - apply Nat.ltb_ge in E0. assert (x = []) by (destruct x; [reflexivity | simpl in E0; lia]).
    subst x. exists full, k, h, [], p. repeat split; auto.
Qed.

Lemma bulk_spec (full1 : list byte) (k1 : nat) (h1 : list Z) (p1 : list byte) :
  length full1 = (k1 * Sha256.chunk)%nat ->
  h1 = Sha256.blocks k1 Sha256.init full1 ->
  exists full2 k2 h2 p2,
    Sha256.bulk h1 p1 = (h2, p2)
    /\ full1 ++ p1 = full2 ++ p2
    /\ length full2 = (k2 * Sha256.chunk)%nat
    /\ (length p2 < Sha256.chunk)%nat
    /\ h2 = Sha256.blocks k2 Sha256.init full2
    /\ (p1 = [] -> h2 = h1 /\ full2 = full1 /\ k2 = k1).
Proof.
  intros Hfull Hh. unfold Sha256.bulk.
  destruct (Sha256.chunk <=? length p1)%nat eqn:E.
  - apply Nat.leb_le in E.
    set (q := (length p1 / Sha256.chunk)%nat).
    assert (Hq : (q * Sha256.chunk <= length p1 < q * Sha256.chunk + Sha256.chunk)%nat).
    { unfold q. pose proof (Nat.div_mod_eq (length p1) Sha256.chunk) as H1.
      pose proof (Nat.mod_upper_bound (length p1) Sha256.chunk) as H2.
      unfold Sha256.chunk in *. lia. }
    exists (full1 ++ firstn (q * Sha256.chunk) p1), (k1 + q)%nat,
           (Sha256.blocks q h1 (firstn (q * Sha256.chunk) p1)),
           (skipn (q * Sha256.chunk) p1).
    repeat split;
      try match goal with
          | H : p1 = [] |- _ =>
            exfalso; rewrite H in E; cbn [length] in E;
            unfold Sha256.chunk in E; lia
          end.
    + rewrite <- app_assoc. now rewrite firstn_skipn.
    + rewrite length_app, length_firstn, Hfull. lia.
    + rewrite length_skipn. lia.
    + rewrite (blocks_app k1 q _ full1) by exact Hfull. now rewrite Hh.
  - apply Nat.leb_gt in E. exists full1, k1, h1, p1. repeat split; auto.
Qed.

(** [Write] absorbs what it is given. *)
Lemma Write_absorbed (d : Sha256.digest) (data p : list byte) :
  absorbed d data -> absorbed (Sha256.Write d p) (data ++ p).
Proof.
  intros (full & k & Hdata & Hfull & Hx & Hh & Hlen).
  destruct (fill_spec full k (Sha256.h d) (Sha256.x d) p Hfull Hx Hh)
    as (full1 & k1 & h1 & x1 & p1 & Efill & Happ1 & Hfull1 & Hx1 & Hh1 & Hor).
  destruct (bulk_spec full1 k1 h1 p1 Hfull1 Hh1)
    as (full2 & k2 & h2 & p2 & Ebulk & Happ2 & Hfull2 & Hp2 & Hh2 & Hnil).
  unfold Sha256.Write. rewrite Efill, Ebulk.
  assert (Hlen' : Sha256.wrap64 (Sha256.len d + Z.of_nat (length p))
                  = Sha256.wrap64 (Z.of_nat (length (data ++ p)))).
  { rewrite Hlen, length_app, Nat2Z.inj_add. unfold Sha256.wrap64.
    now rewrite Zplus_mod_idemp_l. }
  assert (Hall : data ++ p = full1 ++ x1 ++ p1).
  { rewrite Hdata, <- app_assoc. exact Happ1. }
  unfold Sha256.stash. destruct Hor as [-> | ->].
  - (* nothing pending after the first step *)
    cbn [app] in Hall. exists full2, k2. cbn [Sha256.x Sha256.h Sha256.len].
    assert (Hx2 : (if (0 <? length p2)%nat then p2 else []) = p2).
    { destruct p2; reflexivity. }
    rewrite Hx2. repeat split; auto. now rewrite Hall.
  - (* the input went into the pending block *)
    destruct (Hnil eq_refl) as (-> & -> & ->).
    apply app_inv_head in Happ2. subst p2.
    cbn [length Nat.ltb Nat.leb]. exists full1, k1.
    cbn [Sha256.x Sha256.h Sha256.len].
    repeat split; auto. now rewrite Hall, app_nil_r.
Qed.

Lemma length_be_bytes (n : nat) (v : Z) : length (Sha256.be_bytes n v) = n.
Proof. induction n as [|n IH]; simpl; auto. Qed.

Lemma padding_wrap64 (L : Z) :
  Sha256.padding (Sha256.wrap64 L) = Sha256.padding L.
Proof.
  unfold Sha256.padding, Sha256.wrap64. f_equal. f_equal.
  - f_equal. f_equal. Z.div_mod_to_equations. lia.
  - f_equal. now rewrite Z.mul_mod_idemp_r.
Qed.

Lemma length_padding (data : list byte) :
  exists m : nat,
    length (data ++ Sha256.padding (Z.of_nat (length data)))
    = (m * Sha256.chunk)%nat.
Proof.
  unfold Sha256.padding. rewrite length_app. cbn [length].
  rewrite length_app, repeat_length, length_be_bytes.
  set (L := Z.of_nat (length data)).
  exists (Z.to_nat ((L + 9 + (55 - L) mod 64) / 64)).
  unfold Sha256.chunk. apply Nat2Z.inj.
  rewrite Nat2Z.inj_mul, !Nat2Z.inj_add, Nat2Z.inj_succ, !Z2Nat.id
    by (unfold L; Z.div_mod_to_equations; lia).
  fold L. Z.div_mod_to_equations. lia.
Qed.

(** The sum of a digest is the SHA-256 digest of all that was written. *)
Lemma Sum_absorbed (d : Sha256.digest) (data : list byte) :
  absorbed d data -> Sha256.Sum d = Sha256.Sum256 data.
Proof.
  intros Habs. unfold Sha256.Sum, Sha256.Sum256. cbv zeta.
  assert (Hpad : Sha256.padding (Sha256.len d)
                 = Sha256.padding (Z.of_nat (length data))).
  { destruct Habs as (_ & _ & _ & _ & _ & _ & Hlen). rewrite Hlen.
    apply padding_wrap64. }
  rewrite Hpad.
  pose proof (Write_absorbed d data (Sha256.padding (Z.of_nat (length data))) Habs)
    as (full & k & Hdata & Hfull & Hx & Hh & _).
  destruct (length_padding data) as [m Hm].
  set (p := data ++ Sha256.padding (Z.of_nat (length data))) in *.
  set (d' := Sha256.Write d (Sha256.padding (Z.of_nat (length data)))) in *.
  assert (Hx0 : Sha256.x d' = []).
  { assert (Hl : length p = (length full + length (Sha256.x d'))%nat)
      by (rewrite Hdata; apply length_app).
    rewrite Hm, Hfull in Hl. unfold Sha256.chunk in *.
    assert (length (Sha256.x d') = 0)%nat by nia.
    destruct (Sha256.x d'); [reflexivity | discriminate]. }
  rewrite Hx0, app_nil_r in Hdata. rewrite Hh, Hdata, Hfull.
  unfold Sha256.chunk. now rewrite Nat.div_mul by discriminate.
Qed.

(** Writing a message in pieces gives its digest. *)
Lemma Sum_Write_pieces (pieces : list (list byte)) :
  Sha256.Sum (fold_left Sha256.Write pieces Sha256.New)
  = Sha256.Sum256 (concat pieces).
Proof.
  apply Sum_absorbed.
  enough (G : forall d data, absorbed d data ->
                             absorbed (fold_left Sha256.Write pieces d)
                                      (data ++ concat pieces))
    by apply (G _ [] absorbed_New).
  induction pieces as [|p pieces IH]; intros d data H; cbn [fold_left concat].
  - now rewrite app_nil_r.
  - rewrite app_assoc. apply IH. now apply Write_absorbed.
Qed.

(** ** Reading a file into the digest *)

Lemma take_skipn {A} (n : N) (l : list A) :
  take n l ++ skipn (length (take n l)) l = l.
Proof.
  revert n; induction l as [|x l IH]; intros n; [reflexivity|].
  cbn [take]. destruct (n =? 0)%N; [reflexivity|].
  cbn [length skipn app]. now rewrite IH.
Qed.

Lemma take_nonempty {A} (n : N) (x : A) (l : list A) :
  (0 < n)%N -> (1 <= length (take n (x :: l)))%nat.
Proof.
  intros Hn. cbn [take]. destruct (n =? 0)%N eqn:E.
  - apply N.eqb_eq in E. lia.
  - cbn [length]. lia.
Qed.

(** With a buffer that is not empty, the loop of [io.CopyBuffer] ends
    before its fuel does: the digest has absorbed all the bytes of the
    file, and the error is the read error of the file, if it has one. *)
Lemma copyLoop_spec (buflen : N) (failure : option gostring) (fuel : nat) :
  (0 < buflen)%N ->
  forall (rest : list byte) (dst : Sha256.digest) (data : list byte) (written : Z),
    (length rest < fuel)%nat ->
    absorbed dst data ->
    exists dst',
      Io.copyLoop fuel buflen failure rest dst written
      = Some (dst', written + Z.of_nat (length rest), option_map Err failure)
      /\ absorbed dst' (data ++ rest).
Proof.
  intros Hbuf. induction fuel as [|fuel IH]; intros rest dst data written Hlen Habs.
  - lia.
  - cbn [Io.copyLoop]. destruct rest as [|c rest].
    + cbn [Io.Read length Nat.ltb Nat.leb]. exists dst.
      rewrite Z.add_0_r, app_nil_r. split; [|exact Habs].
      destruct failure; reflexivity.
    + unfold Io.Read.
      pose proof (take_nonempty buflen c rest Hbuf) as Hnr.
      pose proof (take_skipn buflen (c :: rest)) as Hsplit.
      set (buf := take buflen (c :: rest)) in *.
      destruct (0 <? length buf)%nat eqn:E; [|apply Nat.ltb_ge in E; lia].
      destruct (IH (skipn (length buf) (c :: rest)) (Sha256.Write dst buf)
                   (data ++ buf) (written + Z.of_nat (length buf)))
        as [dst' [Hrun Habs']].
      * rewrite length_skipn. cbn [length] in *. lia.
      * now apply Write_absorbed.
      * exists dst'. rewrite Hrun. split.
        -- f_equal. f_equal. f_equal.
           apply (f_equal (@length byte)) in Hsplit.
           rewrite length_app in Hsplit. lia.
        -- rewrite <- app_assoc, Hsplit in Habs'. exact Habs'.
Qed.

Lemma CopyBuffer_spec (src : Stream) (buflen : N) :
  (0 < buflen)%N ->
  exists dst',
    Io.CopyBuffer Sha256.New src buflen
    = (dst', Z.of_nat (length (bytes src)), option_map Err (failure src))
    /\ absorbed dst' (bytes src).
Proof.
  intros Hbuf. unfold Io.CopyBuffer.
  destruct (copyLoop_spec buflen (failure src) (S (length (bytes src))) Hbuf
                          (bytes src) Sha256.New [] 0 (Nat.lt_succ_diag_r _)
                          absorbed_New)
    as [dst' [Hrun Habs]].
  rewrite Hrun. exists dst'. split; [reflexivity | exact Habs].
Qed.

(** ** hashFile *)

Lemma hashFile_spec (env : Env) (path : gostring) :
  hashFile env path =
  match Open env path with
  | inl msg => ([], Some (Err msg))
  | inr file =>
    match failure file with
    | Some msg => ([], Some (Err msg))
    | None => (Sprintf_x (Sha256.Sum256 (bytes file)), None)
    end
  end.
Proof.
  unfold hashFile. destruct (Open env path) as [msg|file]; [reflexivity|].
  destruct (CopyBuffer_spec file (1024 * 1024)%N eq_refl) as [dst' [Hrun Habs]].
  rewrite Hrun. destruct (failure file); cbn [option_map]; [reflexivity|].
  now rewrite (Sum_absorbed dst' (bytes file) Habs).
Qed.

(** ** The digest as text *)

Lemma round_length (st : list Z) (kw : Z * Z) :
  length st = 8%nat -> length (Sha256.round st kw) = 8%nat.
Proof.
  intros H. do 9 (destruct st as [|? st]; try discriminate H). reflexivity.
Qed.

Lemma fold_round_length (kws : list (Z * Z)) (st : list Z) :
  length st = 8%nat -> length (fold_left Sha256.round kws st) = 8%nat.
Proof.
  revert st; induction kws as [|kw kws IH]; intros st H; [exact H|].
  cbn [fold_left]. apply IH. now apply round_length.
Qed.

Lemma block1_length (st : list Z) (bs : list byte) :
  length st = 8%nat -> length (Sha256.block1 st bs) = 8%nat.
Proof.
  intros H. unfold Sha256.block1.
  rewrite length_map, length_combine, fold_round_length by exact H.
  rewrite H. reflexivity.
Qed.

Lemma blocks_length (n : nat) (st : list Z) (bs : list byte) :
  length st = 8%nat -> length (Sha256.blocks n st bs) = 8%nat.
Proof.
  revert st bs; induction n as [|n IH]; intros st bs H; [exact H|].
  cbn [Sha256.blocks]. apply IH. now apply block1_length.
Qed.

Lemma Sum256_length (msg : list byte) : length (Sha256.Sum256 msg) = 32%nat.
Proof.
  unfold Sha256.Sum256. cbv zeta.
  pose proof (blocks_length
                (length (msg ++ Sha256.padding (Z.of_nat (length msg))) / Sha256.chunk)
                Sha256.init (msg ++ Sha256.padding (Z.of_nat (length msg))) eq_refl) as H.
  revert H. generalize (Sha256.blocks
                (length (msg ++ Sha256.padding (Z.of_nat (length msg))) / Sha256.chunk)
                Sha256.init (msg ++ Sha256.padding (Z.of_nat (length msg)))).
  intros st H. do 9 (destruct st as [|? st]; try discriminate H).
  cbn [flat_map]. rewrite !length_app, !length_be_bytes. reflexivity.
Qed.

Lemma Sprintf_x_length (bs : list byte) :
  length (Sprintf_x bs) = (2 * length bs)%nat.
Proof.
  induction bs as [|b bs IH]; [reflexivity|].
  unfold Sprintf_x in *. cbn [flat_map app length]. rewrite IH. lia.
Qed.

Lemma Sprintf_x_lower_hex (bs : list byte) :
  forallb is_lower_hex (Sprintf_x bs) = true.
Proof.
  induction bs as [|b bs IH]; [reflexivity|].
  unfold Sprintf_x in *. cbn [flat_map app forallb]. rewrite IH.
  destruct b; reflexivity.
Qed.

(** ** The walk *)

(** Induction on a tree, with the property for all entries of a
    directory. *)
Lemma Entry_forall_ind (P : Entry -> Prop) :
  (forall path, P (NonDir path)) ->
  (forall path readdir_err entries,
      Forall P entries -> P (Dir path readdir_err entries)) ->
  forall e, P e.
Proof.
  intros HN HD.
  refine (fix IH (e : Entry) : P e :=
            match e with
            | NonDir path => HN path
            | Dir path readdir_err entries =>
              HD path readdir_err entries
                 ((fix all (l : list Entry) : Forall P l :=
                     match l with
                     | [] => Forall_nil P
                     | d :: l' => Forall_cons d (IH d) (all l')
                     end) entries)
            end).
Qed.

Lemma walkDir_Dir {S} (fn : gostring -> bool -> option GoError -> S -> S * option GoError)
      (path : gostring) (readdir_err : option gostring) (entries : list Entry) (st : S) :
  walkDir fn (Dir path readdir_err entries) st =
  let '(st1, err) := fn path true None st in
  match err with
  | Some err => (st1, skip_dir err)
  | None =>
    let '(st2, err) :=
      match readdir_err with
      | Some msg => fn path true (Some (Err msg)) st1
      | None => (st1, None)
      end in
    match err with
    | Some err => (st2, skip_dir err)
    | None => walkEntries fn entries st2
    end
  end.
Proof. reflexivity. Qed.

Section Visit.

Variable env : Env.
Variable exts : list gostring.

Let visit := processFiles_visit env exts.

(** The closure on a directory, and on an error of the walk. *)
Lemma visit_dir (path : gostring) (s : State * list HashedFileInfo) :
  visit path true None s = (s, None).
Proof. destruct s. reflexivity. Qed.

Lemma visit_err (path : gostring) (d : bool) (err : GoError)
      (s : State * list HashedFileInfo) :
  visit path d (Some err) s = (s, Some err).
Proof. destruct s. reflexivity. Qed.

(** The closure on a file: it fails exactly when the file passes the
    filter and cannot be hashed or statted, with an error that is none
    of the sentinels; it never touches the files of the state; and it
    records nothing but files that pass the filter. *)
Lemma visit_file (path : gostring) (s : State * list HashedFileInfo) :
  exists s',
    (if has_failure env exts (NonDir path)
     then exists msg, visit path false None s = (s', Some (Err msg))
     else visit path false None s = (s', None))
    /\ (files (fst s') = files (fst s) /\ stderr (fst s') = stderr (fst s))
    /\ (Forall (fun r => matchesExtension (Path r) exts = true) (snd s) ->
        Forall (fun r => matchesExtension (Path r) exts = true) (snd s')).
Proof.
  destruct s as [st recs]. unfold visit, processFiles_visit.
  cbn [has_failure]. unfold cannot_hash, cannot_stat.
  rewrite hashFile_spec.
  destruct (matchesExtension path exts) eqn:Em; cbn [andb].
  2: { exists (st, recs). repeat split; auto. }
  destruct (Open env path) as [msg|file].
  { eexists. cbn [orb]. split; [eexists; reflexivity|]. split; auto. }
  destruct (failure file) as [msg|].
  { eexists. cbn [orb]. split; [eexists; reflexivity|]. split; auto. }
  cbn [orb]. destruct (Stat env path) as [msg|info].
  { eexists. split; [eexists; reflexivity|]. split; auto. }
  eexists. split; [reflexivity|]. split; [split; reflexivity|].
  cbn [snd]. intros H. apply Forall_app. split; [exact H|].
  constructor; [exact Em | constructor].
Qed.

(** The same three facts for the walk of a tree. *)
Lemma walkDir_visit (e : Entry) :
  forall s : State * list HashedFileInfo,
  exists s',
    (if has_failure env exts e
     then exists msg, walkDir visit e s = (s', Some (Err msg))
     else walkDir visit e s = (s', None))
    /\ (files (fst s') = files (fst s) /\ stderr (fst s') = stderr (fst s))
    /\ (Forall (fun r => matchesExtension (Path r) exts = true) (snd s) ->
        Forall (fun r => matchesExtension (Path r) exts = true) (snd s')).
Proof.
  induction e as [path | path readdir_err entries IH] using Entry_forall_ind;
    intros s.
  - apply visit_file.
  - rewrite walkDir_Dir, visit_dir. destruct readdir_err as [msg|].
    + rewrite visit_err. exists s. cbn [has_failure skip_dir is_SkipDir].
      split; [now exists msg | split; auto].
    + cbn [has_failure]. revert s.
      induction IH as [|d l Hd Hl IHl]; intros s.
      * exists s. cbn [existsb walkEntries]. repeat split; auto.
      * cbn [existsb walkEntries].
        destruct (Hd s) as (s1 & Hrun & Hfiles & Hrecs).
        destruct (has_failure env exts d).
        -- destruct Hrun as [msg Hrun]. rewrite Hrun. exists s1.
           cbn [orb skip_dir is_SkipDir]. split; [now exists msg | split; auto].
        -- rewrite Hrun. cbn [orb].
           destruct (IHl s1) as (s2 & Hrun2 & Hfiles2 & Hrecs2).
           exists s2. split; [exact Hrun2|].
           split; [split; destruct Hfiles, Hfiles2; congruence | auto].
Qed.

(** Nothing behind the first failure is visited: the walk of a tree is
    the walk of the tree cut off there. *)
Lemma walkDir_prune (e : Entry) :
  forall s : State * list HashedFileInfo,
    walkDir visit (prune env exts e) s = walkDir visit e s.
Proof.
  induction e as [path | path readdir_err entries IH] using Entry_forall_ind;
    intros s; [reflexivity|].
  destruct readdir_err as [msg|].
  - cbn [prune]. rewrite !walkDir_Dir, visit_dir, visit_err. reflexivity.
  - cbn [prune]. rewrite !walkDir_Dir, visit_dir. revert s.
    induction IH as [|d l Hd Hl IHl]; intros s; [reflexivity|].
    cbn [prune_entries]. fold (prune_entries env exts (prune env exts)).
    destruct (walkDir_visit d s) as (s1 & Hrun & _).
    destruct (has_failure env exts d).
    + destruct Hrun as [msg Hrun]. cbn [walkEntries].
      rewrite Hd, Hrun. reflexivity.
    + cbn [walkEntries]. rewrite Hrun. apply IHl.
Qed.

End Visit.

(** ** processFiles *)

Lemma files_printToStdOut (s : gostring) (st : State) :
  files (printToStdOut s st) = files st.
Proof. reflexivity. Qed.

(** [processFiles] fails exactly when an error occurs in the walk, then
    without any record; its records pass the filter; and it leaves the
    files of the state alone. *)
Lemma processFiles_spec (env : Env) (folderPath : gostring) (exts : list gostring)
      (st : State) :
  exists st',
    files st' = files st
    /\ stderr st' = stderr st
    /\ if walk_fails env exts folderPath
       then exists msg,
           processFiles env folderPath exts st = (st', ([], Some (Err msg)))
       else exists recs,
           processFiles env folderPath exts st = (st', (recs, None))
           /\ Forall (fun r => matchesExtension (Path r) exts = true) recs.
Proof.
  unfold processFiles, walk_fails, WalkDir.
  set (st0 := printToStdOut (lit "Scanning folder: " ++ folderPath ++ newline) st).
  set (st1 := match exts with
              | [] => printToStdOut (lit "Processing all file types" ++ newline) st0
              | _ :: _ => printToStdOut _ st0
              end).
  assert (Hst1 : files st1 = files st) by (unfold st1; destruct exts; reflexivity).
  assert (Hst1' : stderr st1 = stderr st) by (unfold st1; destruct exts; reflexivity).
  destruct (Lstat_tree env folderPath) as [msg | e].
  - rewrite visit_err. cbn [is_SkipDir is_SkipAll orb].
    exists st1. split; [exact Hst1 | split; [exact Hst1' | now exists msg]].
  - destruct (walkDir_visit env exts e (st1, []))
      as ([st' recs] & Hrun & [Hfiles Hstderr] & Hrecs).
    cbn [fst snd] in *. exists st'. split; [congruence|]. split; [congruence|].
    destruct (has_failure env exts e).
    + destruct Hrun as [msg Hrun]. rewrite Hrun.
      cbn [is_SkipDir is_SkipAll orb]. now exists msg.
    + rewrite Hrun. exists recs. split; [reflexivity | apply Hrecs; constructor].
Qed.

(** The walk root of [processFiles] can be cut off at its first failure
    without any change of what [processFiles] does. *)
Lemma processFiles_prune (env env' : Env) (folderPath : gostring)
      (exts : list gostring) (e : Entry) (st : State) :
  Lstat_tree env folderPath = RootEntry e ->
  Lstat_tree env' folderPath = RootEntry (prune env exts e) ->
  Open env' = Open env -> Stat env' = Stat env ->
  processFiles env' folderPath exts st = processFiles env folderPath exts st.
Proof.
  intros He He' Hopen Hstat. unfold processFiles, WalkDir. rewrite He, He'.
  assert (Hvisit : processFiles_visit env' exts = processFiles_visit env exts).
  { unfold processFiles_visit, hashFile. now rewrite Hopen, Hstat. }
  rewrite Hvisit, walkDir_prune. reflexivity.
Qed.

(** ** The buffered writer *)

Lemma same_but_content_refl (st : State) : same_but_content st st.
Proof.
  repeat split. destruct (files st) as [|[name c] older]; [reflexivity|].
  now exists c.
Qed.

Lemma same_but_content_trans (st1 st2 st3 : State) :
  same_but_content st1 st2 -> same_but_content st2 st3 -> same_but_content st1 st3.
Proof.
  intros (Ho & He & Hf) (Ho' & He' & Hf'). repeat split; try congruence.
  destruct (files st1) as [|[name c] older].
  - rewrite Hf in Hf'. exact Hf'.
  - destruct Hf as [c' Hf]. rewrite Hf in Hf'. exact Hf'.
Qed.

Lemma File_Write_same (env : Env) (b : list byte) (st : State) :
  same_but_content st (fst (fst (File_Write env b st))).
Proof.
  unfold File_Write. destruct (files st) as [|[name c] older] eqn:E.
  - cbn [fst]. apply same_but_content_refl.
  - destruct (_ <=? _)%nat; cbn [fst]; repeat split; cbn [files]; rewrite E;
      eexists; reflexivity.
Qed.

Lemma Flush_same (env : Env) (bs : Bufio.Writer * State) :
  same_but_content (snd bs) (snd (fst (Bufio.Flush env bs))).
Proof.
  destruct bs as [b st]. unfold Bufio.Flush.
  destruct (Bufio.err b); [apply same_but_content_refl|].
  destruct (_ =? _)%nat; [apply same_but_content_refl|].
  pose proof (File_Write_same env (Bufio.buf b) st) as H.
  destruct (File_Write env (Bufio.buf b) st) as [[st' n] [e|]]; exact H.
Qed.

Lemma WriteByte_same (env : Env) (c : byte) (bs : Bufio.Writer * State) :
  same_but_content (snd bs) (snd (fst (Bufio.WriteByte env c bs))).
Proof.
  destruct bs as [b st]. unfold Bufio.WriteByte.
  destruct (Bufio.err b); [apply same_but_content_refl|].
  destruct (Bufio.Available b <=? 0)%nat.
  - pose proof (Flush_same env (b, st)) as H.
    destruct (Bufio.Flush env (b, st)) as [[b1 st1] [e|]]; exact H.
  - apply same_but_content_refl.
Qed.

Lemma writeStringLoop_same (env : Env) (fuel : nat) :
  forall (s : gostring) (bs : Bufio.Writer * State),
    same_but_content (snd bs) (snd (snd (Bufio.writeStringLoop fuel env s bs))).
Proof.
  induction fuel as [|fuel IH]; intros s [b st]; cbn [Bufio.writeStringLoop].
  - apply same_but_content_refl.
  - destruct (_ && _); [|apply same_but_content_refl].
    destruct (Bufio.Buffered b =? 0)%nat.
    + pose proof (File_Write_same env s st) as H.
      destruct (File_Write env s st) as [[st' n] e]. cbn [fst snd] in H.
      eapply same_but_content_trans; [exact H | apply IH].
    + set (b' := {| Bufio.buf := _; Bufio.err := _ |}).
      pose proof (Flush_same env (b', st)) as H.
      destruct (Bufio.Flush env (b', st)) as [bs' e]. cbn [fst snd] in H.
      eapply same_but_content_trans; [exact H | apply IH].
Qed.

Lemma WriteString_same (env : Env) (s : gostring) (bs : Bufio.Writer * State) :
  same_but_content (snd bs) (snd (fst (Bufio.WriteString env s bs))).
Proof.
  unfold Bufio.WriteString.
  pose proof (writeStringLoop_same env 2 s bs) as H.
  destruct (Bufio.writeStringLoop 2 env s bs) as [s' [b st]].
  destruct (Bufio.err b); exact H.
Qed.

Lemma calls_same (env : Env) (cs : list Bufio.Call) :
  forall bs : Bufio.Writer * State,
    same_but_content (snd bs) (snd (fst (Bufio.calls env cs bs))).
Proof.
  induction cs as [|c cs IH]; intros bs; cbn [Bufio.calls].
  - apply same_but_content_refl.
  - assert (H : same_but_content (snd bs) (snd (fst (Bufio.call env c bs)))).
    { destruct c; [apply WriteByte_same | apply WriteString_same]. }
    destruct (Bufio.call env c bs) as [bs1 [e|]]; [exact H|].
    eapply same_but_content_trans; [exact H | apply IH].
Qed.

Lemma rows_same (env : Env) (recs : list HashedFileInfo) :
  forall ws : Bufio.Writer * State,
    same_but_content (snd ws) (snd (fst (writeToCsv_rows env recs ws))).
Proof.
  induction recs as [|r recs IH]; intros ws; cbn [writeToCsv_rows].
  - apply same_but_content_refl.
  - pose proof (calls_same env (Csv.record_calls (csv_row r)) ws) as H.
    unfold Csv.Write.
    destruct (Bufio.calls env (Csv.record_calls (csv_row r)) ws) as [ws1 [e|]];
      [exact H|].
    eapply same_but_content_trans; [exact H | apply IH].
Qed.

(** With room on the device nothing fails, and every byte arrives. *)

Lemma fits_app_l (env : Env) (a b : list byte) : fits env (a ++ b) -> fits env a.
Proof.
  unfold fits. destruct (capacity env); [|trivial].
  rewrite length_app. lia.
Qed.

Lemma File_Write_fits (env : Env) (b : list byte) (st : State)
      (name : gostring) (content : list byte) (older : list (gostring * list byte)) :
  files st = (name, content) :: older ->
  fits env (content ++ b) ->
  File_Write env b st
  = ({| stdout := stdout st; stderr := stderr st;
        files := (name, content ++ b) :: older |}, length b, None).
Proof.
  intros Hf Hfit. unfold File_Write. rewrite Hf.
  assert (E : (length b <=? match capacity env with
                            | Some cap => cap - length content
                            | None => length b
                            end)%nat = true).
  { apply Nat.leb_le. unfold fits in Hfit. destruct (capacity env); [|lia].
    rewrite length_app in Hfit. lia. }
  rewrite E. reflexivity.
Qed.

Lemma Flush_writing (env : Env) (bs : Bufio.Writer * State) (name : gostring)
      (older : list (gostring * list byte)) (logical : list byte) :
  writing bs name older logical -> fits env logical ->
  exists bs',
    Bufio.Flush env bs = (bs', None)
    /\ writing bs' name older logical
    /\ Bufio.buf (fst bs') = []
    /\ files (snd bs') = (name, logical) :: older.
Proof.
  destruct bs as [b st]. intros (Herr & Hlen & c & Hf & Hlog) Hfit.
  cbn [fst snd] in *. unfold Bufio.Flush. rewrite Herr.
  destruct (length (Bufio.buf b) =? 0)%nat eqn:E.
  - apply Nat.eqb_eq in E. destruct (Bufio.buf b) eqn:Eb; [|discriminate E].
    rewrite app_nil_r in Hlog. subst c.
    exists (b, st). unfold writing. repeat split; cbn [fst snd]; auto.
    + rewrite Eb. cbn [length]. unfold Bufio.defaultBufSize. lia.
    + exists logical. rewrite Eb, app_nil_r. auto.
  - rewrite (File_Write_fits env (Bufio.buf b) st name c older Hf)
      by (rewrite Hlog; exact Hfit).
    eexists. split; [reflexivity|].
    unfold writing. cbn [fst snd files Bufio.buf Bufio.err].
    repeat split.
    + cbn [length]. unfold Bufio.defaultBufSize. lia.
    + exists logical. rewrite app_nil_r, Hlog. auto.
    + now rewrite Hlog.
Qed.

Lemma WriteByte_writing (env : Env) (c : byte) (bs : Bufio.Writer * State)
      (name : gostring) (older : list (gostring * list byte)) (logical : list byte) :
  writing bs name older logical -> fits env (logical ++ [c]) ->
  exists bs',
    Bufio.WriteByte env c bs = (bs', None)
    /\ writing bs' name older (logical ++ [c]).
Proof.
  intros Hw Hfit. pose proof Hw as (Herr & Hlen & content & Hf & Hlog).
  destruct bs as [b st]. cbn [fst snd] in *.
  unfold Bufio.WriteByte. rewrite Herr.
  destruct (Bufio.Available b <=? 0)%nat eqn:E.
  - destruct (Flush_writing env (b, st) name older logical Hw (fits_app_l _ _ _ Hfit))
      as ([b1 st1] & Hrun & (Herr1 & _ & c1 & Hf1 & Hlog1) & Hbuf1 & _).
    cbn [fst snd] in *. rewrite Hrun. eexists. split; [reflexivity|].
    unfold writing. repeat split; cbn [fst snd Bufio.buf Bufio.err]; auto.
    + rewrite Hbuf1. cbn [app length]. unfold Bufio.defaultBufSize. lia.
    + exists c1. split; [exact Hf1|]. now rewrite app_assoc, Hlog1.
  - apply Nat.leb_gt in E. unfold Bufio.Available in E.
    eexists. split; [reflexivity|].
    unfold writing. repeat split; cbn [fst snd Bufio.buf Bufio.err]; auto.
    + rewrite length_app. cbn [length]. lia.
    + exists content. split; [exact Hf|]. now rewrite app_assoc, Hlog.
Qed.

Lemma WriteString_writing (env : Env) (s : gostring) (bs : Bufio.Writer * State)
      (name : gostring) (older : list (gostring * list byte)) (logical : list byte) :
  writing bs name older logical -> fits env (logical ++ s) ->
  exists bs',
    Bufio.WriteString env s bs = (bs', None)
    /\ writing bs' name older (logical ++ s).
Proof.
  intros Hw Hfit. pose proof Hw as (Herr & Hlen & content & Hf & Hlog).
  destruct bs as [b st]. cbn [fst snd] in *.
  unfold Bufio.WriteString. cbn [Bufio.writeStringLoop].
  rewrite Herr. cbn [Bufio.isNone]. rewrite andb_true_r.
  destruct (Bufio.Available b <? length s)%nat eqn:E1.
  - destruct (Bufio.Buffered b =? 0)%nat eqn:E2.
    + (* the buffer is empty: the string goes to the file as it is *)
      apply Nat.eqb_eq in E2. unfold Bufio.Buffered in E2.
      destruct (Bufio.buf b) eqn:Eb; [|discriminate E2].
      rewrite app_nil_r in Hlog. subst content.
      rewrite (File_Write_fits env s st name logical older Hf Hfit).
      rewrite skipn_all. cbn [length Nat.ltb Nat.leb andb Bufio.err Bufio.buf].
      eexists. split; [reflexivity|].
      unfold writing. cbn [fst snd files Bufio.buf Bufio.err].
      rewrite firstn_nil. cbn [app length]. repeat split.
      * unfold Bufio.defaultBufSize. lia.
      * exists (logical ++ s). now rewrite app_nil_r.
    + (* the buffer is filled up and flushed *)
      set (n := Bufio.Available b).
      set (b' := {| Bufio.buf := Bufio.buf b ++ firstn n s; Bufio.err := None |}).
      apply Nat.ltb_lt in E1. fold n in E1.
      assert (Hw' : writing (b', st) name older (logical ++ firstn n s)).
      { unfold writing, b'. cbn [fst snd Bufio.buf Bufio.err]. repeat split; auto.
        - rewrite length_app, length_firstn. unfold n, Bufio.Available in *. lia.
        - exists content. split; [exact Hf|]. now rewrite app_assoc, Hlog. }
      assert (Hfit' : fits env (logical ++ firstn n s)).
      { apply (fits_app_l env _ (skipn n s)).
        now rewrite <- app_assoc, firstn_skipn. }
      destruct (Flush_writing env (b', st) name older _ Hw' Hfit')
        as ([b1 st1] & Hrun & (Herr1 & _ & c1 & Hf1 & Hlog1) & Hbuf1 & Hfiles1).
      cbn [fst snd] in *. rewrite Hrun. rewrite Herr1. cbn [Bufio.isNone].
      rewrite andb_true_r. unfold Bufio.Available at 1, Bufio.Buffered.
      rewrite Hbuf1. cbn [length Nat.eqb].
      rewrite Hbuf1, app_nil_r in Hlog1. subst c1.
      assert (Hrest : (logical ++ firstn n s) ++ skipn n s = logical ++ s)
        by now rewrite <- app_assoc, firstn_skipn.
      destruct (Bufio.defaultBufSize - 0 <? length (skipn n s))%nat eqn:E3.
      * (* the rest is longer than the buffer: it goes to the file *)
        rewrite (File_Write_fits env (skipn n s) st1 name _ older Hf1)
          by (rewrite Hrest; exact Hfit).
        cbn [Bufio.err Bufio.buf]. eexists. split; [reflexivity|].
        unfold writing. cbn [fst snd files Bufio.buf Bufio.err].
        rewrite skipn_all, firstn_nil. cbn [length app]. repeat split.
        -- unfold Bufio.defaultBufSize. lia.
        -- exists (logical ++ s). rewrite app_nil_r, Hrest. auto.
      * (* the rest fits into the buffer *)
        apply Nat.ltb_ge in E3. rewrite Herr1. eexists. split; [reflexivity|].
        unfold writing. cbn [fst snd Bufio.buf Bufio.err].
        unfold Bufio.Available. rewrite Hbuf1. cbn [length app].
        rewrite Nat.min_r by lia. rewrite firstn_all. repeat split.
        -- lia.
        -- exists (logical ++ firstn n s). split; [exact Hf1 | exact Hrest].
  - (* the string fits into the buffer *)
    apply Nat.ltb_ge in E1. rewrite Herr. eexists. split; [reflexivity|].
    unfold writing. cbn [fst snd Bufio.buf Bufio.err].
    rewrite Nat.min_r by exact E1. rewrite firstn_all. repeat split.
    + rewrite length_app. unfold Bufio.Available in E1. lia.
    + exists content. split; [exact Hf|]. now rewrite app_assoc, Hlog.
Qed.

Lemma calls_writing (env : Env) (cs : list Bufio.Call) :
  forall (bs : Bufio.Writer * State) (name : gostring)
         (older : list (gostring * list byte)) (logical : list byte),
    writing bs name older logical ->
    fits env (logical ++ flat_map Bufio.payload cs) ->
    exists bs',
      Bufio.calls env cs bs = (bs', None)
      /\ writing bs' name older (logical ++ flat_map Bufio.payload cs).
Proof.
  induction cs as [|c cs IH]; intros bs name older logical Hw Hfit.
  - exists bs. cbn [Bufio.calls flat_map]. rewrite app_nil_r. auto.
  - cbn [Bufio.calls flat_map] in *. rewrite app_assoc in Hfit.
    assert (H1 : exists bs1, Bufio.call env c bs = (bs1, None)
                             /\ writing bs1 name older (logical ++ Bufio.payload c)).
    { destruct c as [c|s]; cbn [Bufio.call Bufio.payload].
      - apply WriteByte_writing; [exact Hw | exact (fits_app_l _ _ _ Hfit)].
      - apply WriteString_writing; [exact Hw | exact (fits_app_l _ _ _ Hfit)]. }
    destruct H1 as (bs1 & Hrun & Hw1). rewrite Hrun.
    destruct (IH bs1 name older _ Hw1 Hfit) as (bs' & Hrun' & Hw').
    exists bs'. rewrite app_assoc. auto.
Qed.

Lemma rows_writing (env : Env) (recs : list HashedFileInfo) :
  forall (ws : Bufio.Writer * State) (name : gostring)
         (older : list (gostring * list byte)) (logical : list byte),
    writing ws name older logical ->
    fits env (logical ++ flat_map (fun r => Csv.encode (csv_row r)) recs) ->
    exists ws',
      writeToCsv_rows env recs ws = (ws', None)
      /\ writing ws' name older
                 (logical ++ flat_map (fun r => Csv.encode (csv_row r)) recs).
Proof.
  induction recs as [|r recs IH]; intros ws name older logical Hw Hfit.
  - exists ws. cbn [writeToCsv_rows flat_map]. rewrite app_nil_r. auto.
  - cbn [writeToCsv_rows flat_map] in *. rewrite app_assoc in Hfit.
    destruct (calls_writing env (Csv.record_calls (csv_row r)) ws name older logical
                            Hw (fits_app_l _ _ _ Hfit)) as (ws1 & Hrun & Hw1).
    unfold Csv.Write. rewrite Hrun. fold (Csv.encode (csv_row r)) in Hw1.
    destruct (IH ws1 name older _ Hw1 Hfit) as (ws' & Hrun' & Hw').
    exists ws'. rewrite app_assoc. auto.
Qed.

(** ** writeToCsv *)

Lemma writing_same (ws ws' : Bufio.Writer * State) (name : gostring)
      (older : list (gostring * list byte)) (logical logical' : list byte) :
  writing ws name older logical -> writing ws' name older logical' ->
  same_but_content (snd ws) (snd ws') ->
  stdout (snd ws') = stdout (snd ws) /\ stderr (snd ws') = stderr (snd ws).
Proof. intros _ _ (Ho & He & _). auto. Qed.

(** When the file can be created and the device has room for the report,
    [writeToCsv] succeeds: the new file holds the header and one row for
    each record, in their order, and nothing else; the path of the file
    is reported on standard output. *)
Lemma writeToCsv_layout (env : Env) (recs : list HashedFileInfo) (st : State) :
  Create_err env (outputFilename env) = None ->
  fits env (report recs) ->
  exists st',
    writeToCsv env recs st = (st', None)
    /\ files st' = (outputFilename env, report recs) :: files st
    /\ stdout st' = stdout st ++ lit "Output written to: "
                           ++ match Abs env (outputFilename env) with
                              | inl _ => outputFilename env
                              | inr absPath => absPath
                              end ++ newline
    /\ stderr st' = stderr st.
Proof.
  intros Hcreate Hfit. unfold writeToCsv, writeToCsv_writer, os_Create.
  rewrite Hcreate.
  set (st0 := {| stdout := stdout st; stderr := stderr st;
                 files := (outputFilename env, []) :: files st |}).
  assert (Hw0 : writing (Bufio.NewWriter, st0) (outputFilename env) (files st) []).
  { unfold writing. cbn. repeat split; [unfold Bufio.defaultBufSize; lia|].
    now exists []. }
  unfold report in Hfit.
  destruct (calls_writing env (Csv.record_calls csv_header) _ _ _ _ Hw0
                          (fits_app_l _ _ _ Hfit)) as (ws1 & Hrun1 & Hw1).
  pose proof (calls_same env (Csv.record_calls csv_header) (Bufio.NewWriter, st0))
    as Hsame1.
  unfold Csv.Write at 1. rewrite Hrun1 in *. cbn [app] in Hw1.
  fold (Csv.encode csv_header) in Hw1.
  destruct (rows_writing env recs ws1 _ _ _ Hw1 Hfit) as (ws2 & Hrun2 & Hw2).
  pose proof (rows_same env recs ws1) as Hsame2.
  rewrite Hrun2 in *. cbn [fst snd] in *.
  destruct ws2 as [writer st2]. cbn [snd] in *.
  set (st3 := printToStdOut _ st2).
  assert (Hw3 : writing (writer, st3) (outputFilename env) (files st)
                        (Csv.encode csv_header
                           ++ flat_map (fun r => Csv.encode (csv_row r)) recs)).
  { exact Hw2. }
  destruct (Flush_writing env (writer, st3) _ _ _ Hw3 Hfit)
    as ([w4 st4] & Hrun4 & _ & _ & Hfiles4).
  pose proof (Flush_same env (writer, st3)) as Hsame4.
  unfold writeToCsv_deferred. rewrite Hrun4 in *. cbn [fst snd] in *.
  exists st4. split; [reflexivity|]. split; [exact Hfiles4|].
  destruct Hsame1 as (Ho1 & He1 & _). destruct Hsame2 as (Ho2 & He2 & _).
  destruct Hsame4 as (Ho4 & He4 & _).
  split.
  - rewrite Ho4. unfold st3. cbn [stdout printToStdOut]. rewrite Ho2, Ho1.
    reflexivity.
  - rewrite He4. unfold st3. cbn [stderr printToStdOut]. rewrite He2, He1.
    reflexivity.
Qed.

Lemma rows_error (env : Env) (recs : list HashedFileInfo) :
  forall (ws ws' : Bufio.Writer * State) (e : GoError),
    writeToCsv_rows env recs ws = (ws', Some e) ->
    exists cause, e = Errorf_w (lit "failed to write content to CSV: ") cause.
Proof.
  induction recs as [|r recs IH]; intros ws ws' e; cbn [writeToCsv_rows].
  - discriminate.
  - destruct (Csv.Write env (csv_row r) ws) as [ws1 [cause|]].
    + intros [= _ <-]. now exists cause.
    + apply IH.
Qed.

(** What [writeToCsv] leaves in every case: standard error as it was;
    no file and the error of [os.Create] when the file cannot be
    created; otherwise the new file, with whatever reached it, and no
    error or the error of a write. *)
Lemma writeToCsv_outcome (env : Env) (recs : list HashedFileInfo) (st : State) :
  exists st' err,
    writeToCsv env recs st = (st', err)
    /\ stderr st' = stderr st
    /\ match Create_err env (outputFilename env) with
       | Some msg =>
         st' = st
         /\ err = Some (Errorf_w (lit "failed to create CSV file: ") (Err msg))
       | None =>
         (exists content, files st' = (outputFilename env, content) :: files st)
         /\ (err = None
             \/ exists cause,
                 err = Some (Errorf_w (lit "failed to write header to CSV: ") cause)
                 \/ err = Some (Errorf_w (lit "failed to write content to CSV: ") cause))
       end.
Proof.
  unfold writeToCsv, writeToCsv_writer, os_Create.
  destruct (Create_err env (outputFilename env)) as [msg|].
  { exists st. eexists. split; [reflexivity|]. auto. }
  set (st0 := {| stdout := stdout st; stderr := stderr st;
                 files := (outputFilename env, []) :: files st |}).
  set (open_on := fun s : State =>
                    stderr s = stderr st
                    /\ exists content,
                        files s = (outputFilename env, content) :: files st).
  assert (Hkeep : forall s s', open_on s -> same_but_content s s' -> open_on s').
  { intros s s' [He [c Hf]] (_ & He' & Hf'). rewrite Hf in Hf'.
    split; [congruence | exact Hf']. }
  assert (Hfinish : forall ws : Bufio.Writer * State,
             open_on (snd ws) -> open_on (snd (writeToCsv_deferred env ws))).
  { intros ws Hs. apply (Hkeep _ _ Hs). apply Flush_same. }
  assert (H0 : open_on st0) by (split; [reflexivity | now exists []]).
  pose proof (calls_same env (Csv.record_calls csv_header) (Bufio.NewWriter, st0))
    as Hsame1.
  unfold Csv.Write at 1.
  destruct (Bufio.calls env (Csv.record_calls csv_header) (Bufio.NewWriter, st0))
    as [ws1 [cause|]]; cbn [fst snd] in Hsame1;
    pose proof (Hkeep _ _ H0 Hsame1) as H1.
  { destruct (Hfinish ws1 H1) as [He Hf].
    destruct (writeToCsv_deferred env ws1) as [w st'] eqn:Ed. cbn [snd] in *.
    exists st'. eexists. split; [reflexivity|]. split; [exact He|].
    split; [exact Hf|]. right. exists cause. now left. }
  pose proof (rows_same env recs ws1) as Hsame2.
  pose proof (rows_error env recs ws1) as Herr2.
  destruct (writeToCsv_rows env recs ws1) as [ws2 [e|]]; cbn [fst snd] in Hsame2;
    pose proof (Hkeep _ _ H1 Hsame2) as H2.
  { destruct (Hfinish ws2 H2) as [He Hf].
    destruct (writeToCsv_deferred env ws2) as [w st'] eqn:Ed. cbn [snd] in *.
    exists st'. eexists. split; [reflexivity|]. split; [exact He|].
    split; [exact Hf|]. right.
    destruct (Herr2 ws2 e eq_refl) as [cause ->]. exists cause. now right. }
  destruct ws2 as [writer st2]. cbn [snd] in *.
  set (st3 := printToStdOut _ st2).
  assert (H3 : open_on st3) by exact H2.
  destruct (Hfinish (writer, st3) H3) as [He Hf].
  destruct (writeToCsv_deferred env (writer, st3)) as [w st'] eqn:Ed. cbn [snd] in *.
  exists st'. eexists. split; [reflexivity|]. split; [exact He|].
  split; [exact Hf|]. now left.
Qed.

(** * The claims *)

(** C1.  For every file path, [hashFile] opens the file and returns the
    lowercase hexadecimal encoding of the SHA-256 digest of the whole
    content of the file, which it streams through a buffer of 1 MiB; it
    returns an error exactly when the file cannot be opened or a read
    fails before the end of the file.  The text has 64 characters, all
    of them lowercase hexadecimal digits. *)
Theorem C1_hashFile_sha256_hex (env : Env) (path : gostring) :
  hashFile env path =
  match Open env path with
  | inl msg => ([], Some (Err msg))
  | inr file =>
    match failure file with
    | Some msg => ([], Some (Err msg))
    | None => (Sprintf_x (Sha256.Sum256 (bytes file)), None)
    end
  end
  /\ (snd (hashFile env path) <> None <-> cannot_hash env path = true)
  /\ length (fst (hashFile env path))
     = (if cannot_hash env path then 0 else 64)%nat
  /\ forallb is_lower_hex (fst (hashFile env path)) = true.
Proof.
  rewrite hashFile_spec. unfold cannot_hash.
  split; [reflexivity|].
  destruct (Open env path) as [msg|file]; cbn [fst snd].
  - repeat split; try discriminate.
  - destruct (failure file) as [msg|]; cbn [fst snd].
    + repeat split; try discriminate.
    + split; [split; [intros H; now contradiction H | discriminate]|].
      split.
      * now rewrite Sprintf_x_length, Sum256_length.
      * apply Sprintf_x_lower_hex.
Qed.

(** C2.  [matchesExtension path exts] is true if and only if the filter
    is empty or the extension of the path, the substring from the last
    dot of its base name to its end and empty without a dot, is equal to
    an entry of the filter: byte for byte, with no regard to case and no
    wildcard. *)
Theorem C2_matchesExtension_exact (path : gostring) (exts : list gostring) :
  (matchesExtension path exts = true
   <-> exts = [] \/ In (extension_spec path) exts)
  /\ matchesExtension (lit "dir/a.jpg") [lit ".jpg"] = true
  /\ matchesExtension (lit "dir/b.JPG") [lit ".jpg"] = false
  /\ matchesExtension (lit "dir/c.png") [lit ".*"; lit "*"; lit ".p?g"] = false.
Proof.
  split; [|repeat split].
  rewrite <- Ext_extension_spec. apply matchesExtension_iff.
Qed.

(** C5.  [formatExtensions] splits every raw token on commas, trims the
    white space around each sub-token, drops the sub-tokens that are
    empty after trimming, puts a dot in front of those that do not start
    with one, and returns them in the order of the input, duplicates
    kept and case untouched. *)
Theorem C5_formatExtensions_normalizes :
  (forall rawExts, formatExtensions rawExts = normalize_spec rawExts)
  /\ (forall a b, formatExtensions (a ++ b)
                  = formatExtensions a ++ formatExtensions b)
  /\ formatExtensions [lit "jpg"; lit " .png, txt "]
     = [lit ".jpg"; lit ".png"; lit ".txt"]
  /\ formatExtensions [lit ""] = []
  /\ formatExtensions [lit "JPG,jpg"; lit "JPG"]
     = [lit ".JPG"; lit ".jpg"; lit ".JPG"].
Proof.
  split; [exact formatExtensions_normalize_spec|].
  split; [exact formatExtensions_app|].
  repeat split.
Qed.

(** C6.  [formatExtensions] is idempotent: applied to its own result it
    returns that result. *)
Theorem C6_formatExtensions_idempotent (rawExts : list gostring) :
  formatExtensions (formatExtensions rawExts) = formatExtensions rawExts.
Proof.
  apply formatExtensions_fixed. intros e. apply formatExtensions_canonical.
Qed.



(** C9.  Every extension that [formatExtensions] returns is not empty
    and begins with a dot; so, as soon as the normalized filter is not
    empty, an entry that is no directory and whose base name holds no
    dot is not matched, is not hashed (the closure of the walk does
    nothing on it) and is in no record. *)
Theorem C9_dotless_names_filtered (rawExts : list gostring) (path : gostring) :
  formatExtensions rawExts <> [] ->
  ~ In "."%byte (base_name path) ->
  (forall e, In e (formatExtensions rawExts) ->
             e <> [] /\ exists t, e = "."%byte :: t)
  /\ Filepath.Ext path = []
  /\ matchesExtension path (formatExtensions rawExts) = false
  /\ (forall env s,
         processFiles_visit env (formatExtensions rawExts) path false None s
         = (s, None))
  /\ (forall env folderPath st r,
         In r (fst (snd (processFiles env folderPath (formatExtensions rawExts) st))) ->
         Path r <> path).
Proof.
  intros Hne Hdot.
  assert (Hcanon : forall e, In e (formatExtensions rawExts) ->
                             e <> [] /\ exists t, e = "."%byte :: t).
  { intros e He. destruct (formatExtensions_canonical rawExts e He) as [[t ->] _].
    split; [discriminate | now exists t]. }
  assert (Hext : Filepath.Ext path = []) by now apply Ext_no_dot.
  assert (Hmatch : matchesExtension path (formatExtensions rawExts) = false).
  { destruct (matchesExtension path (formatExtensions rawExts)) eqn:E; [|reflexivity].
    apply matchesExtension_iff in E as [E|E]; [contradiction|].
    rewrite Hext in E. destruct (Hcanon [] E) as [H _]. now contradiction H. }
  repeat split; auto.
  - apply Hcanon. assumption.
  - apply Hcanon. assumption.
  - intros env [st recs]. unfold processFiles_visit. now rewrite Hmatch.
  - intros env folderPath st r Hr Hpath.
    destruct (processFiles_spec env folderPath (formatExtensions rawExts) st)
      as (st' & _ & _ & Hrun).
    destruct (walk_fails env (formatExtensions rawExts) folderPath).
    + destruct Hrun as [msg Hrun]. rewrite Hrun in Hr. exact Hr.
    + destruct Hrun as (recs & Hrun & Hall). rewrite Hrun in Hr. cbn [fst snd] in Hr.
      rewrite Forall_forall in Hall. specialize (Hall r Hr).
      rewrite Hpath, Hmatch in Hall. discriminate Hall.
Qed.

Lemma C9_dotless_names_filtered_witness :
  formatExtensions [lit "txt"] <> []
  /\ ~ In "."%byte (base_name (lit "/d/sub/Makefile"))
  /\ matchesExtension (lit "/d/sub/Makefile") (formatExtensions [lit "txt"]) = false
  /\ (forall env folderPath st r,
         In r (fst (snd (processFiles env folderPath
                                      (formatExtensions [lit "txt"]) st))) ->
         Path r <> lit "/d/sub/Makefile").
Proof.
  assert (H1 : formatExtensions [lit "txt"] <> []) by discriminate.
  assert (H2 : ~ In "."%byte (base_name (lit "/d/sub/Makefile"))).
  { vm_compute. intros H. repeat (destruct H as [H|H]; [discriminate H|]). exact H. }
  split; [exact H1|]. split; [exact H2|].
  destruct (C9_dotless_names_filtered [lit "txt"] (lit "/d/sub/Makefile") H1 H2)
    as (_ & _ & Hm & _ & Hr).
  split; [exact Hm | exact Hr].
Defined.

(** ** Decimal text *)

Lemma digit_spec (n : Z) :
  0 <= n < 10 -> b2z (digit n) - 48 = n /\ is_digit (digit n) = true.
Proof.
  intros [H0 H1]. destruct n as [|p|p]; [split; reflexivity | | lia].
  do 4 (try destruct p as [p|p|]); try lia; split; reflexivity.
Qed.

Lemma digits_loop_S (fuel : nat) (n : Z) (acc : gostring) :
  digits_loop (S fuel) n acc
  = if n <? 10 then digit (n mod 10) :: acc
    else digits_loop fuel (n / 10) (digit (n mod 10) :: acc).
Proof. reflexivity. Qed.

Lemma digits_loop_spec (fuel : nat) :
  forall (n : Z) (acc : gostring),
    0 <= n < 2 ^ (Z.of_nat fuel + 1) ->
    exists ds,
      digits_loop (S fuel) n acc = ds ++ acc
      /\ ds <> []
      /\ forallb is_digit ds = true
      /\ forall a0, fold_left (fun a c => a * 10 + (b2z c - 48)) ds a0
                    = a0 * 10 ^ Z.of_nat (length ds) + n.
Proof.
  induction fuel as [|fuel IH]; intros n acc Hn.
  - assert (Hn' : 0 <= n < 10) by (cbn in Hn; lia).
    destruct (digit_spec n Hn') as [Hv Hd].
    exists [digit (n mod 10)]. cbn [digits_loop].
    rewrite Z.mod_small by exact Hn'.
    repeat split.
    + destruct (n <? 10); reflexivity.
    + discriminate.
    + cbn [forallb]. now rewrite Hd.
    + intros a0. cbn [fold_left length]. rewrite Hv. cbn. lia.
  - rewrite digits_loop_S.
    assert (Hm : 0 <= n mod 10 < 10) by (apply Z.mod_pos_bound; lia).
    destruct (digit_spec (n mod 10) Hm) as [Hv Hd].
    destruct (n <? 10) eqn:E.
    + exists [digit (n mod 10)]. repeat split.
      * discriminate.
      * cbn [forallb]. now rewrite Hd.
      * intros a0. cbn [fold_left length]. rewrite Hv.
        apply Z.ltb_lt in E. rewrite Z.mod_small by lia. cbn. lia.
    + apply Z.ltb_ge in E.
      destruct (IH (n / 10) (digit (n mod 10) :: acc)) as (ds & Hrun & Hne & Hall & Hval).
      { split; [apply Z.div_pos; lia|].
        replace (Z.of_nat (S fuel) + 1) with (Z.succ (Z.of_nat fuel + 1)) in Hn by lia.
        rewrite Z.pow_succ_r in Hn by lia.
        apply Z.div_lt_upper_bound; lia. }
      exists (ds ++ [digit (n mod 10)]). repeat split.
      * rewrite Hrun, <- app_assoc. reflexivity.
      * destruct ds; discriminate.
      * rewrite forallb_app, Hall. cbn [forallb]. now rewrite Hd.
      * intros a0. rewrite fold_left_app, Hval. cbn [fold_left].
        rewrite Hv, length_app, Nat2Z.inj_add. cbn [length].
        rewrite Z.pow_add_r by lia. change (10 ^ Z.of_nat 1) with 10.
        pose proof (Z.div_mod n 10). lia.
Qed.

Lemma decimal_spec (n : Z) :
  0 <= n ->
  decimal n <> [] /\ forallb is_digit (decimal n) = true /\ dec_value (decimal n) = n.
Proof.
  intros Hn. unfold decimal, dec_value.
  destruct (digits_loop_spec (Z.to_nat (Z.log2 n)) n []) as (ds & Hrun & Hne & Hall & Hval).
  { split; [exact Hn|]. rewrite Z2Nat.id by apply Z.log2_nonneg.
    destruct (Z.eq_dec n 0) as [->|Hnz]; [cbn; lia|].
    apply Z.log2_spec. lia. }
  rewrite Hrun, app_nil_r. repeat split; auto.
Qed.

(** ** The size in megabytes *)

Lemma round_half_even_spec (p q : Z) :
  0 <= p -> 0 < q ->
  0 <= Float64.round_half_even p q
  /\ 2 * Z.abs (p - Float64.round_half_even p q * q) <= q.
Proof.
  intros Hp Hq. unfold Float64.round_half_even.
  pose proof (Z.div_mod p q) as Hdm. pose proof (Z.mod_pos_bound p q Hq) as Hr.
  assert (Hd : 0 <= p / q) by (apply Z.div_pos; lia).
  destruct (q <? 2 * (p mod q)) eqn:E1; cbn [orb].
  - apply Z.ltb_lt in E1. split; [lia|]. nia.
  - apply Z.ltb_ge in E1. destruct (q =? 2 * (p mod q)) eqn:E2; cbn [andb].
    + apply Z.eqb_eq in E2. destruct (Z.odd (p / q)); (split; [lia | nia]).
    + split; [lia | nia].
Qed.

Lemma of_int64_exact (n : Z) :
  Z.abs n < 2 ^ 53 -> Float64.of_int64 n = {| Float64.num := n; Float64.scale := 0 |}.
Proof.
  intros H. unfold Float64.of_int64.
  assert (E : (Z.log2 (Z.abs n) - 52 <=? 0) = true).
  { apply Z.leb_le. destruct (Z.eq_dec (Z.abs n) 0) as [->|Hnz]; [cbn; lia|].
    assert (Z.log2 (Z.abs n) < 53) by (apply Z.log2_lt_pow2; lia). lia. }
  now rewrite E.
Qed.

(** What [%.2f] prints: a sign for a negative number, the digits of the
    whole part, a point and two digits, which together denote the
    hundredths nearest to the number. *)
Lemma Sprintf_2f_spec (x : Float64.t) :
  0 <= Float64.scale x ->
  exists intpart d1 d2,
    Float64.Sprintf_2f x
    = (if Float64.num x <? 0 then lit "-" else [])
        ++ intpart ++ lit "." ++ [d1; d2]
    /\ intpart <> []
    /\ forallb is_digit (intpart ++ [d1; d2]) = true
    /\ 2 * Z.abs (100 * Z.abs (Float64.num x)
                  - (dec_value intpart * 100 + dec_value [d1; d2])
                    * 2 ^ Float64.scale x)
       <= 2 ^ Float64.scale x.
Proof.
  intros Hs. unfold Float64.Sprintf_2f. cbv zeta.
  set (h := Float64.hundredths x).
  assert (Hq : 0 < 2 ^ Float64.scale x) by (apply Z.pow_pos_nonneg; lia).
  destruct (round_half_even_spec (Z.abs (Float64.num x) * 100)
                                 (2 ^ Float64.scale x)) as [Hh Hnear]; [lia | exact Hq|].
  fold (Float64.hundredths x) in Hh, Hnear. fold h in Hh, Hnear.
  destruct (decimal_spec (h / 100)) as (Hne & Hall & Hval);
    [apply Z.div_pos; lia|].
  assert (H1 : 0 <= h / 10 mod 10 < 10) by (apply Z.mod_pos_bound; lia).
  assert (H2 : 0 <= h mod 10 < 10) by (apply Z.mod_pos_bound; lia).
  destruct (digit_spec _ H1) as [Hv1 Hd1]. destruct (digit_spec _ H2) as [Hv2 Hd2].
  exists (decimal (h / 100)), (digit (h / 10 mod 10)), (digit (h mod 10)).
  repeat split; auto.
  - rewrite forallb_app, Hall. cbn [forallb]. now rewrite Hd1, Hd2.
  - rewrite Hval. unfold dec_value. cbn [fold_left]. rewrite Hv1, Hv2.
    replace (h / 100 * 100 + ((0 * 10 + h / 10 mod 10) * 10 + h mod 10)) with h.
    + replace (100 * Z.abs (Float64.num x)) with (Z.abs (Float64.num x) * 100) by lia.
      exact Hnear.
    + change 100 with (10 * 10) at 1. rewrite <- Z.div_div by lia.
      Z.div_mod_to_equations. lia.
Qed.


(** ** The writer when no error is reported *)

Lemma File_Write_None (env : Env) (b : list byte) (st st' : State) (k : nat)
      (name : gostring) (content : list byte) (older : list (gostring * list byte)) :
  files st = (name, content) :: older ->
  File_Write env b st = (st', k, None) ->
  k = length b
  /\ st' = {| stdout := stdout st; stderr := stderr st;
              files := (name, content ++ b) :: older |}.
Proof.
  intros Hf. unfold File_Write. rewrite Hf.
  destruct (_ <=? _)%nat; [|discriminate].
  intros [= <- <-]. auto.
Qed.

(** What [Flush] returns is the error that the writer holds afterwards. *)
Lemma Flush_result (env : Env) (bs bs' : Bufio.Writer * State) (r : option GoError) :
  Bufio.Flush env bs = (bs', r) -> r = Bufio.err (fst bs').
Proof.
  destruct bs as [b st]. unfold Bufio.Flush.
  destruct (Bufio.err b) as [e|] eqn:Ee.
  - intros [= <- <-]. cbn [fst]. now rewrite Ee.
  - destruct (_ =? _)%nat.
    + intros [= <- <-]. cbn [fst]. now rewrite Ee.
    + destruct (File_Write env (Bufio.buf b) st) as [[st1 n] [e|]];
        intros [= <- <-]; reflexivity.
Qed.

(** A flush that leaves no error has moved the buffer into the file. *)
Lemma Flush_inv (env : Env) (bs bs' : Bufio.Writer * State) (r : option GoError)
      (name : gostring) (older : list (gostring * list byte)) (logical : list byte) :
  writing bs name older logical ->
  Bufio.Flush env bs = (bs', r) ->
  Bufio.err (fst bs') = None ->
  writing bs' name older logical
  /\ Bufio.buf (fst bs') = []
  /\ files (snd bs') = (name, logical) :: older.
Proof.
  destruct bs as [b st]. intros (Herr & Hlen & c & Hf & Hlog).
  cbn [fst snd] in *. unfold Bufio.Flush. rewrite Herr.
  destruct (length (Bufio.buf b) =? 0)%nat eqn:E.
  - intros [= <- <-] _. cbn [fst snd].
    apply Nat.eqb_eq in E. destruct (Bufio.buf b) eqn:Eb; [|discriminate E].
    rewrite app_nil_r in Hlog. subst c. unfold writing. cbn [fst snd].
    rewrite Eb. repeat split; auto.
    exists logical. now rewrite app_nil_r.
  - destruct (File_Write env (Bufio.buf b) st) as [[st1 n] [e|]] eqn:Ew;
      intros [= <- <-]; cbn [fst snd Bufio.err Bufio.buf]; [discriminate|].
    intros _. destruct (File_Write_None _ _ _ _ _ _ _ _ Hf Ew) as [_ ->].
    unfold writing. cbn [fst snd files Bufio.buf Bufio.err]. rewrite Hlog.
    repeat split.
    + cbn [length]. unfold Bufio.defaultBufSize. lia.
    + exists logical. now rewrite app_nil_r.
Qed.

Lemma WriteByte_inv (env : Env) (c : byte) (bs bs' : Bufio.Writer * State)
      (name : gostring) (older : list (gostring * list byte)) (logical : list byte) :
  writing bs name older logical ->
  Bufio.WriteByte env c bs = (bs', None) ->
  writing bs' name older (logical ++ [c]).
Proof.
  intros Hw. pose proof Hw as (Herr & Hlen & content & Hf & Hlog).
  destruct bs as [b st]. cbn [fst snd] in *.
  unfold Bufio.WriteByte. rewrite Herr.
  destruct (Bufio.Available b <=? 0)%nat eqn:E.
  - destruct (Bufio.Flush env (b, st)) as [[b1 st1] [e|]] eqn:Ef.
    + pose proof (Flush_result _ _ _ _ Ef) as Hr. cbn [fst] in Hr.
      rewrite <- Hr. discriminate.
    + pose proof (Flush_result _ _ _ _ Ef) as Hr. cbn [fst] in Hr.
      destruct (Flush_inv _ _ _ _ _ _ _ Hw Ef (eq_sym Hr))
        as ((_ & _ & c1 & Hf1 & Hlog1) & Hbuf1 & _).
      cbn [fst snd] in *. intros [= <-].
      unfold writing. cbn [fst snd Bufio.buf Bufio.err]. repeat split; auto.
      * rewrite Hbuf1. cbn [app length]. unfold Bufio.defaultBufSize. lia.
      * exists c1. split; [exact Hf1|]. now rewrite app_assoc, Hlog1.
  - apply Nat.leb_gt in E. unfold Bufio.Available in E. intros [= <-].
    unfold writing. cbn [fst snd Bufio.buf Bufio.err]. repeat split; auto.
    + rewrite length_app. cbn [length]. lia.
    + exists content. split; [exact Hf|]. now rewrite app_assoc, Hlog.
Qed.

Lemma WriteString_inv (env : Env) (s : gostring) (bs bs' : Bufio.Writer * State)
      (name : gostring) (older : list (gostring * list byte)) (logical : list byte) :
  writing bs name older logical ->
  Bufio.WriteString env s bs = (bs', None) ->
  writing bs' name older (logical ++ s).
Proof.
  intros Hw. pose proof Hw as (Herr & Hlen & content & Hf & Hlog).
  destruct bs as [b st]. cbn [fst snd] in *.
  unfold Bufio.WriteString. cbn [Bufio.writeStringLoop].
  rewrite Herr. cbn [Bufio.isNone]. rewrite andb_true_r.
  destruct (Bufio.Available b <? length s)%nat eqn:E1.
  - destruct (Bufio.Buffered b =? 0)%nat eqn:E2.
    + (* the buffer is empty: the string goes to the file as it is *)
      apply Nat.eqb_eq in E2. unfold Bufio.Buffered in E2.
      destruct (Bufio.buf b) eqn:Eb; [|discriminate E2].
      rewrite app_nil_r in Hlog. subst content.
      destruct (File_Write env s st) as [[st1 n] [e|]] eqn:Ew.
      * cbn [Bufio.err Bufio.isNone]. rewrite andb_false_r. discriminate.
      * destruct (File_Write_None _ _ _ _ _ _ _ _ Hf Ew) as [-> ->].
        rewrite skipn_all. cbn [length Nat.ltb Nat.leb andb Bufio.err Bufio.buf].
        intros [= <-]. unfold writing. cbn [fst snd files Bufio.buf Bufio.err].
        rewrite ?firstn_nil. cbn [app length]. repeat split.
        -- unfold Bufio.defaultBufSize. lia.
        -- exists (logical ++ s). now rewrite app_nil_r.
    + (* the buffer is filled up and flushed *)
      set (n := Bufio.Available b).
      set (b' := {| Bufio.buf := Bufio.buf b ++ firstn n s; Bufio.err := None |}).
      apply Nat.ltb_lt in E1. fold n in E1.
      assert (Hw' : writing (b', st) name older (logical ++ firstn n s)).
      { unfold writing, b'. cbn [fst snd Bufio.buf Bufio.err]. repeat split; auto.
        - rewrite length_app, length_firstn. unfold n, Bufio.Available in *. lia.
        - exists content. split; [exact Hf|]. now rewrite app_assoc, Hlog. }
      assert (Hrest : (logical ++ firstn n s) ++ skipn n s = logical ++ s)
        by now rewrite <- app_assoc, firstn_skipn.
      destruct (Bufio.Flush env (b', st)) as [[b1 st1] r] eqn:Ef.
      pose proof (Flush_result _ _ _ _ Ef) as Hr. cbn [fst] in Hr.
      destruct (Bufio.err b1) as [e1|] eqn:Eerr1.
      * cbn [Bufio.isNone]. rewrite andb_false_r, Eerr1. discriminate.
      * destruct (Flush_inv _ _ _ _ _ _ _ Hw' Ef Eerr1)
          as ((_ & _ & c1 & Hf1 & Hlog1) & Hbuf1 & _).
        cbn [fst snd] in *. rewrite Hbuf1, app_nil_r in Hlog1. subst c1.
        cbn [Bufio.isNone]. rewrite andb_true_r.
        unfold Bufio.Available at 1, Bufio.Buffered. rewrite Hbuf1.
        cbn [length Nat.eqb].
        destruct (Bufio.defaultBufSize - 0 <? length (skipn n s))%nat eqn:E3.
        -- destruct (File_Write env (skipn n s) st1) as [[st2 k] [e2|]] eqn:Ew.
           ++ cbn [Bufio.err]. discriminate.
           ++ destruct (File_Write_None _ _ _ _ _ _ _ _ Hf1 Ew) as [-> ->].
              cbn [Bufio.err Bufio.buf]. intros [= <-].
              unfold writing. cbn [fst snd files Bufio.buf Bufio.err].
              rewrite ?skipn_all, ?firstn_nil. cbn [length app]. repeat split.
              ** unfold Bufio.defaultBufSize. lia.
              ** exists (logical ++ s). rewrite app_nil_r, Hrest. auto.
        -- apply Nat.ltb_ge in E3. rewrite Eerr1. intros [= <-].
           unfold writing. cbn [fst snd Bufio.buf Bufio.err].
           unfold Bufio.Available. rewrite Hbuf1. cbn [length app].
           rewrite Nat.min_r by lia. rewrite firstn_all. repeat split.
           ++ lia.
           ++ exists (logical ++ firstn n s). split; [exact Hf1 | exact Hrest].
  - (* the string fits into the buffer *)
    apply Nat.ltb_ge in E1. rewrite Herr. intros [= <-].
    unfold writing. cbn [fst snd Bufio.buf Bufio.err].
    rewrite Nat.min_r by exact E1. rewrite firstn_all. repeat split.
    + rewrite length_app. unfold Bufio.Available in E1. lia.
    + exists content. split; [exact Hf|]. now rewrite app_assoc, Hlog.
Qed.

Lemma calls_inv (env : Env) (cs : list Bufio.Call) :
  forall (bs bs' : Bufio.Writer * State) (name : gostring)
         (older : list (gostring * list byte)) (logical : list byte),
    writing bs name older logical ->
    Bufio.calls env cs bs = (bs', None) ->
    writing bs' name older (logical ++ flat_map Bufio.payload cs).
Proof.
  induction cs as [|c cs IH]; intros bs bs' name older logical Hw.
  - cbn [Bufio.calls flat_map]. intros [= <-]. now rewrite app_nil_r.
  - cbn [Bufio.calls flat_map].
    destruct (Bufio.call env c bs) as [bs1 [e|]] eqn:Ec; [discriminate|].
    intros Hrun. rewrite app_assoc. apply (IH bs1); [|exact Hrun].
    destruct c as [c|s]; cbn [Bufio.call Bufio.payload] in *.
    + now apply (WriteByte_inv env c bs).
    + now apply (WriteString_inv env s bs).
Qed.

Lemma rows_inv (env : Env) (recs : list HashedFileInfo) :
  forall (ws ws' : Bufio.Writer * State) (name : gostring)
         (older : list (gostring * list byte)) (logical : list byte),
    writing ws name older logical ->
    writeToCsv_rows env recs ws = (ws', None) ->
    writing ws' name older
            (logical ++ flat_map (fun r => Csv.encode (csv_row r)) recs).
Proof.
  induction recs as [|r recs IH]; intros ws ws' name older logical Hw.
  - cbn [writeToCsv_rows flat_map]. intros [= <-]. now rewrite app_nil_r.
  - cbn [writeToCsv_rows flat_map]. unfold Csv.Write.
    destruct (Bufio.calls env (Csv.record_calls (csv_row r)) ws) as [ws1 [e|]] eqn:Ec;
      [discriminate|].
    intros Hrun. rewrite app_assoc. apply (IH ws1); [|exact Hrun].
    now apply (calls_inv env _ ws).
Qed.

(** Success of [writeToCsv]: no error is returned, and none is left in
    the writer after the deferred flush.  Then the new file holds the
    whole report. *)
Lemma writeToCsv_success (env : Env) (recs : list HashedFileInfo)
      (st st' : State) (writer : Bufio.Writer) :
  writeToCsv_writer env recs st = ((writer, st'), None) ->
  Bufio.err writer = None ->
  files st' = (outputFilename env, report recs) :: files st.
Proof.
  unfold writeToCsv_writer, os_Create.
  destruct (Create_err env (outputFilename env)) as [msg|]; [discriminate|].
  set (st0 := {| stdout := stdout st; stderr := stderr st;
                 files := (outputFilename env, []) :: files st |}).
  assert (Hw0 : writing (Bufio.NewWriter, st0) (outputFilename env) (files st) []).
  { unfold writing. cbn. repeat split; [unfold Bufio.defaultBufSize; lia|].
    now exists []. }
  unfold Csv.Write at 1.
  destruct (Bufio.calls env (Csv.record_calls csv_header) (Bufio.NewWriter, st0))
    as [ws1 [e|]] eqn:E1; [discriminate|].
  pose proof (calls_inv env _ _ _ _ _ _ Hw0 E1) as Hw1. cbn [app] in Hw1.
  fold (Csv.encode csv_header) in Hw1.
  destruct (writeToCsv_rows env recs ws1) as [[w2 st2] [e|]] eqn:E2; [discriminate|].
  pose proof (rows_inv env recs _ _ _ _ _ Hw1 E2) as Hw2.
  set (st3 := printToStdOut _ st2).
  assert (Hw3 : writing (w2, st3) (outputFilename env) (files st) (report recs))
    by exact Hw2.
  unfold writeToCsv_deferred.
  destruct (Bufio.Flush env (w2, st3)) as [[w4 st4] r] eqn:E4. cbn [fst].
  intros [= <- <-] Herr.
  now destruct (Flush_inv _ _ _ _ _ _ _ Hw3 E4 Herr) as (_ & _ & Hfiles).
Qed.

(** ** The report on a device without room *)

(** C7 fails on a device that takes no byte.  The two rows and the
    header stay in the buffer of the writer until the deferred
    [writer.Flush()], whose failure nobody reads: [writeToCsv] returns
    no error and prints where the report is, and the file is empty. *)
Lemma C7_flush_error_unchecked :
  exists st',
    writeToCsv (sample_env sample_tree [] (Some 0%nat)) sample_records empty_state
    = (st', None)
    /\ files st' = [(lit "hash_results_20250101_120530.csv", [])]
    /\ stdout st'
       = lit "Output written to: /d/hash_results_20250101_120530.csv" ++ newline
    /\ Bufio.err (fst (fst (writeToCsv_writer
                              (sample_env sample_tree [] (Some 0%nat))
                              sample_records empty_state)))
       = Some (Err (lit "write: no space left on device"))
    /\ length (report sample_records) = 209%nat.
Proof.
  eexists. split; [vm_compute; reflexivity|].
  repeat split; vm_compute; reflexivity.
Qed.

(** The report of the two sample records, as [writeToCsv] leaves it on a
    device with room. *)
Lemma writeToCsv_sample_report :
  report sample_records
  = lit "Name,Path,Size (MB),Hash" ++ newline
    ++ lit "a.txt,/d/a.txt,1.00,"
    ++ lit "ba7816bf8f01cfea414140de5dae2223b00361a396177a9cb410ff61f20015ad"
    ++ newline
    ++ [x22] ++ lit "b, c.txt" ++ [x22] ++ lit ","
    ++ [x22] ++ lit "/d/sub/b, c.txt" ++ [x22] ++ lit ",0.01,"
    ++ lit "ba7816bf8f01cfea414140de5dae2223b00361a396177a9cb410ff61f20015ad"
    ++ newline.
Proof. vm_compute. reflexivity. Qed.

(** The header row goes to the buffer of the writer, which has room for
    it. *)
Lemma header_buffered (env : Env) (st : State) :
  Csv.Write env csv_header (Bufio.NewWriter, st)
  = (({| Bufio.buf := Csv.encode csv_header; Bufio.err := None |}, st), None).
Proof. vm_compute. reflexivity. Qed.

Lemma accepted_fits (env : Env) (content : list byte) :
  fits env content -> accepted env content = content.
Proof.
  unfold fits, accepted. destruct (capacity env) as [cap|]; [|reflexivity].
  intros H. now apply firstn_all2.
Qed.

(** Without records [writeToCsv] cannot fail once the file is created:
    the only write to the device is that of the deferred flush. *)
Lemma writeToCsv_empty (env : Env) (st : State) :
  Create_err env (outputFilename env) = None ->
  writeToCsv env [] st
  = ({| stdout := stdout st ++ lit "Output written to: "
                         ++ match Abs env (outputFilename env) with
                            | inl _ => outputFilename env
                            | inr absPath => absPath
                            end ++ newline;
        stderr := stderr st;
        files := (outputFilename env, accepted env (Csv.encode csv_header))
                   :: files st |}, None).
Proof.
  intros Hcreate. unfold writeToCsv, writeToCsv_writer, os_Create.
  rewrite Hcreate, header_buffered. cbn [writeToCsv_rows].
  unfold writeToCsv_deferred, Bufio.Flush, File_Write, accepted.
  cbn [Bufio.err Bufio.buf files printToStdOut stdout stderr].
  change (length (Csv.encode csv_header)) with 25%nat.
  cbn [Nat.eqb length app].
  destruct (capacity env) as [cap|].
  - rewrite Nat.sub_0_r. destruct (25 <=? cap)%nat eqn:E.
    + apply Nat.leb_le in E. cbn [fst snd].
      rewrite firstn_all2 by exact E. reflexivity.
    + reflexivity.
  - reflexivity.
Qed.

(** An empty scan whose report can be created: [writeToCsv] creates the
    file with the time in its name and prints where it is, nothing goes
    to standard error and the exit status is 0.  The file holds what
    the device takes of the header row, and the header row and nothing
    else when the device has room for its 25 bytes. *)
Lemma empty_scan_outcome (usage : gostring) (env : Env)
        (extensions args : list gostring) (folderPath : gostring)
        (st st1 : State) :
  MaximumNArgs 1 args = None ->
  getFolderPath env args = (folderPath, None) ->
  processFiles env folderPath (formatExtensions extensions) st = (st1, ([], None)) ->
  Create_err env (outputFilename env) = None ->
  exists st',
    main usage env extensions args st = (st', 0)
    /\ Execute usage env extensions args st = (st', None)
    /\ files st'
       = (lit "hash_results_" ++ Time_Format (Now env) ++ lit ".csv",
          accepted env (lit "Name,Path,Size (MB),Hash" ++ newline)) :: files st
    /\ (fits env (lit "Name,Path,Size (MB),Hash" ++ newline) ->
        files st'
        = (lit "hash_results_" ++ Time_Format (Now env) ++ lit ".csv",
           lit "Name,Path,Size (MB),Hash" ++ newline) :: files st)
    /\ stdout st'
       = stdout st1 ++ lit "Output written to: "
                ++ match Abs env (outputFilename env) with
                   | inl _ => outputFilename env
                   | inr absPath => absPath
                   end ++ newline
    /\ stderr st' = stderr st.
Proof.
  intros Hargs Hfolder Hscan Hcreate.
  pose proof (writeToCsv_empty env st1 Hcreate) as Hrun.
  destruct (processFiles_spec env folderPath (formatExtensions extensions) st)
    as (st1' & Hf1 & He1 & Hspec).
  assert (Hst1 : st1' = st1).
  { destruct (walk_fails env (formatExtensions extensions) folderPath).
    - destruct Hspec as [msg Hspec]. rewrite Hspec in Hscan. discriminate Hscan.
    - destruct Hspec as (recs & Hspec & _). rewrite Hspec in Hscan.
      now injection Hscan. }
  subst st1'.
  eexists. unfold main, Execute, RunE.
  rewrite Hargs, Hfolder, Hscan, Hrun. cbn [files stdout stderr].
  rewrite Hf1, He1.
  repeat split.
  intros Hfit. cbn [files]. do 2 f_equal. exact (accepted_fits env _ Hfit).
Qed.

(** C10 fails on a device that takes no byte.  The scan of a tree
    without pictures for the filter [png] succeeds with no record, and
    the run ends as a success: no error, the exit status 0, the line
    that tells where the report is.  But the report that was created is
    empty, without the header row: the header stays in the buffer of
    the writer until the deferred [writer.Flush()], whose failure
    nobody reads. *)
Lemma C10_empty_scan_unchecked_flush :
  snd (processFiles (sample_env sample_tree [] (Some 0%nat)) (lit "/d")
                    (formatExtensions [lit "png"]) empty_state)
  = ([], None)
  /\ exists st',
      main (lit "usage") (sample_env sample_tree [] (Some 0%nat))
           [lit "png"] [lit "/d"] empty_state = (st', 0)
      /\ Execute (lit "usage") (sample_env sample_tree [] (Some 0%nat))
                 [lit "png"] [lit "/d"] empty_state = (st', None)
      /\ files st' = [(lit "hash_results_20250101_120530.csv", [])]
      /\ stdout st'
         = lit "Scanning folder: /d" ++ newline
             ++ lit "Filtering by extensions: .png" ++ newline
             ++ lit "Output written to: /d/hash_results_20250101_120530.csv"
             ++ newline
      /\ stderr st' = []
      /\ Bufio.err (fst (fst (writeToCsv_writer
                                (sample_env sample_tree [] (Some 0%nat)) []
                                empty_state)))
         = Some (Err (lit "write: no space left on device")).
Proof.
  split; [vm_compute; reflexivity|].
  eexists. split; [vm_compute; reflexivity|].
  repeat split; vm_compute; reflexivity.
Qed.

(** * Further properties of the code *)

(** ** The filter as a user sees it *)

Lemma flat_map_empty_iff {A B} (f : A -> list B) (l : list A) :
  flat_map f l = [] <-> forall x, In x l -> f x = [].
Proof.
  induction l as [|a l IH]; cbn [flat_map].
  - split; [intros _ x [] | reflexivity].
  - split.
    + intros H. apply app_eq_nil in H as [Ha Hl]. intros x [<-|Hx]; [exact Ha|].
      now apply IH.
    + intros H. rewrite (H a) by now left. apply IH. intros x Hx. apply H. now right.
Qed.

Lemma normalize1_nil_iff (sub : gostring) :
  normalize1 sub = [] <-> Strings.TrimSpace sub = [].
Proof.
  unfold normalize1. destruct (Strings.TrimSpace sub) as [|c t]; cbn [isEmpty].
  - tauto.
  - split; discriminate.
Qed.

(** The backward loop of [filepath.Ext] runs over the bytes that are
    neither dot nor separator. *)
Lemma ext_scan_run (t : gostring) :
  forall rest suffix : gostring,
    (forall x, In x t -> x <> "."%byte /\ x <> "/"%byte) ->
    Filepath.ext_scan (rev t ++ rest) suffix = Filepath.ext_scan rest (t ++ suffix).
Proof.
  induction t as [|a t IH]; intros rest suffix H; [reflexivity|].
  cbn [rev]. rewrite <- app_assoc. cbn [app]. rewrite IH by (intros; apply H; now right).
  destruct (H a (or_introl eq_refl)) as [Hd Hs].
  cbn [Filepath.ext_scan]. unfold Filepath.IsPathSeparator, Filepath.Separator.
  now rewrite !byte_eqb_neq by assumption.
Qed.

Lemma Ext_dot_tail (stem t : gostring) :
  (forall x, In x t -> x <> "."%byte /\ x <> "/"%byte) ->
  Filepath.Ext (stem ++ "."%byte :: t) = "."%byte :: t.
Proof.
  intros H. unfold Filepath.Ext. rewrite rev_app_distr. cbn [rev].
  rewrite <- !app_assoc. rewrite ext_scan_run by exact H.
  rewrite app_nil_r. reflexivity.
Qed.

Lemma ext_scan_shape (rpath : gostring) :
  forall suffix : gostring,
    (forall x, In x suffix -> x <> "."%byte /\ x <> "/"%byte) ->
    Filepath.ext_scan rpath suffix = []
    \/ exists stem t,
        rev rpath ++ suffix = stem ++ "."%byte :: t
        /\ Filepath.ext_scan rpath suffix = "."%byte :: t
        /\ forall x, In x t -> x <> "."%byte /\ x <> "/"%byte.
Proof.
  induction rpath as [|c rpath IH]; intros suffix H; [now left|].
  cbn [Filepath.ext_scan rev]. unfold Filepath.IsPathSeparator, Filepath.Separator.
  destruct (Byte.eqb c "/"%byte) eqn:Es; [now left|].
  destruct (Byte.eqb c "."%byte) eqn:Ed.
  - apply Byte.byte_dec_bl in Ed. subst c. right. exists (rev rpath), suffix.
    rewrite <- app_assoc. auto.
  - rewrite <- app_assoc. cbn [app]. apply IH.
    intros x [<-|Hx]; [|now apply H].
    split; intros ->; [rewrite byte_eqb_refl in Ed | rewrite byte_eqb_refl in Es];
      discriminate.
Qed.

Lemma Ext_shape (path : gostring) :
  Filepath.Ext path = []
  \/ exists stem t,
      path = stem ++ "."%byte :: t
      /\ Filepath.Ext path = "."%byte :: t
      /\ forall x, In x t -> x <> "."%byte /\ x <> "/"%byte.
Proof.
  unfold Filepath.Ext.
  destruct (ext_scan_shape (rev path) []) as [H|(stem & t & Hp & He & Ht)].
  - intros x [].
  - now left.
  - right. exists stem, t. rewrite app_nil_r, rev_involutive in Hp. auto.
Qed.

(** X1.  A plain token [name] of the flag [--ext] (not empty, no dot, no
    comma, no separator, no white space around it) becomes the filter
    [.name], and a path passes this filter exactly when it ends with
    [.name]. *)
Theorem X1_plain_token_selects_suffix (name path : gostring) :
  name <> [] ->
  Strings.TrimSpace name = name ->
  (forall c, In c name -> c <> "."%byte /\ c <> "/"%byte /\ c <> ","%byte) ->
  formatExtensions [name] = ["."%byte :: name]
  /\ (matchesExtension path (formatExtensions [name]) = true
      <-> exists stem, path = stem ++ "."%byte :: name).
Proof.
  intros Hne Htrim Hplain.
  assert (Hfmt : formatExtensions [name] = ["."%byte :: name]).
  { rewrite formatExtensions_flat_map. cbn [flat_map]. rewrite app_nil_r.
    rewrite Split_no_sep by (intros Hin; now apply (Hplain _ Hin)).
    cbn [flat_map]. rewrite app_nil_r. unfold normalize1. rewrite Htrim.
    destruct name as [|c t]; [contradiction|]. cbn [isEmpty].
    destruct (add_dot_cases (c :: t)) as [(t' & [= -> _] & _)|[_ ->]]; [|reflexivity].
    now destruct (Hplain "."%byte (or_introl eq_refl)) as [H _]. }
  split; [exact Hfmt|]. rewrite Hfmt, matchesExtension_iff.
  assert (Hname : forall x, In x name -> x <> "."%byte /\ x <> "/"%byte).
  { intros x Hx. destruct (Hplain x Hx) as (H1 & H2 & _). auto. }
  split.
  - intros [H|[H|[]]]; [discriminate H|].
    destruct (Ext_shape path) as [E|(stem & t & Hp & He & _)].
    + rewrite E in H. discriminate H.
    + exists stem. rewrite Hp. rewrite He in H. now rewrite H.
  - intros [stem ->]. right. left. symmetry. now apply Ext_dot_tail.
Qed.

Lemma X1_plain_token_selects_suffix_witness :
  formatExtensions [lit "jpg"] = [lit ".jpg"]
  /\ (matchesExtension (lit "/d/holiday.2024.jpg") (formatExtensions [lit "jpg"]) = true
      <-> exists stem, lit "/d/holiday.2024.jpg" = stem ++ lit ".jpg").
Proof.
  apply (X1_plain_token_selects_suffix (lit "jpg") (lit "/d/holiday.2024.jpg")).
  - discriminate.
  - reflexivity.
  - intros c H. cbn in H.
    repeat (destruct H as [<-|H]; [repeat split; discriminate|]). contradiction.
Defined.

(** X2.  [formatExtensions] returns the empty filter exactly when every
    comma-separated piece of every token is empty or white space; the
    filter then lets every path pass, as if no [--ext] had been given. *)
Theorem X2_blank_tokens_disable_filter (rawExts : list gostring) :
  (formatExtensions rawExts = []
   <-> forall tok sub, In tok rawExts -> In sub (Strings.Split tok ","%byte) ->
                       Strings.TrimSpace sub = [])
  /\ ((forall tok sub, In tok rawExts -> In sub (Strings.Split tok ","%byte) ->
                       Strings.TrimSpace sub = []) ->
      forall path, matchesExtension path (formatExtensions rawExts) = true).
Proof.
  assert (Hiff : formatExtensions rawExts = []
                 <-> forall tok sub, In tok rawExts ->
                                     In sub (Strings.Split tok ","%byte) ->
                                     Strings.TrimSpace sub = []).
  { rewrite formatExtensions_flat_map, flat_map_empty_iff. split.
    - intros H tok sub Htok Hsub. specialize (H tok Htok).
      rewrite flat_map_empty_iff in H. now apply normalize1_nil_iff, H.
    - intros H tok Htok. apply flat_map_empty_iff. intros sub Hsub.
      apply normalize1_nil_iff. now apply (H tok). }
  split; [exact Hiff|].
  intros H path. apply Hiff in H. rewrite H. reflexivity.
Qed.

(** X3.  What [filepath.Ext] returns is empty or a dot followed by bytes
    that are neither dot nor separator, and it is the end of the path.
    So a filter entry with a second dot or a separator, as [.tar.gz],
    matches nothing: a filter of such entries only lets no path pass. *)
Theorem X3_compound_extension_never_matches (path : gostring) (exts : list gostring) :
  (Filepath.Ext path = []
   \/ exists stem t,
       path = stem ++ "."%byte :: t
       /\ Filepath.Ext path = "."%byte :: t
       /\ forall x, In x t -> x <> "."%byte /\ x <> "/"%byte)
  /\ (exts <> [] ->
      (forall e, In e exts ->
                 exists c t, e = c :: t /\ (In "."%byte t \/ In "/"%byte t)) ->
      matchesExtension path exts = false)
  /\ matchesExtension (lit "/d/backup.tar.gz") (formatExtensions [lit "tar.gz"]) = false
  /\ matchesExtension (lit "/d/backup.tar.gz") (formatExtensions [lit "gz"]) = true.
Proof.
  split; [apply Ext_shape|]. split; [|split; reflexivity].
  intros Hne Hall. destruct (matchesExtension path exts) eqn:E; [|reflexivity].
  apply matchesExtension_iff in E as [E|E]; [contradiction|].
  destruct (Hall _ E) as (c & t & He & Hin).
  destruct (Ext_shape path) as [H|(stem & t' & _ & H & Ht')].
  - rewrite H in He. discriminate He.
  - rewrite H in He. injection He as <- <-.
    destruct Hin as [Hin|Hin]; apply Ht' in Hin; destruct Hin as [H1 H2]; congruence.
Qed.

(** X4.  The filter is used as a set: two filters with the same entries,
    in any order and with any repetition, let the same paths pass. *)
Theorem X4_filter_order_and_repetition (path : gostring) (exts exts' : list gostring) :
  (forall e, In e exts <-> In e exts') ->
  matchesExtension path exts = matchesExtension path exts'.
Proof.
  intros H.
  assert (G : forall a b, (forall e, In e a -> In e b) ->
                          matchesExtension path a = true ->
                          matchesExtension path b = true \/ a = []).
  { intros a b Hab Ha. apply matchesExtension_iff in Ha as [->|Ha]; [now right|].
    left. apply matchesExtension_iff. right. now apply Hab. }
  assert (Hnil : exts = [] <-> exts' = []).
  { split; intros E; subst.
    - destruct exts' as [|e l]; [reflexivity|]. destruct (proj2 (H e) (or_introl eq_refl)).
    - destruct exts as [|e l]; [reflexivity|]. destruct (proj1 (H e) (or_introl eq_refl)). }
  destruct (matchesExtension path exts) eqn:E1, (matchesExtension path exts') eqn:E2;
    try reflexivity.
  - destruct (G exts exts' (fun e => proj1 (H e)) E1) as [E|E]; [congruence|].
    apply Hnil in E. subst exts'. discriminate E2.
  - destruct (G exts' exts (fun e => proj2 (H e)) E2) as [E|E]; [congruence|].
    apply Hnil in E. subst exts. discriminate E1.
Qed.

Lemma X4_filter_order_and_repetition_witness :
  matchesExtension (lit "/d/a.png") [lit ".jpg"; lit ".png"; lit ".jpg"]
  = matchesExtension (lit "/d/a.png") [lit ".png"; lit ".jpg"].
Proof.
  apply (X4_filter_order_and_repetition
           (lit "/d/a.png") [lit ".jpg"; lit ".png"; lit ".jpg"]
           [lit ".png"; lit ".jpg"]).
  intros e. simpl. tauto.
Defined.

(** ** What the walk prints, records and reports *)

Section Trace.

Variable env : Env.
Variable exts : list gostring.

Let visit := processFiles_visit env exts.

Lemma progress_app (a b : list gostring) : progress (a ++ b) = progress a ++ progress b.
Proof. apply flat_map_app. Qed.

(** The closure on a file. *)
Lemma visit_file_trace (path : gostring) (s : State * list HashedFileInfo) :
  exists st' recs',
    visit path false None s = ((st', recs'), option_map Err (first_error env exts (NonDir path)))
    /\ stdout st' = stdout (fst s) ++ progress (matching_paths exts (NonDir path))
    /\ (first_error env exts (NonDir path) = None ->
        recs' = snd s ++ map (record_of env) (matching_paths exts (NonDir path))
        /\ forall p, In p (matching_paths exts (NonDir path)) ->
                     cannot_hash env p = false /\ cannot_stat env p = false).
Proof.
  destruct s as [st recs]. unfold visit, processFiles_visit.
  cbn [first_error matching_paths fst snd]. rewrite hashFile_spec.
  unfold file_error, record_of, cannot_hash, cannot_stat.
  destruct (matchesExtension path exts).
  2: { exists st, recs. cbn [progress flat_map map option_map].
       rewrite !app_nil_r. repeat split; auto; contradiction. }
  cbn [progress flat_map map]. rewrite !app_nil_r.
  destruct (Open env path) as [msg|file] eqn:Eo.
  { eexists _, _. split; [reflexivity|]. split; [reflexivity | discriminate]. }
  destruct (failure file) as [msg|] eqn:Ef.
  { eexists _, _. split; [reflexivity|]. split; [reflexivity | discriminate]. }
  destruct (Stat env path) as [msg|info] eqn:Es.
  { eexists _, _. split; [reflexivity|]. split; [reflexivity | discriminate]. }
  eexists _, _. split; [reflexivity|]. split; [reflexivity|]. intros _.
  split; [reflexivity|]. intros p [<-|[]]. now rewrite Eo, Ef, Es.
Qed.

Lemma first_error_failure (e : Entry) :
  first_error env exts e = None <-> has_failure env exts e = false.
Proof.
  induction e as [path | path readdir_err entries IH] using Entry_forall_ind.
  - cbn [first_error has_failure]. unfold file_error, cannot_hash, cannot_stat.
    destruct (matchesExtension path exts); [|tauto]. cbn [andb].
    destruct (Open env path) as [msg|file]; [split; discriminate|].
    destruct (failure file); [split; discriminate|].
    destruct (Stat env path); [split; discriminate | tauto].
  - destruct readdir_err as [msg|]; cbn [first_error has_failure];
      [split; discriminate|].
    induction IH as [|d l Hd Hl IHl]; cbn [existsb]; [tauto|].
    destruct (first_error env exts d) as [msg|].
    + destruct (has_failure env exts d); [split; discriminate|].
      destruct Hd as [_ Hd]. discriminate (Hd eq_refl).
    + destruct Hd as [Hd _]. rewrite (Hd eq_refl). exact IHl.
Qed.

Lemma prune_healthy (e : Entry) :
  has_failure env exts e = false -> prune env exts e = e.
Proof.
  induction e as [path | path readdir_err entries IH] using Entry_forall_ind;
    [reflexivity|].
  destruct readdir_err as [msg|]; cbn [has_failure prune]; [discriminate|].
  intros H. f_equal. induction IH as [|d l Hd Hl IHl]; [reflexivity|].
  cbn [existsb prune_entries] in *. apply orb_false_iff in H as [H1 H2].
  rewrite H1. f_equal. now apply IHl.
Qed.

(** The walk of a tree: its error is that of the first failure; it
    prints a line for each file handed to the hasher, up to the first
    failure; and without failure it records each of these files. *)
Lemma walkDir_trace (e : Entry) :
  forall s : State * list HashedFileInfo,
  exists st' recs',
    walkDir visit e s = ((st', recs'), option_map Err (first_error env exts e))
    /\ stdout st' = stdout (fst s)
                      ++ progress (matching_paths exts (prune env exts e))
    /\ (first_error env exts e = None ->
        recs' = snd s ++ map (record_of env) (matching_paths exts e)
        /\ forall p, In p (matching_paths exts e) ->
                     cannot_hash env p = false /\ cannot_stat env p = false).
Proof.
  induction e as [path | path readdir_err entries IH] using Entry_forall_ind;
    intros s.
  - apply visit_file_trace.
  - rewrite walkDir_Dir. unfold visit. rewrite visit_dir.
    destruct readdir_err as [msg|].
    + rewrite visit_err. destruct s as [st recs]. exists st, recs.
      cbn [first_error prune matching_paths progress flat_map option_map skip_dir
           is_SkipDir fst].
      rewrite app_nil_r. split; [reflexivity|]. split; [reflexivity | discriminate].
    + cbn [first_error prune matching_paths]. revert s.
      induction IH as [|d l Hd Hl IHl]; intros s.
      * destruct s as [st recs]. exists st, recs.
        cbn [walkEntries prune_entries flat_map progress map option_map fst snd].
        rewrite !app_nil_r. repeat split; auto; contradiction.
      * cbn [walkEntries prune_entries flat_map].
        fold (prune_entries env exts (prune env exts)).
        destruct (Hd s) as (st1 & recs1 & Hrun & Hout & Hrecs). fold visit.
        rewrite Hrun.
        pose proof (first_error_failure d) as Hff.
        destruct (first_error env exts d) as [msg|] eqn:Ed.
        -- cbn [option_map skip_dir is_SkipDir].
           destruct (has_failure env exts d);
             [|destruct Hff as [_ Hff]; discriminate (Hff eq_refl)].
           exists st1, recs1. cbn [flat_map]. rewrite app_nil_r.
           split; [reflexivity|]. split; [exact Hout | discriminate].
        -- cbn [option_map]. destruct Hff as [Hff _]. rewrite (Hff eq_refl).
           destruct (IHl (st1, recs1)) as (st2 & recs2 & Hrun2 & Hout2 & Hrecs2).
           exists st2, recs2. split; [exact Hrun2|]. cbn [fst snd] in *.
           split.
           ++ rewrite Hout2, Hout. cbn [flat_map]. rewrite progress_app.
              rewrite (prune_healthy d (Hff eq_refl)). now rewrite app_assoc.
           ++ intros Hnone. destruct (Hrecs eq_refl) as [-> Hok1].
              destruct (Hrecs2 Hnone) as [-> Hok2]. split.
              ** now rewrite map_app, app_assoc.
              ** intros p Hp. apply in_app_or in Hp as [Hp|Hp]; auto.
Qed.

End Trace.

Lemma processFiles_banner (env : Env) (folderPath : gostring) (exts : list gostring)
      (st : State) :
  processFiles env folderPath exts st
  = let '((st', files), err) :=
      WalkDir (processFiles_visit env exts) env folderPath
              (printToStdOut (banner folderPath exts) st, []) in
    match err with
    | Some err => (st', ([], Some err))
    | None => (st', (files, None))
    end.
Proof.
  unfold processFiles, banner, printToStdOut. cbn [stdout stderr files].
  destruct exts as [|e exts]; rewrite <- !app_assoc; reflexivity.
Qed.

(** Without failure in the tree: the records, and what is printed. *)
Lemma processFiles_healthy (env : Env) (folderPath : gostring)
      (exts : list gostring) (e : Entry) (st : State) :
  Lstat_tree env folderPath = RootEntry e ->
  has_failure env exts e = false ->
  exists st',
    processFiles env folderPath exts st
    = (st', (map (record_of env) (matching_paths exts e), None))
    /\ stdout st' = stdout st ++ banner folderPath exts
                           ++ progress (matching_paths exts e)
    /\ forall p, In p (matching_paths exts e) ->
                 cannot_hash env p = false /\ cannot_stat env p = false.
Proof.
  intros Hroot Hok. rewrite processFiles_banner. unfold WalkDir. rewrite Hroot.
  destruct (walkDir_trace env exts e (printToStdOut (banner folderPath exts) st, []))
    as (st' & recs' & Hrun & Hout & Hrecs).
  apply first_error_failure in Hok. rewrite Hok in *. rewrite Hrun.
  cbn [option_map fst snd app] in *. destruct (Hrecs eq_refl) as [-> Hall].
  exists st'. split; [reflexivity|]. split; [|exact Hall].
  rewrite Hout. cbn [stdout printToStdOut].
  apply first_error_failure in Hok. rewrite (prune_healthy env exts e Hok).
  now rewrite app_assoc.
Qed.

(** X5.  When nothing fails in the tree under the root, [processFiles]
    returns one record for each entry that is no directory and passes
    the filter, in the order of the walk: the path as the walk presents
    it, the name and size that [os.Stat] reports and the hexadecimal
    SHA-256 digest of the content; it prints its two first lines and
    one line for each of these files. *)
Theorem X5_processFiles_records (env : Env) (folderPath : gostring)
        (exts : list gostring) (e : Entry) (st : State) :
  Lstat_tree env folderPath = RootEntry e ->
  has_failure env exts e = false ->
  exists st',
    processFiles env folderPath exts st
    = (st', (map (record_of env) (matching_paths exts e), None))
    /\ stdout st' = stdout st ++ banner folderPath exts
                           ++ progress (matching_paths exts e)
    /\ forall p, In p (matching_paths exts e) ->
         exists file info,
           Open env p = inr file /\ failure file = None /\ Stat env p = inr info
           /\ record_of env p
              = {| Name := fi_Name info; Path := p; Size := fi_Size info;
                   Hash := Sprintf_x (Sha256.Sum256 (bytes file)) |}.
Proof.
  intros Hroot Hok.
  destruct (processFiles_healthy env folderPath exts e st Hroot Hok)
    as (st' & Hrun & Hout & Hall).
  exists st'. split; [exact Hrun|]. split; [exact Hout|].
  intros p Hp. destruct (Hall p Hp) as [Hh Hs].
  unfold cannot_hash, cannot_stat, record_of in *.
  destruct (Open env p) as [msg|file]; [discriminate Hh|].
  destruct (failure file) eqn:Ef; [discriminate Hh|].
  destruct (Stat env p) as [msg|info]; [discriminate Hs|].
  exists file, info. auto.
Qed.

Lemma X5_processFiles_records_witness :
  exists st',
    processFiles (sample_env sample_tree [] None) (lit "/d") [lit ".txt"] empty_state
    = (st', ([ {| Name := lit "a.txt"; Path := lit "/d/a.txt"; Size := 1048576;
                  Hash := Sprintf_x (Sha256.Sum256 (lit "abc")) |};
               {| Name := lit "b.txt"; Path := lit "/d/sub/b.txt"; Size := 1048576;
                  Hash := Sprintf_x (Sha256.Sum256 (lit "abc")) |} ], None))
    /\ stdout st'
       = lit "Scanning folder: /d" ++ newline
           ++ lit "Filtering by extensions: .txt" ++ newline
           ++ lit "Processing: /d/a.txt" ++ newline
           ++ lit "Processing: /d/sub/b.txt" ++ newline.
Proof.
  destruct (X5_processFiles_records
              (sample_env sample_tree [] None) (lit "/d") [lit ".txt"] sample_tree
              empty_state)
    as (st' & Hrun & Hout & _).
  - reflexivity.
  - reflexivity.
  - exists st'. split.
    + rewrite Hrun. vm_compute. reflexivity.
    + rewrite Hout. vm_compute. reflexivity.
Defined.

(** X6.  In every case the error of [processFiles] is that of the first
    failure in the order of the walk: the error of [os.Lstat] on the
    root or of [os.ReadDir] on a directory as it is, the error of
    opening, reading or statting a file behind the text that names the
    step and the path.  What is printed is the two first lines and one
    line for each file handed to the hasher up to that failure. *)
Theorem X6_processFiles_first_failure (env : Env) (folderPath : gostring)
        (exts : list gostring) (st : State) :
  snd (snd (processFiles env folderPath exts st))
  = option_map Err
      match Lstat_tree env folderPath with
      | RootError msg => Some msg
      | RootEntry e => first_error env exts e
      end
  /\ stdout (fst (processFiles env folderPath exts st))
     = stdout st ++ banner folderPath exts
         ++ match Lstat_tree env folderPath with
            | RootError _ => []
            | RootEntry e => progress (matching_paths exts (prune env exts e))
            end
  /\ stderr (fst (processFiles env folderPath exts st)) = stderr st
  /\ files (fst (processFiles env folderPath exts st)) = files st.
Proof.
  assert (Hframe : stderr (fst (processFiles env folderPath exts st)) = stderr st
                   /\ files (fst (processFiles env folderPath exts st)) = files st).
  { destruct (processFiles_spec env folderPath exts st) as (st1 & Hf & He & Hrun).
    destruct (walk_fails env exts folderPath).
    - destruct Hrun as [msg ->]. auto.
    - destruct Hrun as (recs & -> & _). auto. }
  destruct Hframe as [He Hf]. split; [|split; [|split; [exact He | exact Hf]]];
    rewrite processFiles_banner; unfold WalkDir;
    destruct (Lstat_tree env folderPath) as [msg|e].
  - rewrite visit_err. reflexivity.
  - destruct (walkDir_trace env exts e (printToStdOut (banner folderPath exts) st, []))
      as (st' & recs' & -> & _).
    destruct (first_error env exts e); reflexivity.
  - rewrite visit_err. cbn [is_SkipDir is_SkipAll orb fst stdout printToStdOut].
    now rewrite app_nil_r.
  - destruct (walkDir_trace env exts e (printToStdOut (banner folderPath exts) st, []))
      as (st' & recs' & -> & Hout & _).
    cbn [fst] in Hout.
    destruct (first_error env exts e);
      cbn [option_map is_SkipDir is_SkipAll orb fst]; rewrite Hout;
      cbn [stdout printToStdOut]; now rewrite app_assoc.
Qed.

(** ** The digest as text, read back *)

Lemma hex_decode_Sprintf_x (bs : list byte) : hex_decode (Sprintf_x bs) = bs.
Proof.
  induction bs as [|b bs IH]; [reflexivity|].
  unfold Sprintf_x in *. cbn [flat_map app hex_decode]. rewrite IH. f_equal.
  destruct b; reflexivity.
Qed.

(** X7.  The text that [hashFile] returns for a file that can be read is
    the digest and nothing else: decoding the 64 hexadecimal digits
    gives the 32 bytes of the SHA-256 digest of the content back.  So
    two files that can be read get the same text exactly when their
    digests are equal, and in particular when their contents are. *)
Theorem X7_hash_text_is_the_digest (env : Env) (path1 path2 : gostring)
        (file1 file2 : Stream) :
  Open env path1 = inr file1 -> failure file1 = None ->
  Open env path2 = inr file2 -> failure file2 = None ->
  hex_decode (fst (hashFile env path1)) = Sha256.Sum256 (bytes file1)
  /\ (fst (hashFile env path1) = fst (hashFile env path2)
      <-> Sha256.Sum256 (bytes file1) = Sha256.Sum256 (bytes file2))
  /\ (bytes file1 = bytes file2 ->
      fst (hashFile env path1) = fst (hashFile env path2)).
Proof.
  intros Ho1 Hf1 Ho2 Hf2. rewrite !hashFile_spec, Ho1, Hf1, Ho2, Hf2. cbn [fst].
  split; [apply hex_decode_Sprintf_x|]. split; [split|].
  - intros H. apply (f_equal hex_decode) in H. now rewrite !hex_decode_Sprintf_x in H.
  - now intros ->.
  - now intros ->.
Qed.

Lemma X7_hash_text_is_the_digest_witness :
  hex_decode (fst (hashFile (sample_env sample_tree [] None) (lit "/d/a.txt")))
  = Sha256.Sum256 (lit "abc")
  /\ fst (hashFile (sample_env sample_tree [] None) (lit "/d/a.txt"))
     = fst (hashFile (sample_env sample_tree [] None) (lit "/d/z.jpg")).
Proof.
  destruct (X7_hash_text_is_the_digest
              (sample_env sample_tree [] None) (lit "/d/a.txt") (lit "/d/z.jpg")
              (mkStream (lit "abc") None) (mkStream (lit "abc") None))
    as (Hdec & _ & Heq); try reflexivity.
  split; [exact Hdec | apply Heq; reflexivity].
Defined.

(** X8.  The digest does not depend on the size of the buffer through
    which the file is copied: with any buffer that is not empty, the
    copy loop ends, has written every byte of the file to the digest,
    and the digest is that of the whole content. *)
Theorem X8_digest_independent_of_buffer (src : Stream) (buflen : N) :
  (0 < buflen)%N ->
  exists hash,
    Io.CopyBuffer Sha256.New src buflen
    = (hash, Z.of_nat (length (bytes src)), option_map Err (failure src))
    /\ Sha256.Sum hash = Sha256.Sum256 (bytes src)
    /\ forall env path,
        Open env path = inr src -> failure src = None ->
        hashFile env path = (Sprintf_x (Sha256.Sum hash), None).
Proof.
  intros Hbuf. destruct (CopyBuffer_spec src buflen Hbuf) as (hash & Hrun & Habs).
  exists hash. split; [exact Hrun|].
  pose proof (Sum_absorbed hash (bytes src) Habs) as Hsum.
  split; [exact Hsum|].
  intros env path Ho Hf. now rewrite hashFile_spec, Ho, Hf, Hsum.
Qed.

Lemma X8_digest_independent_of_buffer_witness :
  exists hash,
    Io.CopyBuffer Sha256.New (mkStream (lit "abc") None) 2%N
    = (hash, 3, None)
    /\ Sha256.Sum hash = Sha256.Sum256 (lit "abc").
Proof.
  destruct (X8_digest_independent_of_buffer (mkStream (lit "abc") None) 2%N)
    as (hash & Hrun & Hsum & _).
  - reflexivity.
  - exists hash. split; [exact Hrun | exact Hsum].
Defined.

(** ** The name of the report *)

Lemma digits_loop_length (fuel : nat) :
  forall (n : Z) (acc : gostring) (k : nat),
    0 <= n < 10 ^ Z.of_nat (S k) ->
    (length (digits_loop (S fuel) n acc) <= S k + length acc)%nat.
Proof.
  induction fuel as [|fuel IH]; intros n acc k Hn.
  - cbn [digits_loop]. destruct (n <? 10); cbn [length]; lia.
  - rewrite digits_loop_S. destruct (n <? 10) eqn:E; [cbn [length]; lia|].
    apply Z.ltb_ge in E. destruct k as [|k]; [cbn in Hn; lia|].
    assert (Hq : 0 <= n / 10 < 10 ^ Z.of_nat (S k)).
    { split; [apply Z.div_pos; lia|].
      replace (Z.of_nat (S (S k))) with (Z.succ (Z.of_nat (S k))) in Hn by lia.
      rewrite Z.pow_succ_r in Hn by lia. apply Z.div_lt_upper_bound; lia. }
    specialize (IH (n / 10) (digit (n mod 10) :: acc) k Hq).
    cbn [length] in IH. lia.
Qed.

Lemma dec_value_zeros (m : nat) (ds : gostring) :
  dec_value (repeat "0"%byte m ++ ds) = dec_value ds.
Proof.
  unfold dec_value. rewrite fold_left_app. f_equal.
  induction m as [|m IH]; [reflexivity|]. cbn [repeat fold_left]. exact IH.
Qed.

(** [appendInt] on a number that has no more digits than the width:
    exactly [width] digits, which denote the number. *)
Lemma appendInt_spec (x : Z) (k : nat) :
  0 <= x < 10 ^ Z.of_nat (S k) ->
  length (appendInt x (S k)) = S k
  /\ forallb is_digit (appendInt x (S k)) = true
  /\ dec_value (appendInt x (S k)) = x.
Proof.
  intros Hx. unfold appendInt. cbv zeta.
  assert (E : (x <? 0) = false) by (apply Z.ltb_ge; lia).
  rewrite E, Z.abs_eq by lia. cbn [app].
  destruct (decimal_spec x) as (Hne & Hall & Hval); [lia|].
  assert (Hlen : (length (decimal x) <= S k)%nat).
  { pose proof (digits_loop_length (Z.to_nat (Z.log2 x)) x [] k Hx) as H.
    cbn [length] in H. unfold decimal. lia. }
  repeat split.
  - rewrite length_app, repeat_length. lia.
  - rewrite forallb_app, Hall, andb_true_r.
    clear. induction (S k - length (decimal x))%nat as [|m IH]; [reflexivity|].
    cbn [repeat forallb]. exact IH.
  - now rewrite dec_value_zeros.
Qed.

Lemma Time_Format_fields (t : Time) :
  clock_time t ->
  exists y1 y2 y3 y4 m1 m2 d1 d2 h1 h2 n1 n2 s1 s2,
    Time_Format t
    = [y1; y2; y3; y4; m1; m2; d1; d2; "_"%byte; h1; h2; n1; n2; s1; s2]
    /\ forallb is_digit [y1; y2; y3; y4; m1; m2; d1; d2; h1; h2; n1; n2; s1; s2] = true
    /\ dec_value [y1; y2; y3; y4] = year t
    /\ dec_value [m1; m2] = month t
    /\ dec_value [d1; d2] = day t
    /\ dec_value [h1; h2] = hour t
    /\ dec_value [n1; n2] = minute t
    /\ dec_value [s1; s2] = second t.
Proof.
  intros (Hy & Hmo & Hd & Hh & Hmi & Hs). unfold Time_Format.
  destruct (appendInt_spec (year t) 3) as (Ly & Dy & Vy); [cbn; lia|].
  destruct (appendInt_spec (month t) 1) as (Lmo & Dmo & Vmo); [cbn; lia|].
  destruct (appendInt_spec (day t) 1) as (Ld & Dd & Vd); [cbn; lia|].
  destruct (appendInt_spec (hour t) 1) as (Lh & Dh & Vh); [cbn; lia|].
  destruct (appendInt_spec (minute t) 1) as (Lmi & Dmi & Vmi); [cbn; lia|].
  destruct (appendInt_spec (second t) 1) as (Ls & Ds & Vs); [cbn; lia|].
  destruct (appendInt (year t) 4) as [|y1 [|y2 [|y3 [|y4 [|]]]]]; try discriminate Ly.
  destruct (appendInt (month t) 2) as [|m1 [|m2 [|]]]; try discriminate Lmo.
  destruct (appendInt (day t) 2) as [|d1 [|d2 [|]]]; try discriminate Ld.
  destruct (appendInt (hour t) 2) as [|h1 [|h2 [|]]]; try discriminate Lh.
  destruct (appendInt (minute t) 2) as [|n1 [|n2 [|]]]; try discriminate Lmi.
  destruct (appendInt (second t) 2) as [|s1 [|s2 [|]]]; try discriminate Ls.
  exists y1, y2, y3, y4, m1, m2, d1, d2, h1, h2, n1, n2, s1, s2.
  split; [reflexivity|]. repeat split; try assumption.
  cbn [forallb] in *.
  repeat match goal with
         | H : _ && _ = true |- _ => apply andb_true_iff in H as [? ?]
         end.
  repeat match goal with
         | H : is_digit _ = true |- _ => rewrite H; clear H
         end.
  reflexivity.
Qed.

Lemma time_of_name_outputFilename (env : Env) :
  clock_time (Now env) ->
  time_of_name (outputFilename env) = Now env
  /\ length (outputFilename env) = 32%nat.
Proof.
  intros Hc. unfold outputFilename. cbv zeta.
  destruct (Time_Format_fields (Now env) Hc)
    as (y1 & y2 & y3 & y4 & m1 & m2 & d1 & d2 & h1 & h2 & n1 & n2 & s1 & s2
        & -> & _ & Vy & Vmo & Vd & Vh & Vmi & Vs).
  split; [|reflexivity].
  unfold time_of_name, segment.
  let v := eval vm_compute in (lit "hash_results_") in
  change (lit "hash_results_") with v.
  cbn [app skipn firstn].
  rewrite Vy, Vmo, Vd, Vh, Vmi, Vs. now destruct (Now env).
Qed.

(** X9.  For a time that a clock shows, the name of the report is
    [hash_results_], the date as eight digits, an underscore, the time
    of day as six digits and [.csv], 32 bytes in all; the digits read
    back give the year, month, day, hour, minute and second.  So the
    name determines the second of the run: runs in different seconds
    write different files, and runs in the same second the same file. *)
Theorem X9_report_name_shows_the_second (env : Env) :
  clock_time (Now env) ->
  (exists stamp,
      outputFilename env = lit "hash_results_" ++ stamp ++ lit ".csv"
      /\ length stamp = 15%nat
      /\ nth 8 stamp x00 = "_"%byte
      /\ forallb is_digit (firstn 8 stamp ++ skipn 9 stamp) = true)
  /\ length (outputFilename env) = 32%nat
  /\ time_of_name (outputFilename env) = Now env
  /\ forall env',
      clock_time (Now env') ->
      (outputFilename env' = outputFilename env <-> Now env' = Now env).
Proof.
  intros Hc. destruct (time_of_name_outputFilename env Hc) as [Hround Hlen].
  split; [|split; [exact Hlen | split; [exact Hround|]]].
  - destruct (Time_Format_fields (Now env) Hc)
      as (y1 & y2 & y3 & y4 & m1 & m2 & d1 & d2 & h1 & h2 & n1 & n2 & s1 & s2
          & Hfmt & Hdig & _).
    exists (Time_Format (Now env)). split; [reflexivity|]. rewrite Hfmt.
    repeat split. exact Hdig.
  - intros env' Hc'. destruct (time_of_name_outputFilename env' Hc') as [Hround' _].
    split.
    + intros H. rewrite <- Hround, <- Hround'. now rewrite H.
    + intros H. unfold outputFilename. now rewrite H.
Qed.

Lemma X9_report_name_shows_the_second_witness :
  outputFilename (sample_env sample_tree [] None)
  = lit "hash_results_20250101_120530.csv"
  /\ time_of_name (outputFilename (sample_env sample_tree [] None))
     = mkTime 2025 1 1 12 5 30.
Proof.
  destruct (X9_report_name_shows_the_second (sample_env sample_tree [] None))
    as (_ & _ & Hround & _).
  - unfold clock_time. cbn. lia.
  - split; [reflexivity | exact Hround].
Defined.

(** ** The writer on a device of any size *)

Lemma on_device_more (env : Env) (bs : Bufio.Writer * State) (name : gostring)
      (older : list (gostring * list byte)) (logical more : list byte) :
  on_device env bs name older logical ->
  Bufio.err (fst bs) <> None ->
  on_device env bs name older (logical ++ more).
Proof.
  intros (content & Hf & H) Herr. exists content. split; [exact Hf|].
  destruct (Bufio.err (fst bs)); [|contradiction].
  destruct H as (He & Hcap & rest & Hne & Hlog). split; [exact He|].
  split; [exact Hcap|]. exists (rest ++ more). split.
  - destruct rest; [contradiction | discriminate].
  - now rewrite app_assoc, Hlog.
Qed.

(** A write to the file either takes all the bytes, or fills the device
    and fails. *)
Lemma File_Write_cases (env : Env) (b : list byte) (st : State)
      (name : gostring) (content : list byte) (older : list (gostring * list byte)) :
  files st = (name, content) :: older ->
  fits env content ->
  (fits env (content ++ b)
   /\ File_Write env b st
      = ({| stdout := stdout st; stderr := stderr st;
            files := (name, content ++ b) :: older |}, length b, None))
  \/ (exists cap,
         capacity env = Some cap
         /\ (cap < length (content ++ b))%nat
         /\ File_Write env b st
            = ({| stdout := stdout st; stderr := stderr st;
                  files := (name, firstn cap (content ++ b)) :: older |},
               (cap - length content)%nat, Some (Err (write_err env)))).
Proof.
  intros Hf Hfit. unfold File_Write. rewrite Hf. unfold fits in *.
  destruct (capacity env) as [cap|].
  - destruct (length b <=? cap - length content)%nat eqn:E.
    + apply Nat.leb_le in E. left. rewrite length_app. split; [lia | reflexivity].
    + apply Nat.leb_gt in E. right. exists cap. rewrite length_app.
      split; [reflexivity|]. split; [lia|].
      rewrite firstn_app, (firstn_all2 content) by lia. reflexivity.
  - rewrite Nat.leb_refl. left. split; [exact I | reflexivity].
Qed.

Lemma full_device (env : Env) (cap : nat) (logical : list byte) :
  capacity env = Some cap -> (cap < length logical)%nat ->
  capacity env = Some (length (firstn cap logical))
  /\ exists rest, rest <> [] /\ firstn cap logical ++ rest = logical.
Proof.
  intros Hcap Hlt. rewrite length_firstn, Nat.min_l by lia. split; [exact Hcap|].
  exists (skipn cap logical). split; [|apply firstn_skipn].
  intros E. apply (f_equal (@length byte)) in E. rewrite length_skipn in E.
  cbn [length] in E. lia.
Qed.

Lemma Flush_device (env : Env) (bs bs' : Bufio.Writer * State) (r : option GoError)
      (name : gostring) (older : list (gostring * list byte)) (logical : list byte) :
  on_device env bs name older logical ->
  Bufio.Flush env bs = (bs', r) ->
  on_device env bs' name older logical
  /\ (Bufio.err (fst bs') = None -> Bufio.buf (fst bs') = []).
Proof.
  destruct bs as [b st]. intros (content & Hf & H). cbn [fst snd] in *.
  unfold Bufio.Flush. destruct (Bufio.err b) as [e|] eqn:Ee.
  - intros [= <- <-]. split.
    + exists content. cbn [fst snd]. rewrite Ee. auto.
    + cbn [fst]. rewrite Ee. discriminate.
  - destruct H as (Hlog & Hlen & Hfit).
    destruct (length (Bufio.buf b) =? 0)%nat eqn:E.
    + intros [= <- <-]. apply Nat.eqb_eq in E. split.
      * exists content. cbn [fst snd]. rewrite Ee. auto.
      * intros _. cbn [fst]. now destruct (Bufio.buf b).
    + destruct (File_Write_cases env (Bufio.buf b) st name content older Hf Hfit)
        as [[Hfit' ->] | (cap & Hcap & Hlt & ->)]; intros [= <- <-].
      * split; [|reflexivity]. exists (content ++ Bufio.buf b).
        cbn [fst snd files Bufio.err Bufio.buf]. rewrite app_nil_r.
        repeat split; auto. cbn [length]. lia.
      * split; [|discriminate]. exists (firstn cap (content ++ Bufio.buf b)).
        cbn [fst snd files Bufio.err]. split; [reflexivity|].
        split; [reflexivity|]. rewrite Hlog in *. now apply full_device.
Qed.

Lemma WriteByte_device (env : Env) (c : byte) (bs bs' : Bufio.Writer * State)
      (r : option GoError)
      (name : gostring) (older : list (gostring * list byte)) (logical : list byte) :
  on_device env bs name older logical ->
  Bufio.err (fst bs) = None ->
  Bufio.WriteByte env c bs = (bs', r) ->
  on_device env bs' name older (logical ++ [c]) /\ r = Bufio.err (fst bs').
Proof.
  intros Hd Herr. destruct bs as [b st]. cbn [fst snd] in *.
  unfold Bufio.WriteByte. rewrite Herr.
  destruct (Bufio.Available b <=? 0)%nat eqn:E.
  - destruct (Bufio.Flush env (b, st)) as [[b1 st1] e] eqn:Ef.
    pose proof (Flush_result _ _ _ _ Ef) as Hr. cbn [fst] in Hr.
    destruct (Flush_device _ _ _ _ _ _ _ Hd Ef) as [Hd1 Hbuf]. cbn [fst] in Hbuf.
    destruct e as [e|]; intros [= <- <-]; cbn [fst].
    + split; [|reflexivity]. apply on_device_more; [exact Hd1|].
      cbn [fst]. rewrite <- Hr. discriminate.
    + split; [|cbn [Bufio.err]; exact Hr].
      destruct Hd1 as (c1 & Hf1 & H1). cbn [fst snd] in *.
      rewrite <- Hr in H1. destruct H1 as (Hlog1 & _ & Hfit1).
      rewrite (Hbuf (eq_sym Hr)) in *. exists c1.
      cbn [fst snd Bufio.err Bufio.buf]. rewrite <- Hr. split; [exact Hf1|].
      rewrite app_nil_r in Hlog1. subst c1. cbn [app length].
      repeat split; auto. unfold Bufio.defaultBufSize. lia.
  - apply Nat.leb_gt in E. unfold Bufio.Available in E. intros [= <- <-].
    cbn [fst Bufio.err]. rewrite Herr. split; [|reflexivity].
    destruct Hd as (content & Hf & H). cbn [fst snd] in *. rewrite Herr in H.
    destruct H as (Hlog & Hlen & Hfit). exists content.
    cbn [fst snd Bufio.err Bufio.buf]. rewrite ?Herr. split; [exact Hf|].
    rewrite length_app, app_assoc, Hlog. cbn [length]. repeat split; auto. lia.
Qed.

Lemma WriteString_device (env : Env) (s : gostring) (bs bs' : Bufio.Writer * State)
      (r : option GoError)
      (name : gostring) (older : list (gostring * list byte)) (logical : list byte) :
  on_device env bs name older logical ->
  Bufio.err (fst bs) = None ->
  Bufio.WriteString env s bs = (bs', r) ->
  on_device env bs' name older (logical ++ s) /\ r = Bufio.err (fst bs').
Proof.
  intros Hd Herr. pose proof Hd as (content & Hf & H).
  destruct bs as [b st]. cbn [fst snd] in *. rewrite Herr in H.
  destruct H as (Hlog & Hlen & Hfit).
  unfold Bufio.WriteString. cbn [Bufio.writeStringLoop].
  rewrite Herr. cbn [Bufio.isNone]. rewrite andb_true_r.
  destruct (Bufio.Available b <? length s)%nat eqn:E1.
  - destruct (Bufio.Buffered b =? 0)%nat eqn:E2.
    + (* the buffer is empty: the string goes to the file as it is *)
      apply Nat.eqb_eq in E2. unfold Bufio.Buffered in E2.
      destruct (Bufio.buf b) eqn:Eb; [|discriminate E2].
      rewrite app_nil_r in Hlog. subst content.
      destruct (File_Write_cases env s st name logical older Hf Hfit)
        as [[Hfit' ->] | (cap & Hcap & Hlt & ->)].
      * rewrite skipn_all. cbn [length Nat.ltb Nat.leb andb Bufio.err Bufio.buf].
        intros [= <- <-]. split; [|reflexivity]. exists (logical ++ s).
        cbn [fst snd files Bufio.err Bufio.buf]. rewrite ?firstn_nil.
        cbn [app length]. rewrite app_nil_r. repeat split; auto; unfold Bufio.defaultBufSize; lia.
      * cbn [Bufio.err Bufio.isNone]. rewrite andb_false_r.
        intros [= <- <-]. split; [|reflexivity].
        exists (firstn cap (logical ++ s)).
        cbn [fst snd files Bufio.err]. split; [reflexivity|].
        split; [reflexivity|]. now apply full_device.
    + (* the buffer is filled up and flushed *)
      set (n := Bufio.Available b).
      set (b' := {| Bufio.buf := Bufio.buf b ++ firstn n s; Bufio.err := None |}).
      apply Nat.ltb_lt in E1. fold n in E1.
      assert (Hd' : on_device env (b', st) name older (logical ++ firstn n s)).
      { exists content. unfold b'. cbn [fst snd Bufio.buf Bufio.err].
        split; [exact Hf|]. rewrite app_assoc, Hlog. repeat split; auto.
        rewrite length_app, length_firstn. unfold n, Bufio.Available in *. lia. }
      assert (Hrest : (logical ++ firstn n s) ++ skipn n s = logical ++ s)
        by now rewrite <- app_assoc, firstn_skipn.
      destruct (Bufio.Flush env (b', st)) as [[b1 st1] r1] eqn:Ef.
      destruct (Flush_device _ _ _ _ _ _ _ Hd' Ef) as [Hd1 Hbuf]. cbn [fst] in Hbuf.
      destruct (Bufio.err b1) as [e1|] eqn:Eerr1.
      * cbn [Bufio.isNone]. rewrite andb_false_r, Eerr1.
        intros [= <- <-]. cbn [fst]. rewrite Eerr1. split; [|reflexivity].
        rewrite <- Hrest. apply on_device_more; [exact Hd1|].
        cbn [fst]. rewrite Eerr1. discriminate.
      * specialize (Hbuf eq_refl). destruct Hd1 as (c1 & Hf1 & H1).
        cbn [fst snd] in *. rewrite Eerr1, Hbuf, app_nil_r in H1.
        destruct H1 as (Hlog1 & _ & Hfit1). subst c1.
        cbn [Bufio.isNone]. rewrite andb_true_r.
        unfold Bufio.Available at 1, Bufio.Buffered. rewrite Hbuf.
        cbn [length Nat.eqb].
        destruct (Bufio.defaultBufSize - 0 <? length (skipn n s))%nat eqn:E3.
        -- destruct (File_Write_cases env (skipn n s) st1 name _ older Hf1 Hfit1)
             as [[Hfit' ->] | (cap & Hcap & Hlt & ->)].
           ++ cbn [Bufio.err Bufio.buf]. intros [= <- <-]. split; [|reflexivity].
              exists (logical ++ s).
              cbn [fst snd files Bufio.err Bufio.buf].
              rewrite ?skipn_all, ?firstn_nil. cbn [length app].
              rewrite app_nil_r, Hrest in *. repeat split; auto; unfold Bufio.defaultBufSize; lia.
           ++ cbn [Bufio.err]. intros [= <- <-]. split; [|reflexivity].
              rewrite Hrest in *. exists (firstn cap (logical ++ s)).
              cbn [fst snd files Bufio.err]. split; [reflexivity|].
              split; [reflexivity|]. now apply full_device.
        -- apply Nat.ltb_ge in E3. rewrite Eerr1. intros [= <- <-].
           split; [|reflexivity]. exists (logical ++ firstn n s).
           cbn [fst snd Bufio.buf Bufio.err]. split; [exact Hf1|].
           unfold Bufio.Available. rewrite Hbuf. cbn [length app].
           rewrite Nat.min_r by lia. rewrite firstn_all. repeat split; auto; lia.
  - (* the string fits into the buffer *)
    apply Nat.ltb_ge in E1. rewrite Herr. intros [= <- <-].
    split; [|reflexivity]. exists content.
    cbn [fst snd Bufio.buf Bufio.err]. split; [exact Hf|].
    rewrite Nat.min_r by exact E1. rewrite firstn_all.
    rewrite app_assoc, Hlog, length_app. unfold Bufio.Available in E1.
    repeat split; auto; lia.
Qed.

Lemma calls_device (env : Env) (cs : list Bufio.Call) :
  forall (bs bs' : Bufio.Writer * State) (r : option GoError) (name : gostring)
         (older : list (gostring * list byte)) (logical : list byte),
    on_device env bs name older logical ->
    Bufio.err (fst bs) = None ->
    Bufio.calls env cs bs = (bs', r) ->
    on_device env bs' name older (logical ++ flat_map Bufio.payload cs)
    /\ r = Bufio.err (fst bs').
Proof.
  induction cs as [|c cs IH]; intros bs bs' r name older logical Hd Herr.
  - cbn [Bufio.calls flat_map]. intros [= <- <-]. rewrite app_nil_r. auto.
  - cbn [Bufio.calls flat_map].
    destruct (Bufio.call env c bs) as [bs1 e] eqn:Ec.
    assert (H1 : on_device env bs1 name older (logical ++ Bufio.payload c)
                 /\ e = Bufio.err (fst bs1)).
    { destruct c as [c|s]; cbn [Bufio.call Bufio.payload] in *.
      - now apply (WriteByte_device env c bs).
      - now apply (WriteString_device env s bs). }
    destruct H1 as [Hd1 He]. rewrite app_assoc. destruct e as [e|].
    + intros [= <- <-]. split; [|exact He]. apply on_device_more; [exact Hd1|].
      rewrite <- He. discriminate.
    + apply (IH bs1); auto.
Qed.

Lemma rows_device (env : Env) (recs : list HashedFileInfo) :
  forall (ws ws' : Bufio.Writer * State) (r : option GoError) (name : gostring)
         (older : list (gostring * list byte)) (logical : list byte),
    on_device env ws name older logical ->
    Bufio.err (fst ws) = None ->
    writeToCsv_rows env recs ws = (ws', r) ->
    on_device env ws' name older
              (logical ++ flat_map (fun r => Csv.encode (csv_row r)) recs)
    /\ match r with
       | None => Bufio.err (fst ws') = None
       | Some e =>
         Bufio.err (fst ws') <> None
         /\ e = Errorf_w (lit "failed to write content to CSV: ") (Err (write_err env))
       end.
Proof.
  induction recs as [|x recs IH]; intros ws ws' r name older logical Hd Herr.
  - cbn [writeToCsv_rows flat_map]. intros [= <- <-]. rewrite app_nil_r. tauto.
  - cbn [writeToCsv_rows flat_map]. unfold Csv.Write.
    destruct (Bufio.calls env (Csv.record_calls (csv_row x)) ws) as [ws1 e] eqn:Ec.
    destruct (calls_device env _ _ _ _ _ _ _ Hd Herr Ec) as [Hd1 He].
    fold (Csv.encode (csv_row x)) in Hd1. rewrite app_assoc. destruct e as [e|].
    + intros [= <- <-]. split.
      * apply on_device_more; [exact Hd1|]. rewrite <- He. discriminate.
      * rewrite <- He. split; [discriminate|].
        destruct Hd1 as (c & _ & H). rewrite <- He in H. now destruct H as [-> _].
    + apply (IH ws1); auto.
Qed.

(** What [writeToCsv] leaves on a device of any size, once the file is
    created: the header never fails, for it goes to the empty buffer;
    the rows fail when a flush does; the deferred flush may fail
    unseen. *)
Lemma writeToCsv_on_device (env : Env) (recs : list HashedFileInfo) (st : State) :
  Create_err env (outputFilename env) = None ->
  exists st' err,
    writeToCsv env recs st = (st', err)
    /\ files st' = (outputFilename env, accepted env (report recs)) :: files st
    /\ stderr st' = stderr st
    /\ match err with
       | None =>
         stdout st' = stdout st ++ lit "Output written to: "
                             ++ match Abs env (outputFilename env) with
                                | inl _ => outputFilename env
                                | inr absPath => absPath
                                end ++ newline
       | Some e =>
         e = Errorf_w (lit "failed to write content to CSV: ") (Err (write_err env))
         /\ stdout st' = stdout st
         /\ ~ fits env (report recs)
       end.
Proof.
  intros Hcreate.
  assert (Hfinal : forall ws : Bufio.Writer * State,
             on_device env ws (outputFilename env) (files st) (report recs) ->
             files (snd (writeToCsv_deferred env ws))
             = (outputFilename env, accepted env (report recs)) :: files st
             /\ (Bufio.err (fst ws) <> None -> ~ fits env (report recs))).
  { intros ws Hd. unfold writeToCsv_deferred.
    destruct (Bufio.Flush env ws) as [ws' r] eqn:Ef.
    destruct (Flush_device _ _ _ _ _ _ _ Hd Ef) as [(c & Hf & H) Hbuf].
    cbn [fst]. rewrite Hf. unfold accepted, fits.
    destruct (Bufio.err (fst ws')) as [e|] eqn:Ee.
    - destruct H as (_ & Hcap & rest & Hne & Hlog). rewrite Hcap, <- Hlog.
      split.
      + rewrite firstn_app, firstn_all, Nat.sub_diag. cbn [firstn]. now rewrite app_nil_r.
      + intros _. rewrite length_app. destruct rest; [contradiction|].
        cbn [length]. lia.
    - destruct H as (Hlog & _ & Hfit). rewrite (Hbuf eq_refl), app_nil_r in Hlog.
      subst c. split.
      + unfold fits in Hfit. destruct (capacity env); [|reflexivity].
        now rewrite firstn_all2.
      + intros Hbad. exfalso. apply Hbad.
        destruct ws as [b s0]. unfold Bufio.Flush in Ef. cbn [fst].
        destruct (Bufio.err b) as [e|] eqn:Eb; [|reflexivity].
        injection Ef as <- _. cbn [fst] in Ee. congruence. }
  unfold writeToCsv, writeToCsv_writer, os_Create. rewrite Hcreate, header_buffered.
  set (st0 := {| stdout := stdout st; stderr := stderr st;
                 files := (outputFilename env, []) :: files st |}).
  set (w1 := {| Bufio.buf := Csv.encode csv_header; Bufio.err := None |}).
  assert (Hd1 : on_device env (w1, st0) (outputFilename env) (files st)
                          (Csv.encode csv_header)).
  { exists []. unfold w1, st0, fits.
    cbn [fst snd files Bufio.err Bufio.buf app]. split; [reflexivity|].
    split; [reflexivity|].
    split; [change (length (Csv.encode csv_header)) with 25%nat;
            unfold Bufio.defaultBufSize; lia|].
    destruct (capacity env); cbn [length]; [lia | exact I]. }
  assert (Hso : stdout st0 = stdout st) by reflexivity.
  assert (Hse : stderr st0 = stderr st) by reflexivity.
  pose proof (rows_same env recs (w1, st0)) as (Ho2 & He2 & _).
  destruct (writeToCsv_rows env recs (w1, st0)) as [ws2 e2] eqn:E2.
  cbn [fst snd] in Ho2, He2.
  destruct (rows_device env recs _ _ _ _ _ _ Hd1 eq_refl E2) as [Hd2 Hr2].
  fold (report recs) in Hd2. destruct e2 as [e2|].
  - destruct Hr2 as [Herr2 ->]. destruct (Hfinal ws2 Hd2) as [Hfiles Hnofit].
    pose proof (Flush_same env ws2) as (Ho & He & _).
    unfold writeToCsv_deferred in *.
    destruct (Bufio.Flush env ws2) as [[w st'] r]. cbn [fst snd] in *.
    exists st'. eexists. split; [reflexivity|]. split; [exact Hfiles|].
    split; [congruence|]. split; [reflexivity|]. split; [congruence | auto].
  - destruct ws2 as [writer st2]. cbn [fst snd] in *.
    set (st3 := printToStdOut _ st2).
    destruct (Hfinal (writer, st3) Hd2) as [Hfiles _].
    pose proof (Flush_same env (writer, st3)) as (Ho & He & _).
    unfold writeToCsv_deferred in *.
    destruct (Bufio.Flush env (writer, st3)) as [[w st'] r]. cbn [fst snd] in *.
    exists st'. eexists. split; [reflexivity|]. split; [exact Hfiles|].
    split.
    + rewrite He. unfold st3. cbn [stderr printToStdOut]. congruence.
    + rewrite Ho. unfold st3. cbn [stdout printToStdOut]. rewrite Ho2, Hso.
      reflexivity.
Qed.

(** X10.  Once the output file is created, it holds in every outcome
    the part of the report that the device took: the whole report when
    it fits, its first bytes up to the capacity of the device otherwise.
    An error is returned only when the report does not fit, and then
    nothing is printed; without error the place of the report is
    printed; standard error is never written. *)
Theorem X10_file_is_what_the_device_took (env : Env) (recs : list HashedFileInfo)
        (st : State) :
  Create_err env (outputFilename env) = None ->
  exists st' err,
    writeToCsv env recs st = (st', err)
    /\ files st' = (outputFilename env, accepted env (report recs)) :: files st
    /\ stderr st' = stderr st
    /\ match err with
       | None =>
         stdout st' = stdout st ++ lit "Output written to: "
                             ++ match Abs env (outputFilename env) with
                                | inl _ => outputFilename env
                                | inr absPath => absPath
                                end ++ newline
       | Some _ => stdout st' = stdout st /\ ~ fits env (report recs)
       end.
Proof.
  intros Hcreate.
  destruct (writeToCsv_on_device env recs st Hcreate)
    as (st' & err & Hrun & Hfiles & Herr & Hcase).
  exists st', err. split; [exact Hrun|]. split; [exact Hfiles|]. split; [exact Herr|].
  destruct err as [e|]; [|exact Hcase].
  destruct Hcase as (_ & Hout & Hnofit). auto.
Qed.

(** ** A report that fits into the buffer of the writer *)

Lemma WriteByte_buffered (env : Env) (c : byte) (bs : Bufio.Writer * State)
      (name : gostring) (older : list (gostring * list byte)) (logical : list byte) :
  buffered bs name older logical ->
  (length (logical ++ [c]) <= Bufio.defaultBufSize)%nat ->
  exists bs',
    Bufio.WriteByte env c bs = (bs', None)
    /\ buffered bs' name older (logical ++ [c]).
Proof.
  destruct bs as [b st]. intros (Herr & Hf & Hbuf & _) Hlen. cbn [fst snd] in *.
  unfold Bufio.WriteByte. rewrite Herr.
  assert (E : (Bufio.Available b <=? 0)%nat = false).
  { apply Nat.leb_gt. unfold Bufio.Available. rewrite Hbuf.
    rewrite length_app in Hlen. cbn [length] in Hlen. lia. }
  rewrite E. eexists. split; [reflexivity|].
  unfold buffered. cbn [fst snd Bufio.err Bufio.buf]. rewrite Hbuf. auto.
Qed.

Lemma WriteString_buffered (env : Env) (s : gostring) (bs : Bufio.Writer * State)
      (name : gostring) (older : list (gostring * list byte)) (logical : list byte) :
  buffered bs name older logical ->
  (length (logical ++ s) <= Bufio.defaultBufSize)%nat ->
  exists bs',
    Bufio.WriteString env s bs = (bs', None)
    /\ buffered bs' name older (logical ++ s).
Proof.
  destruct bs as [b st]. intros (Herr & Hf & Hbuf & _) Hlen. cbn [fst snd] in *.
  unfold Bufio.WriteString. cbn [Bufio.writeStringLoop].
  assert (E : (length s <= Bufio.Available b)%nat).
  { unfold Bufio.Available. rewrite Hbuf. rewrite length_app in Hlen. lia. }
  assert (E' : (Bufio.Available b <? length s)%nat = false) by now apply Nat.ltb_ge.
  rewrite E'. cbn [andb]. rewrite Herr. eexists. split; [reflexivity|].
  unfold buffered. cbn [fst snd Bufio.err Bufio.buf].
  rewrite Nat.min_r by exact E. rewrite firstn_all, Hbuf. auto.
Qed.

Lemma calls_buffered (env : Env) (cs : list Bufio.Call) :
  forall (bs : Bufio.Writer * State) (name : gostring)
         (older : list (gostring * list byte)) (logical : list byte),
    buffered bs name older logical ->
    (length (logical ++ flat_map Bufio.payload cs) <= Bufio.defaultBufSize)%nat ->
    exists bs',
      Bufio.calls env cs bs = (bs', None)
      /\ buffered bs' name older (logical ++ flat_map Bufio.payload cs).
Proof.
  induction cs as [|c cs IH]; intros bs name older logical Hb Hlen.
  - exists bs. cbn [Bufio.calls flat_map]. rewrite app_nil_r. auto.
  - cbn [Bufio.calls flat_map] in *. rewrite app_assoc in Hlen.
    assert (Hlen1 : (length (logical ++ Bufio.payload c) <= Bufio.defaultBufSize)%nat)
      by (rewrite length_app in Hlen; lia).
    assert (H1 : exists bs1, Bufio.call env c bs = (bs1, None)
                             /\ buffered bs1 name older (logical ++ Bufio.payload c)).
    { destruct c as [c|s]; cbn [Bufio.call Bufio.payload] in *.
      - now apply WriteByte_buffered.
      - now apply WriteString_buffered. }
    destruct H1 as (bs1 & Hrun & Hb1). rewrite Hrun.
    destruct (IH bs1 name older _ Hb1 Hlen) as (bs' & Hrun' & Hb').
    exists bs'. rewrite app_assoc. auto.
Qed.

Lemma rows_buffered (env : Env) (recs : list HashedFileInfo) :
  forall (ws : Bufio.Writer * State) (name : gostring)
         (older : list (gostring * list byte)) (logical : list byte),
    buffered ws name older logical ->
    (length (logical ++ flat_map (fun r => Csv.encode (csv_row r)) recs)
     <= Bufio.defaultBufSize)%nat ->
    exists ws',
      writeToCsv_rows env recs ws = (ws', None)
      /\ buffered ws' name older
                  (logical ++ flat_map (fun r => Csv.encode (csv_row r)) recs).
Proof.
  induction recs as [|r recs IH]; intros ws name older logical Hb Hlen.
  - exists ws. cbn [writeToCsv_rows flat_map]. rewrite app_nil_r. auto.
  - cbn [writeToCsv_rows flat_map] in *. rewrite app_assoc in Hlen.
    destruct (calls_buffered env (Csv.record_calls (csv_row r)) ws name older logical Hb)
      as (ws1 & Hrun & Hb1).
    { fold (Csv.encode (csv_row r)). rewrite length_app in Hlen. lia. }
    unfold Csv.Write. rewrite Hrun. fold (Csv.encode (csv_row r)) in Hb1.
    destruct (IH ws1 name older _ Hb1 Hlen) as (ws' & Hrun' & Hb').
    exists ws'. rewrite app_assoc. auto.
Qed.

(** A report that fits into the buffer meets no write before the
    deferred flush, so no error is returned. *)
Lemma small_report_returns_nil (env : Env) (recs : list HashedFileInfo) (st : State) :
  Create_err env (outputFilename env) = None ->
  (length (report recs) <= Bufio.defaultBufSize)%nat ->
  snd (writeToCsv env recs st) = None.
Proof.
  intros Hcreate Hsmall. unfold writeToCsv, writeToCsv_writer, os_Create.
  rewrite Hcreate, header_buffered.
  set (st0 := {| stdout := stdout st; stderr := stderr st;
                 files := (outputFilename env, []) :: files st |}).
  set (w1 := {| Bufio.buf := Csv.encode csv_header; Bufio.err := None |}).
  assert (Hb1 : buffered (w1, st0) (outputFilename env) (files st)
                         (Csv.encode csv_header)).
  { unfold buffered, w1, st0. cbn [fst snd files Bufio.err Bufio.buf].
    repeat split. change (length (Csv.encode csv_header)) with 25%nat.
    unfold Bufio.defaultBufSize. lia. }
  unfold report in Hsmall.
  destruct (rows_buffered env recs (w1, st0) _ _ _ Hb1 Hsmall) as ([w2 st2] & -> & _).
  now destruct (writeToCsv_deferred env _).
Qed.

(** X11.  A report of at most 4096 bytes stays in the buffer of the csv
    writer until the deferred flush, whose error is not read: once the
    file is created, [writeToCsv] returns no error and prints where the
    report is, whatever the device takes; the file holds the part of the
    report that the device took. *)
Theorem X11_small_report_never_fails (env : Env) (recs : list HashedFileInfo)
        (st : State) :
  Create_err env (outputFilename env) = None ->
  (length (report recs) <= 4096)%nat ->
  exists st',
    writeToCsv env recs st = (st', None)
    /\ files st' = (outputFilename env, accepted env (report recs)) :: files st
    /\ stdout st' = stdout st ++ lit "Output written to: "
                           ++ match Abs env (outputFilename env) with
                              | inl _ => outputFilename env
                              | inr absPath => absPath
                              end ++ newline
    /\ stderr st' = stderr st.
Proof.
  intros Hcreate Hsmall.
  pose proof (small_report_returns_nil env recs st Hcreate Hsmall) as Hnil.
  destruct (writeToCsv_on_device env recs st Hcreate)
    as (st' & err & Hrun & Hfiles & Herr & Hcase).
  rewrite Hrun in Hnil. cbn [snd] in Hnil. subst err.
  exists st'. auto.
Qed.

Lemma X11_small_report_never_fails_witness :
  exists st',
    writeToCsv (sample_env sample_tree [] (Some 30%nat)) sample_records empty_state
    = (st', None)
    /\ files st'
       = [(lit "hash_results_20250101_120530.csv",
           lit "Name,Path,Size (MB),Hash" ++ newline ++ lit "a.txt")].
Proof.
  destruct (X11_small_report_never_fails
              (sample_env sample_tree [] (Some 30%nat)) sample_records empty_state)
    as (st' & Hrun & Hfiles & _).
  - reflexivity.
  - vm_compute. lia.
  - exists st'. split; [exact Hrun|]. rewrite Hfiles. vm_compute. reflexivity.
Defined.

Lemma X10_file_is_what_the_device_took_witness :
  exists st' err,
    writeToCsv (sample_env sample_tree [] (Some 100%nat)) sample_records empty_state
    = (st', err)
    /\ files st'
       = (outputFilename (sample_env sample_tree [] (Some 100%nat)),
          accepted (sample_env sample_tree [] (Some 100%nat)) (report sample_records))
           :: files empty_state
    /\ stderr st' = stderr empty_state
    /\ match err with
       | None =>
         stdout st'
         = stdout empty_state ++ lit "Output written to: "
             ++ match Abs (sample_env sample_tree [] (Some 100%nat))
                          (outputFilename (sample_env sample_tree [] (Some 100%nat)))
                with
                | inl _ => outputFilename (sample_env sample_tree [] (Some 100%nat))
                | inr absPath => absPath
                end ++ newline
       | Some _ =>
         stdout st' = stdout empty_state
         /\ ~ fits (sample_env sample_tree [] (Some 100%nat)) (report sample_records)
       end.
Proof.
  apply (X10_file_is_what_the_device_took
           (sample_env sample_tree [] (Some 100%nat)) sample_records empty_state).
  reflexivity.
Defined.

(** X18.  The errors of [writeToCsv]: that of [os.Create] behind
    [failed to create CSV file: ], with the state as it was; or that of
    a write to the device behind [failed to write content to CSV: ],
    and this only for a report of more than 4096 bytes that does not
    fit on the device.  The header goes to the empty buffer of the
    writer, so the error [failed to write header to CSV: ] is never
    returned. *)
Theorem X18_errors_of_writeToCsv (env : Env) (recs : list HashedFileInfo)
        (st : State) :
  match Create_err env (outputFilename env) with
  | Some msg =>
    writeToCsv env recs st
    = (st, Some (Err (lit "failed to create CSV file: " ++ msg)))
  | None =>
    snd (writeToCsv env recs st) = None
    \/ (snd (writeToCsv env recs st)
        = Some (Err (lit "failed to write content to CSV: " ++ write_err env))
        /\ (4096 < length (report recs))%nat
        /\ ~ fits env (report recs))
  end
  /\ (forall st0, Csv.Write env csv_header (Bufio.NewWriter, st0)
                  = (({| Bufio.buf := Csv.encode csv_header; Bufio.err := None |}, st0),
                     None))
  /\ forall cause,
      snd (writeToCsv env recs st)
      <> Some (Errorf_w (lit "failed to write header to CSV: ") cause).
Proof.
  assert (Hcases :
            match Create_err env (outputFilename env) with
            | Some msg =>
              writeToCsv env recs st
              = (st, Some (Err (lit "failed to create CSV file: " ++ msg)))
            | None =>
              snd (writeToCsv env recs st) = None
              \/ (snd (writeToCsv env recs st)
                  = Some (Err (lit "failed to write content to CSV: " ++ write_err env))
                  /\ (4096 < length (report recs))%nat
                  /\ ~ fits env (report recs))
            end).
  { destruct (Create_err env (outputFilename env)) as [msg|] eqn:Hcreate.
    - unfold writeToCsv, writeToCsv_writer, os_Create. now rewrite Hcreate.
    - destruct (writeToCsv_on_device env recs st Hcreate)
        as (st' & err & Hrun & _ & _ & Hcase).
      rewrite Hrun. cbn [snd]. destruct err as [e|]; [right | now left].
      destruct Hcase as (-> & _ & Hnofit). split; [reflexivity|]. split; [|exact Hnofit].
      destruct (Nat.le_gt_cases (length (report recs)) 4096) as [Hle|Hgt]; [|exact Hgt].
      pose proof (small_report_returns_nil env recs st Hcreate Hle) as Hnil.
      rewrite Hrun in Hnil. discriminate Hnil. }
  split; [exact Hcases|]. split; [intros st0; apply header_buffered|].
  intros cause Heq.
  assert (Hbyte : forall (a b : gostring) (e : option GoError),
             e = Some (Err (a ++ b)) ->
             e = Some (Errorf_w (lit "failed to write header to CSV: ") cause) ->
             nth 16 (a ++ b) x00 = "h"%byte).
  { intros a b e -> [= ->]. reflexivity. }
  destruct (Create_err env (outputFilename env)) as [msg|].
  - rewrite Hcases in Heq. cbn [snd] in Heq.
    discriminate (Hbyte _ _ _ eq_refl Heq).
  - destruct Hcases as [Hnone | (Hsome & _)]; [congruence|].
    rewrite Hsome in Heq. discriminate (Hbyte _ _ _ eq_refl Heq).
Qed.

(** ** The text of a row *)

Lemma csv_halve_double (field : gostring) :
  csv_halve (flat_map csv_double field) = field.
Proof.
  induction field as [|c field IH]; [reflexivity|].
  cbn [flat_map]. unfold csv_double at 1. destruct (Byte.eqb c x22) eqn:E.
  - cbn [app csv_halve]. rewrite E. cbn [andb]. now rewrite IH.
  - cbn [app csv_halve]. rewrite E. cbn [andb]. f_equal.
    destruct (flat_map csv_double field); exact IH.
Qed.

Lemma index_special_plain (field : gostring) :
  flat_map csv_double (firstn (Csv.index_special field) field)
  = firstn (Csv.index_special field) field.
Proof.
  induction field as [|c field IH]; [reflexivity|].
  cbn [Csv.index_special]. destruct (Csv.is_special c) eqn:E; [reflexivity|].
  cbn [firstn flat_map]. rewrite IH. unfold csv_double.
  unfold Csv.is_special in E. apply orb_false_iff in E as [_ E]. now rewrite E.
Qed.

Lemma index_special_hit (field : gostring) (c : byte) (rest : gostring) :
  skipn (Csv.index_special field) field = c :: rest ->
  Csv.is_special c = true /\ (length rest < length field)%nat.
Proof.
  induction field as [|d field IH]; [discriminate|].
  cbn [Csv.index_special]. destruct (Csv.is_special d) eqn:E.
  - cbn [skipn]. intros [= <- <-]. cbn [length]. auto.
  - cbn [skipn length]. intros H. destruct (IH H). auto.
Qed.

(** The loop that writes a quoted field hands over the field with its
    quotes doubled. *)
Lemma quoted_loop_payload (fuel : nat) :
  forall field : gostring,
    (length field <= fuel)%nat ->
    flat_map Bufio.payload (Csv.quoted_loop fuel field) = flat_map csv_double field.
Proof.
  induction fuel as [|fuel IH]; intros field Hlen.
  - destruct field; [reflexivity | cbn [length] in Hlen; lia].
  - destruct field as [|c0 field0]; [reflexivity|].
    change (Csv.quoted_loop (S fuel) (c0 :: field0))
      with (Bufio.CallWriteString
              (firstn (Csv.index_special (c0 :: field0)) (c0 :: field0))
              :: match skipn (Csv.index_special (c0 :: field0)) (c0 :: field0) with
                 | [] => []
                 | c :: rest =>
                   (if Byte.eqb c x22
                    then Bufio.CallWriteString [c; c]
                    else Bufio.CallWriteByte c)
                     :: Csv.quoted_loop fuel rest
                 end).
    remember (c0 :: field0) as field eqn:Efield. clear Efield.
    cbn [flat_map Bufio.payload].
    transitivity (flat_map csv_double (firstn (Csv.index_special field) field
                                         ++ skipn (Csv.index_special field) field));
      [|now rewrite firstn_skipn].
    rewrite flat_map_app, index_special_plain. f_equal.
    destruct (skipn (Csv.index_special field) field) as [|c rest] eqn:Es;
      [reflexivity|].
    destruct (index_special_hit field c rest Es) as [Hc Hlt].
    cbn [flat_map]. rewrite IH by lia. f_equal.
    unfold csv_double. destruct (Byte.eqb c x22); reflexivity.
Qed.

Lemma field_calls_payload (field : gostring) :
  flat_map Bufio.payload (Csv.field_calls field) = csv_field field.
Proof.
  unfold Csv.field_calls, csv_field. destruct (Csv.fieldNeedsQuotes field).
  - cbn [negb flat_map Bufio.payload app]. rewrite flat_map_app.
    rewrite quoted_loop_payload by lia. reflexivity.
  - cbn [negb flat_map Bufio.payload]. apply app_nil_r.
Qed.

Lemma encode_four (a b c d : gostring) :
  Csv.encode [a; b; c; d]
  = csv_field a ++ lit "," ++ csv_field b ++ lit "," ++ csv_field c ++ lit ","
      ++ csv_field d ++ newline.
Proof.
  unfold Csv.encode, Csv.record_calls. cbn [Csv.fields_calls Nat.ltb Nat.leb app].
  repeat first [ rewrite flat_map_app | rewrite field_calls_payload
               | progress cbn [flat_map Bufio.payload app] ].
  change (lit ",") with [Csv.Comma]. rewrite ?app_nil_r.
  repeat first [ rewrite <- app_assoc | rewrite <- app_comm_cons ].
  reflexivity.
Qed.

Lemma sober_plain (c : byte) :
  is_sober c = true ->
  (Csv.is_special c || Byte.eqb c Csv.Comma) = false
  /\ Byte.eqb c "\"%byte = false
  /\ (b2z c <? 128) = true
  /\ Unicode.IsSpace (b2z c) = false.
Proof. destruct c; intros H; try discriminate H; repeat split. Qed.

(** A field of sober bytes is written as it is. *)
Lemma sober_needs_no_quotes (field : gostring) :
  forallb is_sober field = true -> Csv.fieldNeedsQuotes field = false.
Proof.
  destruct field as [|c t]; [reflexivity|]. intros H.
  unfold Csv.fieldNeedsQuotes.
  assert (Hc : is_sober c = true) by (cbn [forallb] in H; now apply andb_true_iff in H).
  destruct (sober_plain c Hc) as (_ & Hb & Ha & Hs).
  assert (E1 : gostring_eqb (c :: t) (lit "\.") = false).
  { destruct (gostring_eqb (c :: t) (lit "\.")) eqn:E; [|reflexivity].
    apply gostring_eqb_eq in E. injection E as -> _. discriminate Hb. }
  rewrite E1.
  assert (E2 : existsb (fun c => Csv.is_special c || Byte.eqb c Csv.Comma) (c :: t)
               = false).
  { clear E1 Hc Hb Ha Hs. induction (c :: t) as [|x l IH]; [reflexivity|].
    cbn [forallb existsb] in *. apply andb_true_iff in H as [Hx Hl].
    destruct (sober_plain x Hx) as (-> & _). now apply IH. }
  rewrite E2, decode_ascii by exact Ha. exact Hs.
Qed.

Lemma digit_sober (c : byte) : is_digit c = true -> is_sober c = true.
Proof. unfold is_sober. now intros ->. Qed.

Lemma hex_sober (c : byte) : is_lower_hex c = true -> is_sober c = true.
Proof. unfold is_sober. intros ->. now rewrite orb_true_r. Qed.

Lemma forallb_weaken {A} (p q : A -> bool) (l : list A) :
  (forall x, p x = true -> q x = true) -> forallb p l = true -> forallb q l = true.
Proof.
  intros H. induction l as [|x l IH]; [reflexivity|]. cbn [forallb].
  intros Hl. apply andb_true_iff in Hl as [Hx Hl]. now rewrite (H x Hx), IH.
Qed.

Lemma size_field_sober (hashedFileInfo : HashedFileInfo) :
  forallb is_sober
          (Float64.Sprintf_2f
             (Float64.div_1048576 (Float64.of_int64 (Size hashedFileInfo)))) = true.
Proof.
  set (x := Float64.div_1048576 (Float64.of_int64 (Size hashedFileInfo))).
  destruct (Sprintf_2f_spec x) as (intpart & d1 & d2 & -> & _ & Hall & _).
  { unfold x, Float64.div_1048576, Float64.of_int64.
    destruct (_ <=? 0); cbn; lia. }
  rewrite forallb_app in Hall. apply andb_true_iff in Hall as [Hi Hd].
  rewrite !forallb_app.
  rewrite (forallb_weaken _ _ _ digit_sober Hi), (forallb_weaken _ _ _ digit_sober Hd).
  destruct (Float64.num x <? 0); reflexivity.
Qed.


(** ** Small sizes *)



(** ** The command as a whole *)

Lemma RunE_stderr (env : Env) (extensions args : list gostring) (st : State) :
  stderr (fst (RunE env extensions args st)) = stderr st.
Proof.
  unfold RunE. destruct (getFolderPath env args) as [folderPath [e|]]; [reflexivity|].
  destruct (processFiles_spec env folderPath (formatExtensions extensions) st)
    as (st1 & _ & He1 & Hrun1).
  destruct (walk_fails env (formatExtensions extensions) folderPath).
  { destruct Hrun1 as [msg ->]. exact He1. }
  destruct Hrun1 as (recs & -> & _).
  destruct (writeToCsv_outcome env recs st1) as (st2 & e2 & -> & He2 & _).
  destruct e2; cbn [fst]; congruence.
Qed.

(** X13.  What a run writes to standard error: nothing when it
    succeeds; when it fails, the error line twice, around the usage
    text, once by cobra inside [Execute], which is not told to be
    silent, and once by [main]. *)
Theorem X13_error_is_reported_twice (usage : gostring) (env : Env)
        (extensions args : list gostring) (st : State) :
  stderr (fst (main usage env extensions args st))
  = stderr st
      ++ match snd (Execute usage env extensions args st) with
         | None => []
         | Some err => error_line err ++ usage ++ newline ++ error_line err
         end.
Proof.
  unfold main, Execute, error_line.
  destruct (MaximumNArgs 1 args) as [e|].
  - cbn [fst snd stderr printToStdErr]. now rewrite <- !app_assoc.
  - pose proof (RunE_stderr env extensions args st) as H.
    destruct (RunE env extensions args st) as [st1 [e|]]; cbn [fst snd] in *.
    + cbn [stderr printToStdErr]. rewrite H. now rewrite <- !app_assoc.
    + now rewrite H, app_nil_r.
Qed.

(** X14.  When the directory cannot be resolved, nothing is scanned and
    nothing is written: [main] prints no line on standard output and
    creates no file.  The error is that of [os.Getwd] as it is when no
    argument is given, that of [os.Stat] behind [directory not
    accessible: ] when the argument cannot be statted, and [path is not
    a directory: ] with the argument when it is no directory; the
    arguments after the first are not looked at. *)
Theorem X14_unresolved_directory_stops_the_run (usage : gostring) (env : Env)
        (extensions args : list gostring) (st : State)
        (folderPath : gostring) (err : GoError) :
  getFolderPath env args = (folderPath, Some err) ->
  (exists st',
      main usage env extensions args st = (st', 0)
      /\ stdout st' = stdout st /\ files st' = files st)
  /\ folderPath = []
  /\ ((args = [] /\ exists msg, Getwd env = inl msg /\ err = Err msg)
      \/ (exists arg0 rest msg,
             args = arg0 :: rest /\ Stat env arg0 = inl msg
             /\ err = Err (lit "directory not accessible: " ++ msg))
      \/ (exists arg0 rest info,
             args = arg0 :: rest /\ Stat env arg0 = inr info
             /\ fi_IsDir info = false
             /\ err = Err (lit "path is not a directory: " ++ arg0))).
Proof.
  intros Hget. split; [|split].
  - unfold main, Execute, RunE. rewrite Hget.
    destruct (MaximumNArgs 1 args); eexists; repeat split.
  - unfold getFolderPath, validateDirectory in Hget.
    destruct args as [|arg0 rest].
    + destruct (Getwd env); now inversion Hget.
    + destruct (Stat env arg0) as [msg|info]; [now inversion Hget|].
      destruct (fi_IsDir info); now inversion Hget.
  - unfold getFolderPath, validateDirectory in Hget.
    destruct args as [|arg0 rest].
    + left. split; [reflexivity|]. destruct (Getwd env) as [msg|d]; [|discriminate Hget].
      exists msg. split; [reflexivity|]. now inversion Hget.
    + right. destruct (Stat env arg0) as [msg|info] eqn:Es.
      * left. exists arg0, rest, msg. split; [reflexivity|]. split; [exact Es|].
        now inversion Hget.
      * right. exists arg0, rest, info.
        destruct (fi_IsDir info) eqn:Ed; [discriminate Hget|].
        split; [reflexivity|]. split; [exact Es|]. split; [reflexivity|].
        now inversion Hget.
Qed.

Lemma X14_unresolved_directory_stops_the_run_witness :
  exists st',
    main (lit "usage") missing_env [] [lit "/nowhere"] empty_state = (st', 0)
    /\ stdout st' = [] /\ files st' = []
    /\ stderr st'
       = lit "Error: directory not accessible: stat /nowhere: no such file or directory"
           ++ newline ++ lit "usage" ++ newline
           ++ lit "Error: directory not accessible: stat /nowhere: no such file or directory"
           ++ newline.
Proof.
  destruct (X14_unresolved_directory_stops_the_run
              (lit "usage") missing_env [] [lit "/nowhere"] empty_state []
              (Err (lit "directory not accessible: stat /nowhere: no such file or directory")))
    as ((st' & Hmain & Hout & Hfiles) & _).
  - reflexivity.
  - exists st'. split; [exact Hmain|]. split; [exact Hout|]. split; [exact Hfiles|].
    apply (f_equal fst) in Hmain. cbn [fst] in Hmain. rewrite <- Hmain.
    vm_compute. reflexivity.
Defined.

(** X15.  With more than one positional argument the run stops before
    [RunE]: the error says how many arguments were received, nothing is
    asked of the operating system, so the outcome is the same in every
    environment, nothing is printed on standard output and no file is
    created. *)
Theorem X15_more_than_one_argument (usage : gostring) (env : Env)
        (extensions args : list gostring) (st : State) :
  (2 <= length args)%nat ->
  Execute usage env extensions args st
  = ({| stdout := stdout st;
        stderr := stderr st
                    ++ lit "Error: accepts at most 1 arg(s), received "
                    ++ decimal (Z.of_nat (length args)) ++ newline
                    ++ usage ++ newline;
        files := files st |},
     Some (Err (lit "accepts at most 1 arg(s), received "
                    ++ decimal (Z.of_nat (length args)))))
  /\ (forall env', main usage env' extensions args st
                   = main usage env extensions args st)
  /\ stdout (fst (main usage env extensions args st)) = stdout st
  /\ files (fst (main usage env extensions args st)) = files st.
Proof.
  intros Hlen.
  assert (E : MaximumNArgs 1 args
              = Some (Err (lit "accepts at most 1 arg(s), received "
                               ++ decimal (Z.of_nat (length args))))).
  { unfold MaximumNArgs. replace (1 <? length args)%nat with true; [reflexivity|].
    symmetry. apply Nat.ltb_lt. lia. }
  unfold main, Execute. rewrite E. cbn [Error fst stdout files printToStdErr].
  repeat split.
Qed.

Lemma X15_more_than_one_argument_witness :
  snd (Execute (lit "usage") missing_env [] [lit "/a"; lit "/b"] empty_state)
  = Some (Err (lit "accepts at most 1 arg(s), received 2"))
  /\ files (fst (main (lit "usage") missing_env [] [lit "/a"; lit "/b"] empty_state))
     = [].
Proof.
  destruct (X15_more_than_one_argument
              (lit "usage") missing_env [] [lit "/a"; lit "/b"] empty_state)
    as (Hrun & _ & _ & Hfiles).
  - cbn [length]. lia.
  - split; [rewrite Hrun; reflexivity | exact Hfiles].
Defined.

(** X16.  A whole run that meets no failure: the argument or the working
    directory resolves, nothing fails in the tree, the report can be
    created and fits on the device.  Then the new file holds the header
    and one row for each file that passes the normalized filter, in the
    order of the walk; standard output holds the two first lines, one
    line for each of these files and the place of the report; nothing
    goes to standard error and the exit status is 0. *)
Theorem X16_run_without_failure (usage : gostring) (env : Env)
        (extensions args : list gostring) (folderPath : gostring) (e : Entry)
        (st : State) :
  MaximumNArgs 1 args = None ->
  getFolderPath env args = (folderPath, None) ->
  Lstat_tree env folderPath = RootEntry e ->
  has_failure env (formatExtensions extensions) e = false ->
  Create_err env (outputFilename env) = None ->
  fits env (report (map (record_of env)
                        (matching_paths (formatExtensions extensions) e))) ->
  exists st',
    main usage env extensions args st = (st', 0)
    /\ files st'
       = (outputFilename env,
          report (map (record_of env)
                      (matching_paths (formatExtensions extensions) e)))
           :: files st
    /\ stdout st'
       = stdout st ++ banner folderPath (formatExtensions extensions)
           ++ progress (matching_paths (formatExtensions extensions) e)
           ++ lit "Output written to: "
           ++ match Abs env (outputFilename env) with
              | inl _ => outputFilename env
              | inr absPath => absPath
              end ++ newline
    /\ stderr st' = stderr st.
Proof.
  intros Hargs Hget Hroot Hok Hcreate Hfit.
  destruct (processFiles_healthy env folderPath (formatExtensions extensions) e st
                                 Hroot Hok) as (st1 & Hrun1 & Hout1 & _).
  destruct (processFiles_spec env folderPath (formatExtensions extensions) st)
    as (st1' & Hf1 & He1 & Hspec).
  assert (Hst1 : st1' = st1).
  { destruct (walk_fails env (formatExtensions extensions) folderPath).
    - destruct Hspec as [msg Hspec]. rewrite Hspec in Hrun1. discriminate Hrun1.
    - destruct Hspec as (recs & Hspec & _). rewrite Hspec in Hrun1.
      now injection Hrun1. }
  subst st1'.
  destruct (writeToCsv_layout env _ st1 Hcreate Hfit)
    as (st2 & Hrun2 & Hf2 & Hout2 & He2).
  exists st2. unfold main, Execute, RunE.
  rewrite Hargs, Hget, Hrun1, Hrun2. split; [reflexivity|].
  split; [now rewrite Hf2, Hf1|]. split; [|congruence].
  rewrite Hout2, Hout1. now rewrite <- !app_assoc.
Qed.

Lemma X16_run_without_failure_witness :
  exists st',
    main (lit "usage") (sample_env sample_tree [] None) [lit "txt"] [lit "/d"]
         empty_state = (st', 0)
    /\ files st'
       = [(lit "hash_results_20250101_120530.csv",
           lit "Name,Path,Size (MB),Hash" ++ newline
             ++ lit "a.txt,/d/a.txt,1.00,"
             ++ lit "ba7816bf8f01cfea414140de5dae2223b00361a396177a9cb410ff61f20015ad"
             ++ newline
             ++ lit "b.txt,/d/sub/b.txt,1.00,"
             ++ lit "ba7816bf8f01cfea414140de5dae2223b00361a396177a9cb410ff61f20015ad"
             ++ newline)]
    /\ stderr st' = [].
Proof.
  destruct (X16_run_without_failure
              (lit "usage") (sample_env sample_tree [] None) [lit "txt"] [lit "/d"]
              (lit "/d") sample_tree empty_state)
    as (st' & Hmain & Hfiles & _ & Herr).
  - reflexivity.
  - reflexivity.
  - reflexivity.
  - reflexivity.
  - reflexivity.
  - exact I.
  - exists st'. split; [exact Hmain|]. split; [|exact Herr].
    rewrite Hfiles. vm_compute. reflexivity.
Defined.

(** ** The failed run *)

(** A run that [Execute] ends with an error has failed in one of five
    steps, and only the last of them leaves a file. *)
Lemma Execute_failure (usage : gostring) (env : Env) (extensions args : list gostring)
      (st st' : State) (err : GoError) :
  Execute usage env extensions args st = (st', Some err) ->
  failure_outcome env extensions args st st' err.
Proof.
  unfold Execute, failure_outcome.
  destruct (MaximumNArgs 1 args) as [e|] eqn:Ea.
  { intros [= <- <-]. left. split; [reflexivity | now left]. }
  destruct (RunE env extensions args st) as [st2 [e|]] eqn:E; [|discriminate].
  intros [= <- <-]. cbn [files]. unfold RunE in E.
  destruct (getFolderPath env args) as [folderPath [e0|]] eqn:Eg.
  { injection E as <- <-. left. split; [reflexivity|]. right. left.
    split; [reflexivity|]. now exists folderPath. }
  destruct (processFiles_spec env folderPath (formatExtensions extensions) st)
    as (st1 & Hf1 & _ & Hrun1).
  destruct (walk_fails env (formatExtensions extensions) folderPath).
  { destruct Hrun1 as [msg Hrun1]. rewrite Hrun1 in E. injection E as <- <-.
    left. split; [exact Hf1|]. right. right. left.
    exists folderPath, st1, []. auto. }
  destruct Hrun1 as (recs & Hrun1 & _). rewrite Hrun1 in E.
  destruct (Create_err env (outputFilename env)) as [msg|] eqn:Ec.
  - unfold writeToCsv, writeToCsv_writer, os_Create in E. rewrite Ec in E.
    injection E as <- <-. left. split; [exact Hf1|]. right. right. right.
    exists folderPath, st1, recs, msg. auto.
  - destruct (writeToCsv_on_device env recs st1 Ec)
      as (st3 & err3 & Hrun3 & Hf3 & _ & Hcase).
    rewrite Hrun3 in E. destruct err3 as [e3|]; [|discriminate E].
    injection E as <- <-. destruct Hcase as (-> & _ & Hnofit).
    right. exists folderPath, st1, recs.
    repeat split; auto. now rewrite Hf3, Hf1.
Qed.

(** C4, as the code has it.  Whenever the program fails with an error,
    it prints [Error: <message>] to standard error and ends with the
    exit status 0, for [main] returns.  No output file is produced when
    the arguments are refused, the directory does not resolve, the scan
    fails or [os.Create] fails.  When the failure is that of writing the
    rows, the file that [os.Create] made stays, and it holds what was
    written of the report: the bytes that the device took. *)
Theorem C4_failure_report (usage : gostring) (env : Env)
        (extensions args : list gostring) (st st1 : State) (err : GoError) :
  Execute usage env extensions args st = (st1, Some err) ->
  exists st',
    main usage env extensions args st = (st', 0)
    /\ stderr st' = stderr st1 ++ lit "Error: " ++ Error err ++ newline
    /\ failure_outcome env extensions args st st' err.
Proof.
  intros Hrun. unfold main. rewrite Hrun.
  exists (printToStdErr err st1). split; [reflexivity|]. split; [reflexivity|].
  apply Execute_failure in Hrun. exact Hrun.
Qed.

Lemma C4_failure_report_witness :
  snd (Execute (lit "usage") (sample_env sample_tree [lit "/d/a.txt"] None)
               [] [lit "/d"] empty_state) <> None
  /\ exists st',
      main (lit "usage") (sample_env sample_tree [lit "/d/a.txt"] None)
           [] [lit "/d"] empty_state = (st', 0)
      /\ files st' = files empty_state.
Proof.
  split; [vm_compute; discriminate|].
  destruct (C4_failure_report
              (lit "usage") (sample_env sample_tree [lit "/d/a.txt"] None)
              [] [lit "/d"] empty_state
              (fst (Execute (lit "usage") (sample_env sample_tree [lit "/d/a.txt"] None)
                            [] [lit "/d"] empty_state))
              (Err (lit "failed to hash file /d/a.txt: "
                        ++ lit "open /d/a.txt: permission denied")))
    as (st' & Hmain & _ & _).
  - vm_compute. reflexivity.
  - exists st'. split; [exact Hmain|].
    apply (f_equal fst) in Hmain. cbn [fst] in Hmain. rewrite <- Hmain.
    vm_compute. reflexivity.
Defined.

(** C4 as it is stated fails: a run whose report outgrows the device
    fails when the buffer of the writer is flushed in the middle of the
    rows; the program prints the error, ends with the status 0, and the
    file it created stays, with the hundred bytes that the device
    took. *)
Lemma C4_counterexample :
  (exists cause,
      snd (Execute (lit "usage") (sample_env large_tree [] (Some 100%nat))
                   [] [lit "/d"] empty_state)
      = Some (Errorf_w (lit "failed to write content to CSV: ") cause))
  /\ snd (main (lit "usage") (sample_env large_tree [] (Some 100%nat))
               [] [lit "/d"] empty_state) = 0
  /\ exists content,
      files (fst (main (lit "usage") (sample_env large_tree [] (Some 100%nat))
                       [] [lit "/d"] empty_state))
      = [(lit "hash_results_20250101_120530.csv", content)]
      /\ length content = 100%nat.
Proof.
  split; [|split].
  - exists (Err (lit "write: no space left on device")). vm_compute. reflexivity.
  - vm_compute. reflexivity.
  - eexists. split; [vm_compute; reflexivity | vm_compute; reflexivity].
Qed.
